(** * RELAY-APC: command protocol, local store and backup/restore

  A shallow embedding of the TypeScript sources of the GSM relay
  controller application, and the properties of its specification that
  were checked against it.

  - [JSString]: the JavaScript string primitives the sources use
    ([includes], [startsWith], [substring], [trim], the regular
    expressions of the command grammar).
  - [AdminNumber]: the two [registerAdminNumber] formatters.
  - [LogManager]: [utils/LogManager.ts].
  - [DataStore]: [utils/DataStore.ts].
  - [BackupRestore]: [restoreFromBackup] of [utils/backupRestore.ts].
  - [Samples]: the data the properties are run on.

  JavaScript strings are modelled as [string]; the command grammar is
  7-bit ASCII.  Fresh identifiers and timestamps ([generateUUID],
  [Date]) are arguments of the operations that draw them. *)

From Stdlib Require Import ZArith Ascii String DecimalString.
From stdpp Require Import base option list strings gmap fin_maps.

Local Open Scope string_scope.

(* ===================================================================== *)
(** ** JavaScript string primitives *)
(* ===================================================================== *)

Module JSString.

(** A JavaScript string is given by its UTF-8 bytes, one [ascii] each.
    The needles, the digits and the letters that the code looks for are
    ASCII, which UTF-8 keeps as single bytes that occur nowhere else, so
    searching, splitting and replacing read the bytes as they read the
    characters.  Where the code counts characters ([length]) or skips
    white space ([trim], [parseInt]), the bytes are read as characters
    ([jsLength], [spaceAt]). *)

(** [\d]: an ASCII decimal digit. *)
Definition is_digit (c : ascii) : bool :=
  ((48 <=? nat_of_ascii c) && (nat_of_ascii c <=? 57))%nat.

(** [s.replace(/\D/g, '')] *)
Fixpoint stripNonDigits (s : string) : string :=
  match s with
  | EmptyString => EmptyString
  | String c s' =>
      if is_digit c then String c (stripNonDigits s') else stripNonDigits s'
  end.

(** [s.startsWith(p)] *)
Definition startsWith (s p : string) : bool := String.prefix p s.

(** [s.substring(1)] *)
Definition substring1 (s : string) : string :=
  match s with
  | EmptyString => EmptyString
  | String _ s' => s'
  end.

(** [s.includes(needle)] *)
Fixpoint includes (s needle : string) : bool :=
  String.prefix needle s
  || match s with
     | EmptyString => false
     | String _ s' => includes s' needle
     end.

(** Every character of the string is a digit. *)
Fixpoint allDigits (s : string) : bool :=
  match s with
  | EmptyString => true
  | String c s' => is_digit c && allDigits s'
  end.

(** Some character of the string is a digit. *)
Fixpoint hasDigit (s : string) : bool :=
  match s with
  | EmptyString => false
  | String c s' => is_digit c || hasDigit s'
  end.

(** A device password as [validatePasswords] of the change-password
    screen accepts it ([length === 4] and [/^\d+$/]), and a serial: a
    position 001-200 written with three digits. *)
Definition isPassword (p : string) : bool :=
  (String.length p =? 4)%nat && allDigits p.

Definition isSerial (s : string) : bool :=
  (String.length s =? 3)%nat && allDigits s.

(** The character occurs in the string. *)
Fixpoint occurs (c : ascii) (s : string) : bool :=
  match s with
  | EmptyString => false
  | String c' s' => Ascii.eqb c c' || occurs c s'
  end.

(** The white space that is one byte: TAB, LF, VT, FF, CR and SPACE. *)
Definition is_space (c : ascii) : bool :=
  let n := nat_of_ascii c in
  (((9 <=? n) && (n <=? 13)) || (n =? 32))%nat.

Definition byte (n : nat) (c : ascii) : bool := (nat_of_ascii c =? n)%nat.

(** One white-space character at the head of the string, and what is
    behind it.  The white space of [trim] and [parseInt] is [WhiteSpace]
    and [LineTerminator] of the language: the six ASCII characters,
    U+00A0, U+1680, U+2000 to U+200A, U+2028, U+2029, U+202F, U+205F,
    U+3000 and U+FEFF, here in UTF-8. *)
Definition spaceAt (s : string) : option string :=
  match s with
  | EmptyString => None
  | String c s1 =>
      if is_space c then Some s1
      else
        match s1 with
        | EmptyString => None
        | String d s2 =>
            if byte 194 c && byte 160 d then Some s2
            else
              match s2 with
              | EmptyString => None
              | String e s3 =>
                  let n := nat_of_ascii e in
                  if (byte 225 c && byte 154 d && byte 128 e)
                     || (byte 226 c && byte 128 d
                         && (((128 <=? n) && (n <=? 138))%nat
                             || byte 168 e || byte 169 e || byte 175 e))
                     || (byte 226 c && byte 129 d && byte 159 e)
                     || (byte 227 c && byte 128 d && byte 128 e)
                     || (byte 239 c && byte 187 d && byte 191 e)
                  then Some s3
                  else None
              end
        end
  end.

(** The string without the white space in front of it; a turn takes one
    character off, and there are no more characters than bytes. *)
Fixpoint dropSpacesIn (turns : nat) (s : string) : string :=
  match turns with
  | O => s
  | S turns' =>
      match spaceAt s with
      | Some rest => dropSpacesIn turns' rest
      | None => s
      end
  end.

Definition dropSpaces (s : string) : string :=
  dropSpacesIn (String.length s) s.

(** [!s.trim()]: nothing but white space. *)
Definition isBlank (s : string) : bool :=
  bool_decide (dropSpaces s = "").

(** [s.length]: the UTF-16 code units of the string.  A byte that
    continues a character (128 to 191) counts nothing, a byte that
    starts a character beyond U+FFFF (240 and above) counts two, any
    other byte one. *)
Fixpoint jsLength (s : string) : nat :=
  match s with
  | EmptyString => O
  | String c s' =>
      let n := nat_of_ascii c in
      ((if (128 <=? n) && (n <=? 191) then 0
        else if 240 <=? n then 2 else 1) + jsLength s')%nat
  end.

(** *** Regular-expression pieces

    A matcher consumes a prefix of its input and returns what it read
    and what is left.  The patterns of the command grammar have no
    alternation, and their only repetition, [[^#]+], is followed by the
    one character it excludes, so matching never backtracks. *)

(** [\d{n}] *)
Fixpoint digits (n : nat) (s : string) : option (string * string) :=
  match n with
  | O => Some (EmptyString, s)
  | S n' =>
      match s with
      | String c s' =>
          if is_digit c
          then '(d, rest) ← digits n' s'; Some (String c d, rest)
          else None
      | EmptyString => None
      end
  end.

(** A literal character. *)
Definition lit (c : ascii) (s : string) : option string :=
  match s with
  | String c' s' => if Ascii.eqb c c' then Some s' else None
  | EmptyString => None
  end.

(** [[^#]*], greedy. *)
Fixpoint notHashes (s : string) : string * string :=
  match s with
  | String c s' =>
      if Ascii.eqb c "#" then (EmptyString, s)
      else let '(run, rest) := notHashes s' in (String c run, rest)
  | EmptyString => (EmptyString, EmptyString)
  end.

(** [[^#]+] *)
Definition notHashes1 (s : string) : option (string * string) :=
  match notHashes s with
  | (EmptyString, _) => None
  | (run, rest) => Some (run, rest)
  end.

(** [s.match(re)] for a pattern that is not anchored: the leftmost
    position at which the pattern matches. *)
Fixpoint search {A} (at_ : string → option A) (s : string) : option A :=
  match at_ s with
  | Some r => Some r
  | None =>
      match s with
      | EmptyString => None
      | String _ s' => search at_ s'
      end
  end.

(** [parseInt(s, 10)] of a string of digits, printed back by a template
    literal: the digits without their leading zeros, ["0"] when nothing
    is left. *)
Fixpoint dropZeros (s : string) : string :=
  match s with
  | String "0" s' => dropZeros s'
  | _ => s
  end.

Definition parseIntText (s : string) : string :=
  match dropZeros s with
  | EmptyString => "0"
  | t => t
  end.

(** [s.slice(0, n)] *)
Fixpoint sliceTo (n : nat) (s : string) : string :=
  match n, s with
  | S n', String c s' => String c (sliceTo n' s')
  | _, _ => EmptyString
  end.

(** [s.padStart(n, c)] for a one-character filler. *)
Fixpoint fill (k : nat) (c : ascii) (s : string) : string :=
  match k with
  | O => s
  | S k' => String c (fill k' c s)
  end.

Definition padStart (n : nat) (c : ascii) (s : string) : string :=
  fill (n - jsLength s) c s.

(** [parseInt(s, 10)]: the white space in front is skipped, a sign is
    read, then the digits that follow; [None] is [NaN].  The value is
    the exact integer; the code compares it with the positions up to
    201 only, which a double holds exactly. *)
Fixpoint leadingValue (acc : Z) (s : string) : Z :=
  match s with
  | String c s' =>
      if is_digit c
      then leadingValue (10 * acc + (Z.of_nat (nat_of_ascii c) - 48))%Z s'
      else acc
  | EmptyString => acc
  end.

Definition parseInt (s : string) : option Z :=
  let s := dropSpaces s in
  let '(sign, s) :=
    match s with
    | String "-" s' => ((-1)%Z, s')
    | String "+" s' => (1%Z, s')
    | _ => (1%Z, s)
    end in
  match s with
  | String c _ =>
      if is_digit c then Some (sign * leadingValue 0 s)%Z else None
  | EmptyString => None
  end.

(** [n.toString()] of a natural number. *)
Definition numberToString (n : nat) : string :=
  NilZero.string_of_uint (Nat.to_uint n).

(** A phone number as it is dialled: digits and [+], at least one (the
    characters that [openSMSApp] keeps of a number, [/[^0-9+]/] taken
    out). *)
Fixpoint phoneChars (s : string) : bool :=
  match s with
  | EmptyString => true
  | String c s' => (is_digit c || Ascii.eqb c "+") && phoneChars s'
  end.

Definition isPhoneNumber (s : string) : bool :=
  negb (bool_decide (s = "")) && phoneChars s.

End JSString.

(* ===================================================================== *)
(** ** Admin-number formatting *)
(* ===================================================================== *)

Module AdminNumber.
Import JSString.

(** [registerAdminNumber] of [Step1Page] (the first setup step), from
    the line that strips the non-digits to the number that is placed
    in the [TEL] command. *)
Definition formatAdminNumber (adminNumber : string) : string :=
  let formatted := stripNonDigits adminNumber in
  let formatted :=
    if startsWith formatted "0" then substring1 formatted else formatted in
  if negb (startsWith formatted "00") then "00" ++ formatted else formatted.

(** [registerAdminNumber] of [app/setup.tsx], the sibling screen. *)
Definition formatAdminNumber_setup (adminNumber : string) : string :=
  let formatted := stripNonDigits adminNumber in
  if startsWith formatted "0" && negb (startsWith formatted "00")
  then "00" ++ substring1 formatted
  else if negb (startsWith formatted "00") then "00" ++ formatted
  else formatted.

(** The algorithm in the words of the specification: strip the
    non-digits; drop a single leading [0] (not [00]); prepend [00]
    unless the number starts with [00] already. *)
Definition normalize_spec (adminNumber : string) : string :=
  let digits := stripNonDigits adminNumber in
  let digits :=
    if startsWith digits "0" && negb (startsWith digits "00")
    then substring1 digits else digits in
  if startsWith digits "00" then digits else "00" ++ digits.

(** The number in the command preview that [Step1Page] renders under
    the input field. *)
Definition previewAdminNumber (adminNumber : string) : string :=
  if startsWith (stripNonDigits adminNumber) "00"
  then stripNonDigits adminNumber
  else "00" ++ stripNonDigits adminNumber.

(** The [TEL] command sent to the relay. *)
Definition registerAdminCommand (password adminNumber : string) : string :=
  password ++ "TEL" ++ formatAdminNumber adminNumber ++ "#".

End AdminNumber.

(* ===================================================================== *)
(** ** Log manager ([utils/LogManager.ts]) *)
(* ===================================================================== *)

Module LogManager.
Import JSString.

Inductive Category := relay | settings | user | system.

Record LogEntry := {
  id : string;
  timestamp : string;
  action : string;
  details : string;
  success : bool;
  deviceId : option string;
  category : Category
}.

(** [[A-Z]] *)
Definition is_upper (c : ascii) : bool :=
  ((65 <=? nat_of_ascii c) && (nat_of_ascii c <=? 90))%nat.

(** [sanitizeLogDetails]: [command.replace(/\d{4}([A-Z])/g, '****$1')] *)
Fixpoint sanitizeLogDetails (command : string) : string :=
  match command with
  | EmptyString => EmptyString
  | String a s1 =>
      match s1 with
      | String b (String c (String d (String e rest))) =>
          if is_digit a && is_digit b && is_digit c && is_digit d
             && is_upper e
          then "****" ++ String e (sanitizeLogDetails rest)
          else String a (sanitizeLogDetails s1)
      | _ => String a (sanitizeLogDetails s1)
      end
  end.

(** [/\d{4}A(\d{3})##/] at the start of the input: the serial. *)
Definition removeUserAt (s : string) : option string :=
  '(_, s) ← digits 4 s;
  s ← lit "A" s;
  '(serial, s) ← digits 3 s;
  s ← lit "#" s;
  _ ← lit "#" s;
  Some serial.

(** [/\d{4}A(\d{3})#([^#]+)#/] at the start of the input: the serial
    and the phone number. *)
Definition addUserAt (s : string) : option (string * string) :=
  '(_, s) ← digits 4 s;
  s ← lit "A" s;
  '(serial, s) ← digits 3 s;
  s ← lit "#" s;
  '(phone, s) ← notHashes1 s;
  _ ← lit "#" s;
  Some (serial, phone).

(** [/\d{4}GOT(\d{3})#/] at the start of the input: the seconds. *)
Definition latchTimeAt (s : string) : option string :=
  '(_, s) ← digits 4 s;
  s ← lit "G" s;
  s ← lit "O" s;
  s ← lit "T" s;
  '(seconds, s) ← digits 3 s;
  _ ← lit "#" s;
  Some seconds.

(** The classification of [logSMSOperation]: the action, the details
    and the category it hands to [addLog]. *)
Definition describeSMS (command : string) : string * string * Category :=
  if includes command "CC" then
    ("Gate Open", "Opened gate/activated relay (ON)", relay)
  else if includes command "DD" then
    ("Gate Close", "Closed gate/deactivated relay (OFF)", relay)
  else if includes command "P" then
    ("Password Change", "Changed device password", settings)
  else if includes command "EE" then
    ("Status Check", "Requested device status", system)
  else if includes command "TEL" then
    ("Admin Registration", "Registered admin phone number", settings)
  else if includes command "A" && negb (includes command "ALL")
          && negb (includes command "AUT") then
    let details :=
      if includes command "##" then
        "Removed authorized user from position "
          ++ default "" (search removeUserAt command)
      else
        match search addUserAt command with
        | Some (serial, phone) =>
            "Added user " ++ phone ++ " at position " ++ serial
        | None => sanitizeLogDetails command
        end in
    ("User Management", details, user)
  else if includes command "AUT" then
    ("Access Control", "Set to authorized users only", settings)
  else if includes command "ALL" then
    ("Access Control", "Set to allow all callers", settings)
  else if includes command "GOT" then
    let seconds := search latchTimeAt command in
    let details :=
      if bool_decide (seconds = Some "000") then
        "Set relay to momentary mode (pulse)"
      else if bool_decide (seconds = Some "999") then
        "Set relay to toggle mode (stays ON until next call)"
      else
        "Set relay to close for " ++ parseIntText (default "0" seconds)
          ++ " seconds" in
    ("Relay Timing", details, settings)
  else
    ("GSM Command", sanitizeLogDetails command, system).

(** *** Commands as the screens build them *)

(** [addNewUser] of [app/step3.tsx]; an empty string is a time that
    was not entered. *)
Definition addUserCommand
    (password newUserSerial newUserPhone newUserStartTime newUserEndTime
       : string) : string :=
  let command :=
    password ++ "A" ++ newUserSerial ++ "#" ++ newUserPhone ++ "#" in
  if negb (bool_decide (newUserStartTime = ""))
     && negb (bool_decide (newUserEndTime = ""))
  then command ++ newUserStartTime ++ "#" ++ newUserEndTime ++ "#"
  else command.

(** [deleteUserById] of [AuthorizedUsersPage]. *)
Definition removeUserCommand (password serial : string) : string :=
  password ++ "A" ++ serial ++ "##".

(** *** Persisted log buffers

    [AsyncStorage] holds one JSON text per key.  A cell of the model is
    what the code gets out of that text: the log array it parses to, or
    [Garbage] when [JSON.parse] or the [slice] that follows throws.  A
    missing key and the empty text both read as no logs. *)

Inductive Cell := Logs (entries : list LogEntry) | Garbage.

Record Faults := {
  getItemFails : string → bool;    (* [AsyncStorage.getItem] rejects *)
  setItemFails : string → bool     (* [AsyncStorage.setItem] rejects *)
}.

Definition SYSTEM_LOGS_KEY : string := "systemLogs".

Definition getDeviceLogsKey (deviceId : string) : string :=
  "app_logs_" ++ deviceId.

(** [validateKey] of [utils/storageUtils.ts]: a key that is not a
    non-empty string is replaced by the fallback, when there is one. *)
Definition validateKey (key : string) (fallback : option string)
    : option string :=
  if bool_decide (key = "") then
    match fallback with
    | Some f => if bool_decide (f = "") then None else Some f
    | None => None
    end
  else Some key.

(** [safeGetItem]: [None] for an invalid key, a rejected read or a
    missing key. *)
Definition safeGetItem (io : Faults) (storage : gmap string Cell)
    (key : string) (fallback : option string) : option Cell :=
  validKey ← validateKey key fallback;
  if getItemFails io validKey then None else storage !! validKey.

(** [safeSetItem]: the storage afterwards; it swallows a rejection. *)
Definition safeSetItem (io : Faults) (storage : gmap string Cell)
    (key : string) (value : Cell) : gmap string Cell :=
  match validateKey key None with
  | None => storage
  | Some validKey =>
      if setItemFails io validKey then storage
      else <[validKey := value]> storage
  end.

(** [logsJson ? JSON.parse(logsJson) : []]; [None] when it throws. *)
Definition readLogs (io : Faults) (storage : gmap string Cell)
    (key : string) : option (list LogEntry) :=
  match safeGetItem io storage key (Some "[]") with
  | None => Some []
  | Some (Logs entries) => Some entries
  | Some Garbage => None
  end.

(** The [try] block of [addLog]: the device bucket when a device id is
    given, then the system buffer.  A throw leaves the storage at what
    had been written until then. *)
Definition addLog (io : Faults) (newLog : LogEntry)
    (storage : gmap string Cell) : gmap string Cell :=
  let afterDevice :=
    match deviceId newLog with
    | Some dev =>
        if bool_decide (dev = "") then Some storage
        else
          let deviceLogsKey := getDeviceLogsKey dev in
          logs ← readLogs io storage deviceLogsKey;
          Some (safeSetItem io storage deviceLogsKey
                  (Logs (newLog :: take 199 logs)))
    | None => Some storage
    end in
  match afterDevice with
  | None => storage
  | Some storage1 =>
      match readLogs io storage1 SYSTEM_LOGS_KEY with
      | None => storage1
      | Some systemLogs =>
          safeSetItem io storage1 SYSTEM_LOGS_KEY
            (Logs (newLog :: take 99 systemLogs))
      end
  end.

(** [logSMSOperation]; the entry's id and timestamp are drawn by the
    caller. *)
Definition logSMSOperation (io : Faults) (newId now : string)
    (dev : option string) (command : string) (ok : bool)
    (storage : gmap string Cell) : LogEntry * gmap string Cell :=
  let '(act, det, cat) := describeSMS command in
  let newLog := {| id := newId; timestamp := now; action := act;
                   details := det; success := ok; deviceId := dev;
                   category := cat |} in
  (newLog, addLog io newLog storage).

(** [getDeviceLogs] *)
Definition getDeviceLogs (io : Faults) (dev : option string)
    (storage : gmap string Cell) : list LogEntry :=
  let fromSystem := default [] (readLogs io storage SYSTEM_LOGS_KEY) in
  match dev with
  | Some d =>
      if bool_decide (d = "") then fromSystem
      else
        match safeGetItem io storage (getDeviceLogsKey d) (Some "[]") with
        | Some (Logs entries) => entries
        | Some Garbage => []
        | None => fromSystem
        end
  | None => fromSystem
  end.

(** [clearDeviceLogs]: [safeSetItem] swallows a rejected write, so the
    call reports [true] whatever happened. *)
Definition clearDeviceLogs (io : Faults) (dev : option string)
    (storage : gmap string Cell) : bool * gmap string Cell :=
  match dev with
  | Some d =>
      if bool_decide (d = "")
      then (true, safeSetItem io storage SYSTEM_LOGS_KEY (Logs []))
      else (true, safeSetItem io storage (getDeviceLogsKey d) (Logs []))
  | None => (true, safeSetItem io storage SYSTEM_LOGS_KEY (Logs []))
  end.

(** [/\d{4}[A-Z]/.test(s)]: a password in front of a command letter, the
    pattern that [sanitizeLogDetails] masks. *)
Definition passwordAt (s : string) : bool :=
  match s with
  | String a (String b (String c (String d (String e _)))) =>
      is_digit a && is_digit b && is_digit c && is_digit d && is_upper e
  | _ => false
  end.

Fixpoint showsPassword (s : string) : bool :=
  passwordAt s
  || match s with
     | String _ s' => showsPassword s'
     | EmptyString => false
     end.

End LogManager.

(* ===================================================================== *)
(** ** Local store ([utils/DataStore.ts]) *)
(* ===================================================================== *)

Module DataStore.
Import JSString.

Record User := {
  user_id : string;
  user_name : string;
  phoneNumber : string;
  serialNumber : string;
  startTime : option string;
  endTime : option string
}.

Inductive Category := relay | settings | user | system.

Record LogEntry := {
  log_id : string;
  timestamp : string;
  action : string;
  details : string;
  success : bool;
  category : Category
}.

Inductive AccessControl := AUT | ALL.

Record RelaySettings := {
  accessControl : AccessControl;
  latchTime : string
}.

Record Device := {
  dev_id : string;
  dev_name : string;
  unitNumber : string;
  password : string;
  authorizedUsers : list string;
  createdAt : string;
  updatedAt : string;
  relaySettings : option RelaySettings
}.

Record GlobalSettings := {
  adminNumber : string;
  activeDeviceId : option string;
  completedSteps : list string
}.

(** [logs] is a JavaScript object used as a map from device id to log
    bucket. *)
Record AppData := {
  devices : list Device;
  users : list User;
  logs : gmap string (list LogEntry);
  globalSettings : GlobalSettings
}.

Definition initialState : AppData :=
  {| devices := []; users := []; logs := ∅;
     globalSettings := {| adminNumber := ""; activeDeviceId := None;
                          completedSteps := [] |} |}.

(** The prototype of the [logs] object.  It is [Object.prototype] for
    the object of the initial state and for one that [JSON.parse] made;
    an assignment to [logs["__proto__"]], when [logs] has no property of
    that name of its own, goes to the accessor of [Object.prototype] and
    makes the array assigned the prototype. *)
Inductive Prototype :=
| ObjectPrototype
| ArrayPrototype (entries : list LogEntry).

(** The singleton: the document in memory with the prototype of its
    [logs] object, the [isInitialized] flag, and the document last
    written under the key [app_data]. *)
Record State := {
  store : AppData;
  isInitialized : bool;
  persisted : option AppData;
  logsPrototype : Prototype
}.

Definition withStore (st : State) (s : AppData) : State :=
  {| store := s; isInitialized := isInitialized st;
     persisted := persisted st; logsPrototype := logsPrototype st |}.

Definition withDevices (s : AppData) (ds : list Device) : AppData :=
  {| devices := ds; users := users s; logs := logs s;
     globalSettings := globalSettings s |}.

Definition withUsers (s : AppData) (us : list User) : AppData :=
  {| devices := devices s; users := us; logs := logs s;
     globalSettings := globalSettings s |}.

Definition withLogs (s : AppData) (l : gmap string (list LogEntry))
    : AppData :=
  {| devices := devices s; users := users s; logs := l;
     globalSettings := globalSettings s |}.

Definition withActiveDevice (s : AppData) (a : option string) : AppData :=
  {| devices := devices s; users := users s; logs := logs s;
     globalSettings :=
       {| adminNumber := adminNumber (globalSettings s);
          activeDeviceId := a;
          completedSteps := completedSteps (globalSettings s) |} |}.

Definition withAuthorizedUsers (d : Device) (us : list string) : Device :=
  {| dev_id := dev_id d; dev_name := dev_name d;
     unitNumber := unitNumber d; password := password d;
     authorizedUsers := us; createdAt := createdAt d;
     updatedAt := updatedAt d; relaySettings := relaySettings d |}.

Section Operations.

(** [AsyncStorage.setItem] rejects the write of this document. *)
Variable setItemFails : AppData → bool.

(** What [initialize] does when the store is not initialised yet
    (read [app_data], else migrate the legacy keys, else fall back to
    the initial state): it depends on the whole key space of
    [AsyncStorage] and is left open. *)
Variable load : State → State.

(** The names under which the [logs] object finds a truthy member in
    its prototypes, [__proto__] apart: with [Object.prototype] for a
    prototype the functions of it ([constructor], [toString], ...); with
    an array, besides, the functions of [Array.prototype], the indices of
    the array and its [length] when it is not 0.  Which names these are
    is the engine's. *)
Variable inherits : Prototype → string → bool.

Definition initialize (st : State) : State :=
  if isInitialized st then st
  else {| store := store (load st); isInitialized := true;
          persisted := persisted (load st);
          logsPrototype := logsPrototype (load st) |}.

(** [saveStore]: a rejected write is logged and swallowed. *)
Definition saveStore (st : State) : State :=
  if setItemFails (store st) then st
  else {| store := store st; isInitialized := isInitialized st;
          persisted := Some (store st);
          logsPrototype := logsPrototype st |}.

Definition getDevices (st : State) : list Device := devices (store st).

Definition getDeviceById (deviceId : string) (st : State)
    : option Device :=
  snd <$> list_find (λ d, dev_id d = deviceId) (devices (store st)).

(** [deleteDevice] *)
Definition deleteDevice (deviceId : string) (st : State)
    : bool * State :=
  if bool_decide (deviceId = "") || bool_decide (deviceId = "undefined")
  then (false, st)
  else
    let st := if isInitialized st then st else initialize st in
    let s := store st in
    let initialLength := length (devices s) in
    match list_find (λ d, dev_id d = deviceId) (devices s) with
    | None => (false, st)
    | Some _ =>
        let remaining := filter (λ d, dev_id d ≠ deviceId) (devices s) in
        let s := withDevices s remaining in
        let s :=
          match logs s !! deviceId with
          | Some _ => withLogs s (delete deviceId (logs s))
          | None => s
          end in
        let s :=
          if bool_decide (activeDeviceId (globalSettings s)
                          = Some deviceId)
          then
            match devices s with
            | first :: _ => withActiveDevice s (Some (dev_id first))
            | [] => withActiveDevice s None
            end
          else s in
        let st := saveStore (withStore st s) in
        (negb (initialLength =? length (devices (store st)))%nat, st)
    end.

(** [setActiveDevice]; [None] is [null]. *)
Definition setActiveDevice (deviceId : option string) (st : State)
    : bool * State :=
  let truthy :=
    match deviceId with
    | Some d => negb (bool_decide (d = ""))
    | None => false
    end in
  if truthy
     && negb (existsb (λ d, bool_decide (Some (dev_id d) = deviceId))
                (devices (store st)))
  then (false, st)
  else (true, saveStore (withStore st
                           (withActiveDevice (store st) deviceId))).

(** [deleteUser] *)
Definition deleteUser (userId : string) (st : State) : bool * State :=
  let s := store st in
  let initialLength := length (users s) in
  let s := withUsers s (filter (λ u, user_id u ≠ userId) (users s)) in
  let s :=
    withDevices s
      ((λ d, withAuthorizedUsers d
               (filter (λ i, i ≠ userId) (authorizedUsers d)))
         <$> devices s) in
  let st := withStore st s in
  if negb (initialLength =? length (users s))%nat
  then (true, saveStore st)
  else (false, st).

(** [authorizeUserForDevice] *)
Definition authorizeUserForDevice (deviceId userId : string)
    (st : State) : bool * State :=
  let s := store st in
  match list_find (λ d, dev_id d = deviceId) (devices s) with
  | None => (false, st)
  | Some (i, device) =>
      if negb (bool_decide (userId ∈ authorizedUsers device)) then
        let device :=
          withAuthorizedUsers device
            (authorizedUsers device ++ [userId])%list in
        (true, saveStore (withStore st
                            (withDevices s (<[i := device]> (devices s)))))
      else (false, st)
  end.

(** [deauthorizeUserForDevice] *)
Definition deauthorizeUserForDevice (deviceId userId : string)
    (st : State) : bool * State :=
  let s := store st in
  match list_find (λ d, dev_id d = deviceId) (devices s) with
  | None => (false, st)
  | Some (deviceIndex, device) =>
      let initialLength := length (authorizedUsers device) in
      let device :=
        withAuthorizedUsers device
          (filter (λ i, i ≠ userId) (authorizedUsers device)) in
      let st :=
        withStore st
          (withDevices s (<[deviceIndex := device]> (devices s))) in
      if negb (initialLength =? length (authorizedUsers device))%nat
      then (true, saveStore st)
      else (false, st)
  end.

(** *** The [logs] object

    [logs[deviceId]] finds the bucket that [logs] has under the name, or
    else what its prototypes have: through the accessor [__proto__] the
    prototype itself, an array when it was made one; under another name
    a function, an object or a number, none of which can be sliced or
    spread; or nothing. *)
Inductive Found :=
| Bucket (entries : list LogEntry)
| Member
| Nothing.

Definition lookupLogs (st : State) (deviceId : string) : Found :=
  match logs (store st) !! deviceId with
  | Some bucket => Bucket bucket
  | None =>
      if bool_decide (deviceId = "__proto__") then
        match logsPrototype st with
        | ObjectPrototype => Member
        | ArrayPrototype entries => Bucket entries
        end
      else if inherits (logsPrototype st) deviceId then Member
      else Nothing
  end.

(** [logs[deviceId] = bucket] *)
Definition assignLogs (st : State) (deviceId : string)
    (bucket : list LogEntry) : State :=
  match logs (store st) !! deviceId with
  | None =>
      if bool_decide (deviceId = "__proto__")
      then {| store := store st; isInitialized := isInitialized st;
              persisted := persisted st;
              logsPrototype := ArrayPrototype bucket |}
      else withStore st
             (withLogs (store st) (<[deviceId := bucket]> (logs (store st))))
  | Some _ =>
      withStore st
        (withLogs (store st) (<[deviceId := bucket]> (logs (store st))))
  end.

(** [addDeviceLog]; [newId] and [now] are the entry's fresh id and
    timestamp.  [None] is the [TypeError] of [slice] on what is no
    array; nothing was assigned or saved by then. *)
Definition addDeviceLog (newId now : string) (deviceId : string)
    (act det : string) (ok : bool) (cat : Category) (st : State)
    : option LogEntry * State :=
  let deviceId := if isBlank deviceId then "system" else deviceId in
  let newLog := {| log_id := newId; timestamp := now; action := act;
                   details := det; success := ok; category := cat |} in
  match lookupLogs st deviceId with
  | Member => (None, st)
  | Bucket bucket =>
      (Some newLog,
       saveStore (assignLogs st deviceId (newLog :: take 199 bucket)))
  | Nothing =>
      let st := assignLogs st deviceId [] in
      (Some newLog,
       saveStore (assignLogs st deviceId (newLog :: take 199 [])))
  end.

(** [getDeviceLogs]; [None] is the [TypeError] of spreading what cannot
    be iterated. *)
Definition getDeviceLogs (deviceId : string) (st : State)
    : option (list LogEntry) :=
  let deviceId := if isBlank deviceId then "system" else deviceId in
  match lookupLogs st deviceId with
  | Bucket bucket => Some bucket
  | Member => None
  | Nothing => Some []
  end.


(** [getUsers] *)
Definition getUsers (st : State) : list User := users (store st).

(** [getDeviceUsers]: the users behind the ids of [authorizedUsers],
    an id that no user has being passed over ([filter(Boolean)]). *)
Definition getDeviceUsers (deviceId : string) (st : State) : list User :=
  match list_find (λ d, dev_id d = deviceId) (devices (store st)) with
  | None => []
  | Some (_, device) =>
      omap (λ userId,
              snd <$> list_find (λ u, user_id u = userId) (users (store st)))
           (authorizedUsers device)
  end.

(** [addDevice]: [{...device, id, authorizedUsers, createdAt, updatedAt}];
    whatever [device] carries under [id], [createdAt] and [updatedAt] is
    overwritten.  [newId] is the id drawn, [created] and [updated] the
    two readings of the clock. *)
Definition addDevice (newId created updated : string) (device : Device)
    (st : State) : Device * State :=
  let newDevice :=
    {| dev_id := newId; dev_name := dev_name device;
       unitNumber := unitNumber device; password := password device;
       authorizedUsers := authorizedUsers device;
       createdAt := created; updatedAt := updated;
       relaySettings := relaySettings device |} in
  (newDevice,
   saveStore (withStore st (withDevices (store st)
                              (devices (store st) ++ [newDevice])%list))).

(** [Partial<Device>]: [None] is a key that the update does not have. *)
Record DeviceUpdates := {
  up_id : option string;
  up_name : option string;
  up_unitNumber : option string;
  up_password : option string;
  up_authorizedUsers : option (list string);
  up_createdAt : option string;
  up_relaySettings : option RelaySettings
}.

(** [{...device, ...updates, updatedAt: now}] *)
Definition applyDeviceUpdates (device : Device) (updates : DeviceUpdates)
    (now : string) : Device :=
  {| dev_id := default (dev_id device) (up_id updates);
     dev_name := default (dev_name device) (up_name updates);
     unitNumber := default (unitNumber device) (up_unitNumber updates);
     password := default (password device) (up_password updates);
     authorizedUsers :=
       default (authorizedUsers device) (up_authorizedUsers updates);
     createdAt := default (createdAt device) (up_createdAt updates);
     updatedAt := now;
     relaySettings :=
       match up_relaySettings updates with
       | Some r => Some r
       | None => relaySettings device
       end |}.

(** [updateDevice]; [None] is [null]. *)
Definition updateDevice (now : string) (deviceId : string)
    (updates : DeviceUpdates) (st : State) : option Device * State :=
  match list_find (λ d, dev_id d = deviceId) (devices (store st)) with
  | None => (None, st)
  | Some (deviceIndex, device) =>
      let updated := applyDeviceUpdates device updates now in
      (Some updated,
       saveStore (withStore st
                    (withDevices (store st)
                       (<[deviceIndex := updated]> (devices (store st))))))
  end.

(** [addUser]: [{...user, id: generateUUID()}] *)
Definition addUser (newId : string) (user : User) (st : State)
    : User * State :=
  let newUser :=
    {| user_id := newId; user_name := user_name user;
       phoneNumber := phoneNumber user; serialNumber := serialNumber user;
       startTime := startTime user; endTime := endTime user |} in
  (newUser,
   saveStore (withStore st (withUsers (store st)
                              (users (store st) ++ [newUser])%list))).

(** [clearDeviceLogs]: whatever [logs[deviceId]] finds that is truthy
    is replaced by an empty bucket. *)
Definition clearDeviceLogs (deviceId : string) (st : State) : bool * State :=
  let deviceId := if isBlank deviceId then "system" else deviceId in
  match lookupLogs st deviceId with
  | Nothing => (false, st)
  | _ => (true, saveStore (assignLogs st deviceId []))
  end.

(** [Partial<GlobalSettings>] and [updateGlobalSettings]. *)
Record SettingsUpdates := {
  up_adminNumber : option string;
  up_activeDeviceId : option (option string);
  up_completedSteps : option (list string)
}.

Definition updateGlobalSettings (updates : SettingsUpdates) (st : State)
    : GlobalSettings * State :=
  let g := globalSettings (store st) in
  let g' :=
    {| adminNumber := default (adminNumber g) (up_adminNumber updates);
       activeDeviceId :=
         default (activeDeviceId g) (up_activeDeviceId updates);
       completedSteps :=
         default (completedSteps g) (up_completedSteps updates) |} in
  (g',
   saveStore (withStore st
                {| devices := devices (store st); users := users (store st);
                   logs := logs (store st); globalSettings := g' |})).

(** *** The legacy migration

    What [migrateLegacyData] reads under a legacy key: nothing (or the
    empty text), a value, or a failure ([getItem] rejects or [JSON.parse]
    throws), which sends the migration to its [catch] with the store as
    it is then. *)
Inductive Read (A : Type) := Absent | Value (a : A) | Fails.
#[global] Arguments Absent {A}.
#[global] Arguments Value {A} a.
#[global] Arguments Fails {A}.

(** [AuthorizedUser], the legacy user. *)
Record LegacyUser := {
  serial : string;
  phone : string;
  legacyStartTime : string;
  legacyEndTime : string
}.

Record LegacyKeys := {
  legacy_unitNumber : Read string;
  legacy_password : Read string;
  legacy_authorizedUsers : Read (list LegacyUser);
  legacy_app_logs : Read (list LogEntry);
  legacy_adminNumber : Read string;
  legacy_completedSteps : Read (list string)
}.

(** [value || undefined] *)
Definition orUndefined (value : string) : option string :=
  if bool_decide (value = "") then None else Some value.

(** The legacy users that have a phone number, as users of the store;
    [userIds k] is the id drawn for the legacy user at place [k]. *)
Definition migrateUsers (userIds : nat → string)
    (legacyUsers : list LegacyUser) : list User :=
  omap (λ '(k, legacyUser),
          if bool_decide (phone legacyUser = "") then None
          else Some {| user_id := userIds k;
                       user_name := "User " ++ serial legacyUser;
                       phoneNumber := phone legacyUser;
                       serialNumber := serial legacyUser;
                       startTime := orUndefined (legacyStartTime legacyUser);
                       endTime := orUndefined (legacyEndTime legacyUser) |})
       (imap pair legacyUsers).

(** The default device of the migration, with the users authorised so
    far; [password || '1234']. *)
Definition defaultDevice (deviceId created updated unit : string)
    (pwd : Read string) (authorized : list string) : Device :=
  {| dev_id := deviceId; dev_name := "My Gate Opener";
     unitNumber := unit;
     password :=
       match pwd with
       | Value p => if bool_decide (p = "") then "1234" else p
       | _ => "1234"
       end;
     authorizedUsers := authorized;
     createdAt := created; updatedAt := updated;
     relaySettings := None |}.

(** The steps of the migration that follow the push of the default
    device, each on the store as the step before left it; [None] is a
    throw.  [device] is the default device given its authorised users:
    it is the last device of the store and is filled in place. *)
Definition migrateLegacyUsers (userIds : nat → string)
    (device : list string → Device) (read : Read (list LegacyUser))
    (s : AppData) : option AppData :=
  match read with
  | Fails => None
  | Absent => Some s
  | Value legacyUsers =>
      let newUsers := migrateUsers userIds legacyUsers in
      let before := take (length (devices s) - 1) (devices s) in
      Some (withDevices (withUsers s (users s ++ newUsers)%list)
              (before ++ [device (user_id <$> newUsers)])%list)
  end.

Definition migrateLegacyLogs (deviceId : string)
    (read : Read (list LogEntry)) (s : AppData) : option AppData :=
  match read with
  | Fails => None
  | Absent => Some s
  | Value legacyLogs =>
      Some (withLogs s (<[deviceId := legacyLogs]> (logs s)))
  end.

Definition migrateAdminNumber (read : Read string) (s : AppData)
    : option AppData :=
  match read with
  | Fails => None
  | Absent => Some s
  | Value a =>
      if bool_decide (a = "") then Some s
      else
        Some {| devices := devices s; users := users s; logs := logs s;
                globalSettings :=
                  {| adminNumber := a;
                     activeDeviceId := activeDeviceId (globalSettings s);
                     completedSteps := completedSteps (globalSettings s) |}
             |}
  end.

Definition migrateCompletedSteps (read : Read (list string)) (s : AppData)
    : option AppData :=
  match read with
  | Fails => None
  | Absent => Some s
  | Value steps =>
      Some {| devices := devices s; users := users s; logs := logs s;
              globalSettings :=
                {| adminNumber := adminNumber (globalSettings s);
                   activeDeviceId := activeDeviceId (globalSettings s);
                   completedSteps := steps |} |}
  end.

(** The steps in turn: the store they leave, and whether the last one
    was reached.  A read that fails sends the migration to its [catch]
    with the store as the steps before left it. *)
Definition migrateLegacyKeys (deviceId : string) (userIds : nat → string)
    (device : list string → Device) (legacy : LegacyKeys) (s1 : AppData)
    : AppData * bool :=
  match migrateLegacyUsers userIds device
          (legacy_authorizedUsers legacy) s1 with
  | None => (s1, false)
  | Some s2 =>
      match migrateLegacyLogs deviceId (legacy_app_logs legacy) s2 with
      | None => (s2, false)
      | Some s3 =>
          match migrateAdminNumber (legacy_adminNumber legacy) s3 with
          | None => (s3, false)
          | Some s4 =>
              match migrateCompletedSteps
                      (legacy_completedSteps legacy) s4 with
              | None => (s4, false)
              | Some s5 => (s5, true)
              end
          end
      end
  end.

(** [migrateLegacyData]: the store is saved at the very end only. *)
Definition migrateLegacyData (deviceId created updated : string)
    (userIds : nat → string) (legacy : LegacyKeys) (st : State) : State :=
  match legacy_unitNumber legacy, legacy_password legacy with
  | Fails, _ | _, Fails => st
  | Absent, _ => st
  | Value unit, pwd =>
      if bool_decide (unit = "") then st
      else
        let device := defaultDevice deviceId created updated unit pwd in
        let s1 :=
          withActiveDevice
            (withDevices (store st) (devices (store st) ++ [device []])%list)
            (Some deviceId) in
        let '(s, finished) :=
          migrateLegacyKeys deviceId userIds device legacy s1 in
        if finished then saveStore (withStore st s) else withStore st s
  end.

End Operations.

End DataStore.

(* ===================================================================== *)
(** ** Backup restore ([restoreFromBackup] of [utils/backupRestore.ts]) *)
(* ===================================================================== *)

Module BackupRestore.
Import JSString.

(** A parsed [app_data] document.  It comes out of [JSON.parse], so the
    fields the code tests before it uses them may be missing. *)
Record AppDataJson := {
  doc_devices : option (list DataStore.Device);
  doc_users : option (list DataStore.User);
  doc_logs : option (gmap string (list DataStore.LogEntry));
  doc_globalSettings : option DataStore.GlobalSettings
}.

(** The values of the backup payload, as far as the restore tells them
    apart.  An object stored under [app_data] is read through
    [AppDataJson]; any other array or object is never looked into. *)
Inductive Value :=
| VNull
| VBool (b : bool)
| VNumber (n : Z)
| VString (s : string)
| VAppData (doc : AppDataJson)
| VLogs (buckets : gmap string (list DataStore.LogEntry))
| VObject (json : string).

Definition truthy (v : Value) : bool :=
  match v with
  | VNull => false
  | VBool b => b
  | VNumber n => negb (n =? 0)%Z
  | VString s => negb (bool_decide (s = ""))
  | VAppData _ | VLogs _ | VObject _ => true
  end.

(** [obj[key]] on the payload object; [obj[key] = v] keeps the place of
    a key that is there already. *)
Fixpoint getProp {A} (obj : list (string * A)) (key : string) : option A :=
  match obj with
  | [] => None
  | (k, v) :: rest => if bool_decide (k = key) then Some v else getProp rest key
  end.

Fixpoint setProp {A} (obj : list (string * A)) (key : string) (v : A)
    : list (string * A) :=
  match obj with
  | [] => [(key, v)]
  | (k, w) :: rest =>
      if bool_decide (k = key) then (k, v) :: rest
      else (k, w) :: setProp rest key v
  end.

Definition truthyProp (obj : list (string * Value)) (key : string) : bool :=
  match getProp obj key with
  | Some v => truthy v
  | None => false
  end.

Section Restore.

(** The names under which an object finds a truthy member in its
    prototype, [__proto__] apart, as in [DataStore]. *)
Variable inherits : DataStore.Prototype → string → bool.

(** [Object.entries] of a [logs] object: its buckets in the order of
    enumeration, which the map does not record (the names that are
    array indices first, in ascending order, then the other names in
    the order of the JSON text). *)
Variable Object_entries :
  gmap string (list DataStore.LogEntry)
  → list (string * list DataStore.LogEntry).

(** [Object.entries] lists the buckets of the object, each once. *)
Definition enumerates : Prop :=
  ∀ logs, Object_entries logs ≡ₚ map_to_list logs.

(** *** The merge of [app_data] (the block under "Handle conflicts") *)

Definition withDevices (doc : AppDataJson) (ds : list DataStore.Device)
    : AppDataJson :=
  {| doc_devices := Some ds; doc_users := doc_users doc;
     doc_logs := doc_logs doc;
     doc_globalSettings := doc_globalSettings doc |}.

Definition withLogs (doc : AppDataJson)
    (l : gmap string (list DataStore.LogEntry)) : AppDataJson :=
  {| doc_devices := doc_devices doc; doc_users := doc_users doc;
     doc_logs := Some l;
     doc_globalSettings := doc_globalSettings doc |}.

(** The device loop: backup devices whose id the destination does not
    have are pushed behind the destination's. *)
Definition mergeDevices (existing backup : list DataStore.Device)
    : list DataStore.Device :=
  let existingDeviceIds : gset string :=
    list_to_set (DataStore.dev_id <$> existing) in
  (existing
     ++ filter (λ d, DataStore.dev_id d ∉ existingDeviceIds) backup)%list.

(** [backupAppData.logs[deviceId]]: the backup's [logs] object comes out
    of [JSON.parse], so its prototype is [Object.prototype]; under a
    name it has no bucket for it finds what it inherits. *)
Definition lookupBucket
    (backupLogs : gmap string (list DataStore.LogEntry))
    (deviceId : string) : DataStore.Found :=
  match backupLogs !! deviceId with
  | Some bucket => DataStore.Bucket bucket
  | None =>
      if bool_decide (deviceId = "__proto__")
         || inherits DataStore.ObjectPrototype deviceId
      then DataStore.Member
      else DataStore.Nothing
  end.

(** One turn of the log loop, on the backup's [logs] object.  [None] is
    the [TypeError] of [filter] on what is no array. *)
Definition mergeBucket (deviceId : string)
    (logEntries : list DataStore.LogEntry)
    (backupLogs : gmap string (list DataStore.LogEntry))
    : option (gmap string (list DataStore.LogEntry)) :=
  match lookupBucket backupLogs deviceId with
  | DataStore.Nothing => Some (<[deviceId := logEntries]> backupLogs)
  | DataStore.Bucket bucket =>
      let existingLogIds : gset string :=
        list_to_set (DataStore.log_id <$> logEntries) in
      let newLogs :=
        filter (λ e, DataStore.log_id e ∉ existingLogIds) bucket in
      Some (<[deviceId := (newLogs ++ logEntries)%list]> backupLogs)
  | DataStore.Member => None
  end.

(** The log loop.  It changes the backup's [logs] object in place: when
    a turn throws, the [catch] of the block goes on with the object as
    the turns before left it. *)
Fixpoint mergeEntries
    (entries : list (string * list DataStore.LogEntry))
    (backupLogs : gmap string (list DataStore.LogEntry))
    : gmap string (list DataStore.LogEntry) :=
  match entries with
  | [] => backupLogs
  | (deviceId, logEntries) :: rest =>
      match mergeBucket deviceId logEntries backupLogs with
      | Some backupLogs => mergeEntries rest backupLogs
      | None => backupLogs
      end
  end.

Definition mergeLogs
    (existing backup : gmap string (list DataStore.LogEntry))
    : gmap string (list DataStore.LogEntry) :=
  mergeEntries (Object_entries existing) backup.

(** A bucket of the union of the logs by log-entry id, in the words
    of the specification: the entries of both sides, an id once, the
    destination's entry kept when both sides have the id.  It is what
    [mergeLogs] is compared with. *)
Definition unionById
    (existingBucket backupBucket : option (list DataStore.LogEntry))
    : option (list DataStore.LogEntry) :=
  match existingBucket, backupBucket with
  | Some logEntries, Some bucket =>
      Some (filter (λ e, DataStore.log_id e
                         ∉ DataStore.log_id <$> logEntries) bucket
            ++ logEntries)%list
  | Some logEntries, None => Some logEntries
  | None, bucket => bucket
  end.

(** The whole block: the backup document as the block leaves it.  When
    the backup has no [logs] object, the first turn of the log loop
    throws; the [catch] goes on with the document as it is then, its
    device list merged already. *)
Definition mergeAppData (existing backup : AppDataJson) : AppDataJson :=
  match doc_devices backup, doc_devices existing with
  | Some backupDevices, Some existingDevices =>
      let backup :=
        withDevices backup (mergeDevices existingDevices backupDevices) in
      match doc_logs existing with
      | Some existingLogs =>
          match doc_logs backup with
          | Some backupLogs =>
              withLogs backup (mergeLogs existingLogs backupLogs)
          | None => backup
          end
      | None => backup
      end
  | _, _ => backup
  end.

(** *** The log cache

    [cachedLogs] holds references into the payload: the value of a key,
    or the [logs] object of the value of a key.  The merge changes the
    [app_data] document in place, so a reference is followed when the
    cache is written back, not when it is taken. *)
Inductive Cached := WholeValue (key : string) | LogsOf (key : string).

Definition hasLogs (v : Value) : bool :=
  match v with
  | VAppData doc => bool_decide (is_Some (doc_logs doc))
  | _ => false
  end.

Definition cacheLogs (dataToStore : list (string * Value))
    : list (string * Cached) :=
  foldl
    (λ cachedLogs '(key, value),
       if includes key "logs" || bool_decide (key = "app_data") then
         if bool_decide (key = "app_data") && hasLogs value
         then setProp cachedLogs "app_logs" (LogsOf key)
         else setProp cachedLogs key (WholeValue key)
       else cachedLogs)
    [] dataToStore.

Definition deref (dataToStore : list (string * Value)) (c : Cached)
    : Value :=
  match c with
  | WholeValue key => default VNull (getProp dataToStore key)
  | LogsOf key =>
      match getProp dataToStore key with
      | Some (VAppData doc) => from_option VLogs VNull (doc_logs doc)
      | _ => VNull
      end
  end.

(** *** [AsyncStorage]

    The texts under the keys, and the trace of the [setItem] calls that
    went through. *)
Record Storage := {
  cells : gmap string string;
  setLog : list (string * string)
}.

Record Faults := {
  getItemFails : string → bool;
  getAllKeysFails : bool;
  multiRemoveFails : bool;
  setItemFails : string → string → bool
}.

Definition setItem (io : Faults) (key text : string) (st : Storage)
    : option Storage :=
  if setItemFails io key text then None
  else Some {| cells := <[key := text]> (cells st);
               setLog := (setLog st ++ [(key, text)])%list |}.

(** A storage with its counter of successful writes, as the two save
    loops thread them: the counter counts the [setItem] calls that
    went through since the trace was [base]. *)
Definition counted (base : list (string * string))
    (acc : Storage * nat) : Prop :=
  ∃ writes,
    setLog (fst acc) = (base ++ writes)%list
    ∧ length writes = snd acc.

Inductive Failure := EmptyBackup | InvalidBackup | NothingRestored.

Inductive Result := Returned (ok : bool) | Threw (why : Failure).

(** [JSON.stringify] and [JSON.parse] ([None]: it throws). *)
Variable JSON_stringify : Value → string.
Variable JSON_parse : string → option Value.

(** From the trimming of the content to the choice of [dataToStore]
    (locating the braces, the three parsing tiers, the payload
    shape), read as the entries of [dataToStore]; [None] when no tier
    parses, the format is unsupported or [dataToStore] has no
    entries to enumerate ([null]).  These steps rest on the
    platform's JSON parser and regular expressions. *)
Variable parseBackup : string → option (list (string * Value)).

(** [typeof value === 'string' ? value : JSON.stringify(value)] *)
Definition toText (v : Value) : string :=
  match v with
  | VString s => s
  | _ => JSON_stringify v
  end.

(** "Cache existing app_data before clearing if it exists" *)
Definition readExisting (io : Faults) (st : Storage) : option Value :=
  if getItemFails io "app_data" then None
  else
    match cells st !! "app_data" with
    | Some appDataString =>
        if bool_decide (appDataString = "") then None
        else JSON_parse appDataString
    | None => None
    end.

(** "Handle conflicts" *)
Definition resolveConflicts (existingAppData : option Value)
    (dataToStore : list (string * Value)) : list (string * Value) :=
  match getProp dataToStore "app_data", existingAppData with
  | Some backupAppData, Some existing =>
      if truthy backupAppData && truthy existing then
        match backupAppData, existing with
        | VAppData backupDoc, VAppData existingDoc =>
            setProp dataToStore "app_data"
              (VAppData (mergeAppData existingDoc backupDoc))
        | _, _ => dataToStore
        end
      else dataToStore
  | _, _ => dataToStore
  end.

(** "Clear existing data": every key goes, but [app_data] when it was
    merged. *)
Definition clearExisting (io : Faults) (keepAppData : bool)
    (st : Storage) : Storage :=
  if getAllKeysFails io then st
  else
    let keysToRemove : gset string :=
      filter (λ key, ¬ (key = "app_data" ∧ keepAppData = true))
             (dom (cells st)) in
    if bool_decide (keysToRemove = ∅) then st
    else if multiRemoveFails io then st
    else {| cells := filter (λ kv, kv.1 ∉ keysToRemove) (cells st);
            setLog := setLog st |}.

(** "Save each item" *)
Definition saveItem (io : Faults) (acc : Storage * nat)
    (entry : string * Value) : Storage * nat :=
  let '(st, successCount) := acc in
  let '(key, value) := entry in
  match value with
  | VNull => acc
  | _ =>
      match setItem io key (toText value) st with
      | Some st' => (st', S successCount)
      | None => acc
      end
  end.

(** "Now restore logs from our cache"; a rejected write leaves the
    loop. *)
Fixpoint restoreCached (io : Faults) (dataToStore : list (string * Value))
    (cachedLogs : list (string * Cached)) (acc : Storage * nat)
    : Storage * nat :=
  match cachedLogs with
  | [] => acc
  | (logKey, logValue) :: rest =>
      if truthyProp dataToStore logKey
      then restoreCached io dataToStore rest acc
      else
        match setItem io logKey (toText (deref dataToStore logValue))
                      (fst acc) with
        | Some st' => restoreCached io dataToStore rest (st', S (snd acc))
        | None => acc
        end
  end.

(** What [migrateLegacyData] of [DataStore] hands to [saveStore] when
    the storage has a unit number under the legacy keys: the text of
    the store in memory, to which the migration has added the default
    device and what the legacy keys hold.  It hangs on the store in
    memory, the clock and the ids drawn, of which the restore knows
    nothing.  [None] when the migration throws before it saves (a read
    is rejected, or a legacy text does not parse). *)
Variable migratedDocument : Faults → Storage → option string.

(** [DataStore.forceReinitialization], as far as the storage goes:
    [initialize] reads [app_data] and, finding no text, has
    [migrateLegacyData] read the legacy keys; with a unit number there,
    the migrated store is saved under [app_data].  Every error is
    caught on the way. *)
Definition forceReinitialization (io : Faults) (st : Storage) : Storage :=
  if getItemFails io "app_data" then st
  else
    match cells st !! "app_data" with
    | Some (String _ _) => st
    | _ =>
        if getItemFails io "unitNumber" || getItemFails io "password"
        then st
        else
          match cells st !! "unitNumber" with
          | Some (String _ _) =>
              match migratedDocument io st with
              | Some text => default st (setItem io "app_data" text st)
              | None => st
              end
          | _ => st
          end
    end.

(** [restoreFromBackup]: what it returns or throws, and the storage
    it leaves.  The reinitialisation of the store that follows a
    successful restore cannot fail the restore. *)
Definition restoreFromBackup (io : Faults) (backupJson : string)
    (st : Storage) : Result * Storage :=
  if bool_decide (backupJson = "") then (Threw EmptyBackup, st)
  else
    match parseBackup backupJson with
    | None => (Threw InvalidBackup, st)
    | Some dataToStore =>
        let existingAppData := readExisting io st in
        let cachedLogs := cacheLogs dataToStore in
        let dataToStore := resolveConflicts existingAppData dataToStore in
        let keepAppData :=
          truthyProp dataToStore "app_data"
          && from_option truthy false existingAppData in
        let st := clearExisting io keepAppData st in
        let acc := foldl (saveItem io) (st, 0) dataToStore in
        let '(st, successCount) :=
          restoreCached io dataToStore cachedLogs acc in
        if (successCount =? 0)%nat then (Threw NothingRestored, st)
        else (Returned true, forceReinitialization io st)
    end.

End Restore.

End BackupRestore.

(* ===================================================================== *)
(** ** The screens that build the commands *)
(* ===================================================================== *)

Module Screens.
Import JSString.

(** [turnRelayOn], [turnRelayOff] and [checkStatus] of [HomePage]. *)
Definition turnRelayOn (password : string) : string := password ++ "CC".

Definition turnRelayOff (password : string) : string := password ++ "DD".

Definition checkStatus (password : string) : string := password ++ "EE".

(** [validatePasswords] of [Step2Page]. *)
Definition validatePasswords (newPassword confirmPassword : string) : bool :=
  if bool_decide (newPassword = "") then false
  else if negb (bool_decide (newPassword = confirmPassword)) then false
  else if negb (jsLength newPassword =? 4)%nat
          || negb (negb (bool_decide (newPassword = ""))
                   && allDigits newPassword)
  then false
  else true.

(** [sendPasswordChangeCommand] of [Step2Page]: the command. *)
Definition passwordChangeCommand (currentPassword newPassword : string)
    : string :=
  currentPassword ++ "P" ++ newPassword ++ newPassword ++ "#".

(** [setAccessControl] of [Step4Page]: the command. *)
Definition accessControlCommand (password : string)
    (type : DataStore.AccessControl) : string :=
  match type with
  | DataStore.ALL => password ++ "ALL#"
  | DataStore.AUT => password ++ "AUT#"
  end.

(** [handleLatchTimeChange] of [Step4Page]: the latch time kept in the
    state for a text typed, [text.replace(/[^0-9]/g, '').slice(0, 3)]. *)
Definition handleLatchTimeChange (text : string) : string :=
  sliceTo 3 (stripNonDigits text).

(** [setLatchTime] of [Step4Page]: the command for the latch time of
    the state. *)
Definition latchTimeCommand (password latchTime : string) : string :=
  password ++ "GOT" ++ padStart 3 "0" latchTime ++ "#".

(** [generateNextSerial] of [Step3Page]: the value it gives to
    [newUserSerial], [None] when it leaves the field as it is.  The
    [while] loop runs at most 200 times. *)
Definition usedSerials (users : list DataStore.User) : list Z :=
  omap (λ user,
          if bool_decide (DataStore.serialNumber user = "") then None
          else parseInt (DataStore.serialNumber user))
       users.

Fixpoint nextFreeSerial (turns : nat) (used : list Z) (nextSerial : nat)
    : nat :=
  match turns with
  | O => nextSerial
  | S turns' =>
      if bool_decide (Z.of_nat nextSerial ∈ used) && (nextSerial <=? 200)%nat
      then nextFreeSerial turns' used (S nextSerial)
      else nextSerial
  end.

Definition generateNextSerial (newUserSerial : string)
    (users : list DataStore.User) : option string :=
  if negb (bool_decide (newUserSerial = "")) then None
  else
    match users with
    | [] => Some "001"
    | _ =>
        let nextSerial := nextFreeSerial 200 (usedSerials users) 1 in
        if (nextSerial <=? 200)%nat
        then Some (padStart 3 "0" (numberToString nextSerial))
        else None
    end.

End Screens.

(* ===================================================================== *)
(** ** Sample data *)
(* ===================================================================== *)

(** Stores, documents and a storage to run the operations on. *)
Module Samples.
Import DataStore.

Definition device (ident label : string) : Device :=
  {| dev_id := ident; dev_name := label; unitNumber := "0400000000";
     password := "1234"; authorizedUsers := []; createdAt := "";
     updatedAt := ""; relaySettings := None |}.

Definition logEntry (ident : string) : LogEntry :=
  {| log_id := ident; timestamp := ""; action := "Gate Open";
     details := "Opened gate/activated relay (ON)"; success := true;
     category := relay |}.

Definition stateOf (s : AppData) : State :=
  {| store := s; isInitialized := true; persisted := None;
     logsPrototype := ObjectPrototype |}.

Definition emptyState : State := stateOf initialState.


(** No device, and an active device id left behind. *)
Definition danglingState : State :=
  stateOf (withActiveDevice initialState (Some "ghost")).

(** One device that authorises one user. *)
Definition gateState : State :=
  stateOf
    (withDevices initialState
       [withAuthorizedUsers (device "gate" "Front gate") ["alice"]]).

Definition noStoreFaults : AppData → bool := λ _, false.
Definition noLoad : State → State := λ st, st.

(** The names of the members of [Object.prototype], [__proto__] apart,
    for every prototype. *)
Definition objectPrototype : Prototype → string → bool :=
  λ _ name,
    bool_decide
      (name ∈ ["constructor"; "hasOwnProperty"; "isPrototypeOf";
               "propertyIsEnumerable"; "toLocaleString"; "toString";
               "valueOf"; "__defineGetter__"; "__defineSetter__";
               "__lookupGetter__"; "__lookupSetter__"]).




(** The devices of the restore example: [A] at the destination, [A']
    (the same id under another name) and [B] in the backup. *)
Definition deviceA : Device := device "dev-A" "Front gate".
Definition deviceA' : Device := device "dev-A" "Renamed gate".
Definition deviceB : Device := device "dev-B" "Side gate".

Definition document (ds : option (list Device))
    (l : option (gmap string (list LogEntry)))
    : BackupRestore.AppDataJson :=
  {| BackupRestore.doc_devices := ds;
     BackupRestore.doc_users := Some [];
     BackupRestore.doc_logs := l;
     BackupRestore.doc_globalSettings := None |}.

Definition destinationDoc : BackupRestore.AppDataJson :=
  document (Some [deviceA]) (Some {[ "dev-A" := [logEntry "e1"] ]}).

Definition backupDoc : BackupRestore.AppDataJson :=
  document (Some [deviceA'; deviceB])
    (Some {[ "dev-A" := [logEntry "e1"; logEntry "e2"];
             "dev-B" := [logEntry "e3"] ]}).

(** A backup whose [app_data] has no device list. *)
Definition backupWithoutDevices : BackupRestore.AppDataJson :=
  document None (Some ∅).

(** A stand-in for [JSON.stringify] that shows the names of the
    devices of a document, and one for [JSON.parse] that knows one
    text, the destination's document. *)
Definition showValue (v : BackupRestore.Value) : string :=
  match v with
  | BackupRestore.VAppData doc =>
      match BackupRestore.doc_devices doc with
      | Some ds => "devices:" ++ String.concat "," (dev_name <$> ds)
      | None => "no devices"
      end
  | BackupRestore.VString s => s
  | _ => "value"
  end.

Definition readValue (text : string) : option BackupRestore.Value :=
  if bool_decide (text = "destination")
  then Some (BackupRestore.VAppData destinationDoc)
  else None.

Definition destinationStorage : BackupRestore.Storage :=
  {| BackupRestore.cells := {[ "app_data" := "destination" ]};
     BackupRestore.setLog := [] |}.

Definition noFaults : BackupRestore.Faults :=
  {| BackupRestore.getItemFails := λ _, false;
     BackupRestore.getAllKeysFails := false;
     BackupRestore.multiRemoveFails := false;
     BackupRestore.setItemFails := λ _ _, false |}.

Definition payloadOf (doc : BackupRestore.AppDataJson) (_ : string)
    : option (list (string * BackupRestore.Value)) :=
  Some [("app_data", BackupRestore.VAppData doc)].

(** [Object.entries] in the order in which the map lists its buckets. *)
Definition entriesOf (l : gmap string (list LogEntry))
    : list (string * list LogEntry) :=
  map_to_list l.

(** A store in memory whose migration throws before it saves. *)
Definition noMigration
    : BackupRestore.Faults → BackupRestore.Storage → option string :=
  λ _ _, None.

End Samples.

(** More data to run the operations on. *)
Module Cases.
Import DataStore.

Definition visitor : User :=
  {| user_id := ""; user_name := "Visitor"; phoneNumber := "+61412345678";
     serialNumber := "001"; startTime := None; endTime := None |}.

(** Two users, at the positions 1 and 2. *)
Definition residents : list User :=
  [ {| user_id := "u1"; user_name := "First"; phoneNumber := "0411111111";
       serialNumber := "001"; startTime := None; endTime := None |};
    {| user_id := "u2"; user_name := "Second"; phoneNumber := "0422222222";
       serialNumber := "002"; startTime := None; endTime := None |} ].

(** A user whose serial has two no-break spaces (U+00A0, the bytes 194
    and 160) in front of [001]. *)
Definition padded : User :=
  {| user_id := "u3"; user_name := "Third"; phoneNumber := "0433333333";
     serialNumber :=
       String (ascii_of_nat 194)
         (String (ascii_of_nat 160)
            (String (ascii_of_nat 194) (String (ascii_of_nat 160) "001")));
     startTime := None; endTime := None |}.

(** The legacy keys of an installation with one user that has a phone
    number and one that has none. *)
Definition legacyKeys : LegacyKeys :=
  {| legacy_unitNumber := Value "0400000000";
     legacy_password := Absent;
     legacy_authorizedUsers :=
       Value [ {| serial := "001"; phone := "0411111111";
                  legacyStartTime := ""; legacyEndTime := "" |};
               {| serial := "002"; phone := "";
                  legacyStartTime := ""; legacyEndTime := "" |} ];
     legacy_app_logs := Value [Samples.logEntry "old"];
     legacy_adminNumber := Value "0061400000000";
     legacy_completedSteps := Absent |}.

Definition legacyUserIds (place : nat) : string :=
  if (place =? 0)%nat then "user-0" else "user-n".

(** A storage that rejects every write, and a place that holds a
    legacy key and no [app_data]. *)
Definition rejectingWrites : BackupRestore.Faults :=
  {| BackupRestore.getItemFails := λ _, false;
     BackupRestore.getAllKeysFails := false;
     BackupRestore.multiRemoveFails := false;
     BackupRestore.setItemFails := λ _ _, true |}.

Definition legacyStorage : BackupRestore.Storage :=
  {| BackupRestore.cells := {[ "unitNumber" := "0400000000" ]};
     BackupRestore.setLog := [] |}.

(** A backup of the legacy keys: a unit number and no [app_data]. *)
Definition legacyPayload (_ : string)
    : option (list (string * BackupRestore.Value)) :=
  Some [("unitNumber", BackupRestore.VString "0400000000")].

(** A store in memory whose migration saves the text [migrated]. *)
Definition migrates
    : BackupRestore.Faults → BackupRestore.Storage → option string :=
  λ _ _, Some "migrated".

(** The buckets of a destination, one of them under a name that a
    [logs] object inherits a member for, and those of a backup. *)
Definition destinationLogs : gmap string (list LogEntry) :=
  {[ "dev-A" := [Samples.logEntry "e1"];
     "hasOwnProperty" := [Samples.logEntry "e4"] ]}.

Definition backupLogs : gmap string (list LogEntry) :=
  {[ "dev-A" := [Samples.logEntry "e1"; Samples.logEntry "e2"];
     "dev-B" := [Samples.logEntry "e3"] ]}.

End Cases.

(* ===================================================================== *)
(** * Properties *)
(* ===================================================================== *)

(** ** Strings *)

Section StringFacts.
Import JSString.

Lemma prefix_split (n s : string) :
  String.prefix n s = true → ∃ rest, s = n ++ rest.
Proof.
  revert s; induction n as [|a n IH]; intros s H.
  - exists s; reflexivity.
  - destruct s as [|b s]; simpl in H; [discriminate|].
    destruct (ascii_dec a b) as [->|]; [|discriminate].
    destruct (IH _ H) as [rest ->]. exists rest; reflexivity.
Qed.

Lemma prefix_app (n rest : string) : String.prefix n (n ++ rest) = true.
Proof.
  induction n as [|a n IH]; simpl; [by destruct rest|].
  destruct (ascii_dec a a); [exact IH|congruence].
Qed.

Lemma append_cons (a : ascii) (s t : string) :
  String a s ++ t = String a (s ++ t).
Proof. reflexivity. Qed.

Lemma append_nil (t : string) : "" ++ t = t.
Proof. reflexivity. Qed.

Lemma prefix_nil (s : string) : String.prefix "" s = true.
Proof. by destruct s. Qed.

Lemma prefix_cons (a b : ascii) (n s : string) :
  String.prefix (String a n) (String b s)
  = if Ascii.eqb a b then String.prefix n s else false.
Proof.
  simpl. destruct (ascii_dec a b) as [->|Hne].
  - by rewrite Ascii.eqb_refl.
  - by apply Ascii.eqb_neq in Hne as ->.
Qed.

Lemma prefix_length (n s : string) :
  String.prefix n s = true → (String.length n ≤ String.length s)%nat.
Proof.
  intros [rest ->]%prefix_split.
  induction n; simpl; lia.
Qed.

Lemma includes_split (s n : string) :
  includes s n = true → ∃ before after, s = before ++ n ++ after.
Proof.
  induction s as [|c s IH]; intros H; cbn [includes] in H.
  - destruct n; [by exists "", ""|discriminate].
  - apply orb_prop in H as [H|H].
    + apply prefix_split in H as [rest ->]. by exists "", rest.
    + destruct (IH H) as (before & after & ->).
      by exists (String c before), after.
Qed.

Lemma includes_here (n rest : string) : includes (n ++ rest) n = true.
Proof.
  destruct (n ++ rest) eqn:E; cbn [includes]; rewrite <- E, prefix_app; done.
Qed.

Lemma includes_refl (s : string) : includes s s = true.
Proof.
  assert (H : String.prefix s s = true).
  { induction s as [|c s IH]; [done|].
    by rewrite prefix_cons, Ascii.eqb_refl. }
  destruct s; cbn [includes]; by rewrite H.
Qed.

Lemma includes_skip (before s n : string) :
  includes s n = true → includes (before ++ s) n = true.
Proof.
  intros H. induction before as [|c before IH]; [done|].
  change (String c before ++ s) with (String c (before ++ s)).
  cbn [includes]. rewrite IH. apply orb_true_r.
Qed.

Lemma includes_short (s n : string) :
  (String.length s < String.length n)%nat → includes s n = false.
Proof.
  induction s as [|c s IH]; intros Hlen; cbn [includes].
  - destruct n; simpl in *; [lia|done].
  - apply orb_false_intro.
    + destruct (String.prefix n (String c s)) eqn:E; [|done].
      apply prefix_length in E; simpl in *; lia.
    + apply IH; simpl in Hlen; lia.
Qed.

Lemma occurs_app (c : ascii) (a b : string) :
  occurs c (a ++ b) = occurs c a || occurs c b.
Proof.
  induction a as [|x a IH]; simpl; [done|].
  by rewrite IH, orb_assoc.
Qed.

(** A substring brings all its characters. *)
Lemma includes_occurs (s n : string) (c : ascii) :
  includes s n = true → occurs c n = true → occurs c s = true.
Proof.
  intros (before & after & ->)%includes_split Hc.
  rewrite !occurs_app, Hc. by rewrite orb_true_r.
Qed.

Lemma excludes (s n : string) (c : ascii) :
  occurs c n = true → occurs c s = false → includes s n = false.
Proof.
  intros Hn Hs. destruct (includes s n) eqn:E; [|done].
  by rewrite (includes_occurs _ _ _ E Hn) in Hs.
Qed.

Lemma occurs_allDigits (c : ascii) (s : string) :
  allDigits s = true → is_digit c = false → occurs c s = false.
Proof.
  intros Hs Hc. induction s as [|x s IH]; simpl in *; [done|].
  apply andb_prop in Hs as [Hx Hs]. rewrite (IH Hs), orb_false_r.
  destruct (Ascii.eqb_spec c x) as [->|]; [congruence|done].
Qed.

(** [\d{n}] reads a string of [n] digits whole. *)
Lemma digits_app (n : nat) (d rest : string) :
  String.length d = n → allDigits d = true →
  digits n (d ++ rest) = Some (d, rest).
Proof.
  revert d; induction n as [|n IH]; intros [|c d] Hlen Hd;
    simpl in *; try done.
  apply andb_prop in Hd as [-> Hd].
  by rewrite IH; [|lia|].
Qed.

Lemma search_here {A} (at_ : string → option A) (s : string) (r : A) :
  at_ s = Some r → search at_ s = Some r.
Proof. intros H. destruct s; simpl; by rewrite H. Qed.

(** A text without digits, followed by fewer digits than the needle
    has, does not contain a needle that starts with a digit. *)
Lemma includes_digits_behind_text (text tail : string) (d : ascii)
    (n : string) :
  hasDigit text = false → is_digit d = true →
  (String.length tail < String.length (String d n))%nat →
  includes (text ++ tail) (String d n) = false.
Proof.
  intros Htext Hd Hlen. induction text as [|c text IH].
  - by apply includes_short.
  - simpl in Htext. apply orb_false_elim in Htext as [Hc Htext].
    change (includes (String c text ++ tail) (String d n))
      with (String.prefix (String d n) (String c (text ++ tail))
            || includes (text ++ tail) (String d n)).
    rewrite (IH Htext), orb_false_r. simpl.
    destruct (ascii_dec d c) as [->|]; [congruence|done].
Qed.

Lemma isPassword_inv (p : string) :
  isPassword p = true → String.length p = 4 ∧ allDigits p = true.
Proof.
  unfold isPassword. intros [H1%Nat.eqb_eq H2]%andb_prop. done.
Qed.

Lemma isSerial_inv (s : string) :
  isSerial s = true → String.length s = 3 ∧ allDigits s = true.
Proof.
  unfold isSerial. intros [H1%Nat.eqb_eq H2]%andb_prop. done.
Qed.

End StringFacts.

(** ** Admin-number formatting *)

Section AdminNumberFacts.
Import JSString AdminNumber.

(** Decide the [startsWith] tests of a number given by its first
    characters. *)
Ltac prefix_cases :=
  repeat (rewrite ?prefix_cons, ?prefix_nil; cbn [negb andb append];
          try match goal with
              | |- context [Ascii.eqb ?a ?b] =>
                  destruct (Ascii.eqb_spec a b); subst
              end;
          try done).

(** [app/setup.tsx] formats the number as the specification words it. *)
Lemma formatAdminNumber_setup_spec (adminNumber : string) :
  formatAdminNumber_setup adminNumber = normalize_spec adminNumber.
Proof.
  unfold formatAdminNumber_setup, normalize_spec, startsWith, substring1.
  destruct (stripNonDigits adminNumber) as [|a [|b rest]]; prefix_cases.
Qed.

(** [Step1Page] agrees with it on every number whose digits do not
    start with [00] ... *)
Lemma formatAdminNumber_spec (adminNumber : string) :
  startsWith (stripNonDigits adminNumber) "00" = false →
  formatAdminNumber adminNumber = normalize_spec adminNumber.
Proof.
  unfold formatAdminNumber, normalize_spec, startsWith, substring1.
  destruct (stripNonDigits adminNumber) as [|a [|b rest]]; prefix_cases.
Qed.

(** ... and on none whose digits do: it takes one [0] off them, or
    sends them behind a third one. *)
Lemma formatAdminNumber_double_zero (adminNumber : string) :
  startsWith (stripNonDigits adminNumber) "00" = true →
  normalize_spec adminNumber = stripNonDigits adminNumber
  ∧ formatAdminNumber adminNumber ≠ stripNonDigits adminNumber.
Proof.
  unfold formatAdminNumber, normalize_spec, startsWith, substring1.
  destruct (stripNonDigits adminNumber) as [|a [|b rest]]; prefix_cases.
  intros _. split; [done|].
  destruct rest as [|c rest]; prefix_cases;
    intros H; apply (f_equal String.length) in H; simpl in H; lia.
Qed.

(** C1: the admin-number examples of the specification, run through
    [registerAdminNumber] of [Step1Page].  The first two come out as the
    specification says.  The third, ["0061469123456"], which the
    specification leaves unchanged, as do the formatter of
    [app/setup.tsx] and the command preview of [Step1Page] itself,
    comes out with a third zero. *)
Theorem registerAdminNumber_examples :
  formatAdminNumber "0469123456" = "00469123456"
  ∧ formatAdminNumber "61469123456" = "0061469123456"
  ∧ formatAdminNumber "0061469123456" = "00061469123456"
  ∧ normalize_spec "0061469123456" = "0061469123456"
  ∧ formatAdminNumber_setup "0061469123456" = "0061469123456"
  ∧ previewAdminNumber "0061469123456" = "0061469123456"
  ∧ registerAdminCommand "1234" "0061469123456" = "1234TEL00061469123456#".
Proof. repeat split; reflexivity. Qed.

End AdminNumberFacts.

(** ** Command descriptions *)

Section DescribeFacts.
Import JSString LogManager.

(** C3: password ["1234"], serial ["007"], phone ["+61412345678"] and no
    time limits encode to ["1234A007#+61412345678#"]; logging that
    command yields an entry with action ["User Management"], category
    [user] and details ["Added user +61412345678 at position 007"]. *)
Theorem add_user_example :
  addUserCommand "1234" "007" "+61412345678" "" ""
    = "1234A007#+61412345678#"
  ∧ describeSMS "1234A007#+61412345678#"
    = ("User Management", "Added user +61412345678 at position 007", user)
  ∧ ∀ io newId now dev ok storage,
      let entry :=
        fst (logSMSOperation io newId now dev
               (addUserCommand "1234" "007" "+61412345678" "" "")
               ok storage) in
      action entry = "User Management"
      ∧ category entry = user
      ∧ includes (details entry)
          "Added user +61412345678 at position 007" = true.
Proof.
  split; [reflexivity|]. split; [reflexivity|].
  intros io newId now dev ok storage. repeat split; reflexivity.
Qed.

(** The characters of a remove-user command: the digits of the
    password and of the serial, [A] and [#]. *)
Lemma occurs_removeUserCommand (c : ascii) (P S : string) :
  allDigits P = true → allDigits S = true →
  is_digit c = false → Ascii.eqb c "A" = false → Ascii.eqb c "#" = false →
  occurs c (removeUserCommand P S) = false.
Proof.
  intros HP HS Hc HA Hh. unfold removeUserCommand.
  rewrite !occurs_app, (occurs_allDigits c P), (occurs_allDigits c S)
    by done.
  simpl. by rewrite HA, Hh.
Qed.

Lemma removeUserAt_command (P S : string) :
  isPassword P = true → isSerial S = true →
  search removeUserAt (removeUserCommand P S) = Some S.
Proof.
  intros [HP1 HP2]%isPassword_inv [HS1 HS2]%isSerial_inv.
  apply search_here. unfold removeUserAt, removeUserCommand.
  rewrite digits_app by done. cbn -[digits].
  rewrite append_cons, append_nil. cbn -[digits].
  rewrite digits_app by done. reflexivity.
Qed.

Lemma describe_removeUserCommand (P S : string) :
  isPassword P = true → isSerial S = true →
  describeSMS (removeUserCommand P S)
  = ("User Management", "Removed authorized user from position " ++ S, user).
Proof.
  intros HP HS.
  pose proof (isPassword_inv _ HP) as [_ HPd].
  pose proof (isSerial_inv _ HS) as [_ HSd].
  assert (Hex : ∀ n c, occurs c n = true → is_digit c = false →
                  Ascii.eqb c "A" = false → Ascii.eqb c "#" = false →
                  includes (removeUserCommand P S) n = false).
  { intros n c Hn Hc HA Hh. apply (excludes _ _ c Hn).
    by apply occurs_removeUserCommand. }
  unfold describeSMS.
  rewrite (Hex "CC" "C"%char), (Hex "DD" "D"%char), (Hex "P" "P"%char),
    (Hex "EE" "E"%char), (Hex "TEL" "T"%char), (Hex "ALL" "L"%char),
    (Hex "AUT" "U"%char) by reflexivity.
  assert (includes (removeUserCommand P S) "A" = true) as ->.
  { unfold removeUserCommand. apply includes_skip, includes_here. }
  assert (includes (removeUserCommand P S) "##" = true) as ->.
  { unfold removeUserCommand.
    apply includes_skip, (includes_skip "A"), includes_skip.
    reflexivity. }
  cbn [andb negb]. by rewrite removeUserAt_command.
Qed.

(** C4: for every 4-digit password [P] and every 3-digit serial [S],
    the remove-user command [P ++ "A" ++ S ++ "##"] is described with
    category [user] and action ["User Management"]; the serial is in
    the details and the password is not. *)
Theorem remove_user_described (P S : string) :
  isPassword P = true → isSerial S = true →
  ∃ details,
    describeSMS (removeUserCommand P S) = ("User Management", details, user)
    ∧ removeUserCommand P S = P ++ "A" ++ S ++ "##"
    ∧ includes details S = true
    ∧ includes details P = false.
Proof.
  intros HP HS. exists ("Removed authorized user from position " ++ S).
  split; [by apply describe_removeUserCommand|]. split; [done|].
  split.
  - apply includes_skip, includes_refl.
  - apply isPassword_inv in HP as [HP1 HP2].
    apply isSerial_inv in HS as [HS1 _].
    destruct P as [|d P]; [done|]. simpl in HP2.
    apply andb_prop in HP2 as [Hd _].
    apply includes_digits_behind_text; [reflexivity|done|].
    rewrite HS1, HP1. lia.
Qed.

Lemma remove_user_described_witness :
  ∃ details,
    describeSMS (removeUserCommand "1234" "007")
      = ("User Management", details, user)
    ∧ removeUserCommand "1234" "007" = "1234" ++ "A" ++ "007" ++ "##"
    ∧ includes details "007" = true
    ∧ includes details "1234" = false.
Proof. apply (remove_user_described "1234" "007"); reflexivity. Defined.

End DescribeFacts.

(** ** Log manager buffers *)

Section LogManagerFacts.
Import JSString LogManager.
Local Open Scope nat_scope.
Local Open Scope list_scope.

Lemma deviceKey_not_system (dev : string) :
  getDeviceLogsKey dev ≠ SYSTEM_LOGS_KEY.
Proof. discriminate. Qed.

Lemma validateKey_deviceKey (dev : string) (fallback : option string) :
  validateKey (getDeviceLogsKey dev) fallback = Some (getDeviceLogsKey dev).
Proof. reflexivity. Qed.



(** Whatever the storage does, an append leaves a buffer as it was or
    writes it afresh, the new entry first, cut at its bound. *)
Lemma addLog_system_cell (io : Faults) (newLog : LogEntry)
    (storage : gmap string Cell) :
  addLog io newLog storage !! SYSTEM_LOGS_KEY = storage !! SYSTEM_LOGS_KEY
  ∨ ∃ systemLogs,
      addLog io newLog storage !! SYSTEM_LOGS_KEY
      = Some (Logs (newLog :: take 99 systemLogs)).
Proof.
  unfold addLog.
  set (afterDevice := match deviceId newLog with Some _ => _ | None => _ end).
  assert (Hdev : ∀ storage1, afterDevice = Some storage1 →
            storage1 !! SYSTEM_LOGS_KEY = storage !! SYSTEM_LOGS_KEY).
  { subst afterDevice. intros storage1.
    destruct (deviceId newLog) as [dev|]; [|naive_solver].
    case_bool_decide; [naive_solver|].
    destruct (readLogs io storage (getDeviceLogsKey dev)); simpl; [|done].
    intros [= <-]. unfold safeSetItem. rewrite validateKey_deviceKey.
    destruct (setItemFails io _); [done|].
    apply lookup_insert_ne, deviceKey_not_system. }
  destruct afterDevice as [storage1|]; [|by left].
  specialize (Hdev _ eq_refl).
  destruct (readLogs io storage1 SYSTEM_LOGS_KEY) as [systemLogs|];
    [|by left].
  unfold safeSetItem; simpl.
  destruct (setItemFails io _); [by left|].
  right. exists systemLogs. apply lookup_insert_eq.
Qed.


End LogManagerFacts.

(** ** Local store *)

Section DataStoreFacts.
Import JSString DataStore.
Local Open Scope nat_scope.
Local Open Scope list_scope.

Variable setItemFails : AppData → bool.
Variable inherits : Prototype → string → bool.

Lemma store_saveStore (st : State) :
  store (saveStore setItemFails st) = store st.
Proof. unfold saveStore. by destruct (setItemFails _). Qed.

Lemma logsPrototype_saveStore (st : State) :
  logsPrototype (saveStore setItemFails st) = logsPrototype st.
Proof. unfold saveStore. by destruct (setItemFails _). Qed.

Lemma withStore_store (st : State) : withStore st (store st) = st.
Proof. by destruct st. Qed.

Lemma withDevices_devices (s : AppData) : withDevices s (devices s) = s.
Proof. by destruct s. Qed.

Lemma withAuthorizedUsers_id (d : Device) :
  withAuthorizedUsers d (authorizedUsers d) = d.
Proof. by destruct d. Qed.

(** *** Log buckets *)


Lemma lookupLogs_saveStore (st : State) (deviceId : string) :
  lookupLogs inherits (saveStore setItemFails st) deviceId
  = lookupLogs inherits st deviceId.
Proof.
  unfold lookupLogs. by rewrite store_saveStore, logsPrototype_saveStore.
Qed.

(** What was assigned under a name is found under it. *)
Lemma lookupLogs_assignLogs (st : State) (deviceId : string)
    (bucket : list LogEntry) :
  lookupLogs inherits (assignLogs st deviceId bucket) deviceId
  = Bucket bucket.
Proof.
  unfold lookupLogs, assignLogs.
  destruct (logs (store st) !! deviceId) as [old|] eqn:E.
  - cbn. by rewrite lookup_insert_eq.
  - case_bool_decide as Hproto; cbn.
    + by rewrite E.
    + by rewrite lookup_insert_eq.
Qed.

(** The buckets that [logs] has under the other names stay. *)
Lemma logs_assignLogs_ne (st : State) (deviceId other : string)
    (bucket : list LogEntry) :
  other ≠ deviceId →
  logs (store (assignLogs st deviceId bucket)) !! other
  = logs (store st) !! other.
Proof.
  intros Hne. unfold assignLogs.
  destruct (logs (store st) !! deviceId); [|case_bool_decide]; cbn;
    by rewrite ?lookup_insert_ne.
Qed.

(** An assignment under a name other than [__proto__] leaves what [logs]
    finds under the other names. *)
Lemma lookupLogs_assignLogs_ne (st : State) (deviceId other : string)
    (bucket : list LogEntry) :
  other ≠ deviceId → deviceId ≠ "__proto__" →
  lookupLogs inherits (assignLogs st deviceId bucket) other
  = lookupLogs inherits st other.
Proof.
  intros Hne Hproto. unfold lookupLogs.
  rewrite logs_assignLogs_ne by done.
  replace (logsPrototype (assignLogs st deviceId bucket))
    with (logsPrototype st); [done|].
  unfold assignLogs.
  destruct (logs (store st) !! deviceId); [done|].
  by rewrite bool_decide_eq_false_2.
Qed.

(** An assignment to [logs] leaves the rest of the state. *)
Lemma assignLogs_rest (st : State) (deviceId : string)
    (bucket : list LogEntry) :
  let st' := assignLogs st deviceId bucket in
  devices (store st') = devices (store st)
  ∧ users (store st') = users (store st)
  ∧ globalSettings (store st') = globalSettings (store st)
  ∧ isInitialized st' = isInitialized st
  ∧ persisted st' = persisted st.
Proof.
  unfold assignLogs.
  by destruct (logs (store st) !! deviceId); [|case_bool_decide].
Qed.

(** What an append leaves besides [logs]. *)
Lemma addDeviceLog_rest (newId now deviceId act det : string)
    (ok : bool) (cat : Category) (st : State) :
  let st' := snd (addDeviceLog setItemFails inherits newId now deviceId
                    act det ok cat st) in
  devices (store st') = devices (store st)
  ∧ users (store st') = users (store st)
  ∧ globalSettings (store st') = globalSettings (store st).
Proof.
  unfold addDeviceLog. cbn zeta.
  destruct (lookupLogs _ _ _); cbn [snd]; [|done|];
    rewrite store_saveStore;
    repeat match goal with
      | |- context [assignLogs ?st ?i ?b] =>
          let H := fresh in
          pose proof (assignLogs_rest st i b) as H; cbn zeta in H;
          destruct H as (-> & -> & -> & _ & _)
      end; done.
Qed.

(** What clearing a bucket leaves besides [logs]. *)
Lemma clearDeviceLogs_rest (deviceId : string) (st : State) :
  let st' := snd (clearDeviceLogs setItemFails inherits deviceId st) in
  devices (store st') = devices (store st)
  ∧ users (store st') = users (store st)
  ∧ globalSettings (store st') = globalSettings (store st).
Proof.
  unfold clearDeviceLogs. cbn zeta.
  destruct (lookupLogs _ _ _); cbn [snd]; [| |done];
    rewrite store_saveStore;
    match goal with
    | |- context [assignLogs ?st ?i ?b] =>
        by destruct (assignLogs_rest st i b) as (-> & -> & -> & _ & _)
    end.
Qed.

Lemma assignLogs_assignLogs (st : State) (deviceId : string)
    (first second : list LogEntry) :
  lookupLogs inherits
    (assignLogs (assignLogs st deviceId first) deviceId second) deviceId
  = Bucket second.
Proof. apply lookupLogs_assignLogs. Qed.

(** A bucket that can be read: [getDeviceLogs] does not throw. *)
Lemma getDeviceLogs_Some (deviceId : string) (st : State)
    (bucket : list LogEntry) :
  getDeviceLogs inherits deviceId st = Some bucket →
  let name := if isBlank deviceId then "system" else deviceId in
  lookupLogs inherits st name = Bucket bucket
  ∨ (lookupLogs inherits st name = Nothing ∧ bucket = []).
Proof.
  unfold getDeviceLogs. cbn zeta.
  destruct (lookupLogs _ _ _); intros [= <-]; auto.
Qed.

(** One append: the bucket read back. *)
Lemma addDeviceLog_bucket (newId now deviceId act det : string)
    (ok : bool) (cat : Category) (st : State) (bucket : list LogEntry) :
  getDeviceLogs inherits deviceId st = Some bucket →
  let r := addDeviceLog setItemFails inherits newId now deviceId act det
             ok cat st in
  let newLog := {| log_id := newId; timestamp := now; action := act;
                   details := det; success := ok; category := cat |} in
  fst r = Some newLog
  ∧ getDeviceLogs inherits deviceId (snd r)
    = Some (newLog :: take 199 bucket).
Proof.
  intros [Hfound|[Hfound ->]]%getDeviceLogs_Some r newLog; subst r;
    unfold addDeviceLog, getDeviceLogs; cbn zeta; rewrite Hfound;
    cbn [fst snd]; (split; [done|]);
    by rewrite lookupLogs_saveStore, lookupLogs_assignLogs.
Qed.



(** *** Devices found by id *)

Lemma filter_all {A} (P : A → Prop) `{!∀ x, Decision (P x)} (l : list A) :
  Forall P l → filter P l = l.
Proof.
  induction 1 as [|x l Hx Hl IH]; [done|].
  rewrite filter_cons_True by done. by f_equal.
Qed.

Lemma filter_without {A} `{!EqDecision A} (x : A) (l : list A) :
  x ∉ l → filter (λ y, y ≠ x) l = l.
Proof.
  intros Hx. apply filter_all, Forall_forall. by intros y Hy ->.
Qed.

Lemma list_find_update_same {A} (P : A → Prop) `{!∀ x, Decision (P x)}
    (l : list A) (i : nat) (x y : A) :
  list_find P l = Some (i, x) → P y →
  list_find P (<[i := y]> l) = Some (i, y).
Proof.
  intros (Hi & _ & Hleast)%list_find_Some Hy.
  apply list_find_insert_Some. right; left.
  split_and!; [done|done|by eapply lookup_lt_Some|done|done].
Qed.

Lemma list_find_update_other {A} (Q : A → Prop) `{!∀ x, Decision (Q x)}
    (l : list A) (i : nat) (x y : A) :
  l !! i = Some x → ¬ Q x → ¬ Q y →
  list_find Q (<[i := y]> l) = list_find Q l.
Proof.
  intros Hi Hx Hy.
  destruct (list_find Q l) as [[j z]|] eqn:E.
  - apply list_find_Some in E as (Hj & Hz & Hleast).
    assert (i ≠ j) by (intros ->; naive_solver).
    apply list_find_Some. split_and!; [by rewrite list_lookup_insert_ne|done|].
    intros j' z' Hj' Hlt. destruct (decide (i = j')) as [<-|].
    + rewrite list_lookup_insert_eq in Hj' by (by eapply lookup_lt_Some).
      naive_solver.
    + rewrite list_lookup_insert_ne in Hj' by done. eauto.
  - apply list_find_None. apply list_find_None in E.
    by apply Forall_insert.
Qed.

Lemma getDeviceById_Some (deviceId : string) (st : State) (device : Device) :
  getDeviceById deviceId st = Some device ↔
  ∃ i, list_find (λ d, dev_id d = deviceId) (devices (store st))
       = Some (i, device).
Proof.
  unfold getDeviceById. split.
  - intros ([i d] & H & ->)%fmap_Some. by exists i.
  - intros [i ->]. done.
Qed.

Lemma getDeviceById_elem_of (deviceId : string) (st : State) :
  is_Some (getDeviceById deviceId st)
  ↔ deviceId ∈ dev_id <$> devices (store st).
Proof.
  unfold getDeviceById. rewrite fmap_is_Some, list_elem_of_fmap. split.
  - intros [[i d] (Hi%list_elem_of_lookup_2 & Hd & _)%list_find_Some].
    by exists d.
  - intros (d & -> & Hd). by eapply list_find_elem_of.
Qed.

(** *** Deleting a device *)

Section DeleteDevice.

Variable load : State → State.

Lemma initialize_initialized (st : State) :
isInitialized st = true → initialize load st = st.
Proof. unfold initialize. by intros ->. Qed.

Lemma deleteDevice_rejected (deviceId : string) (st : State) :
deviceId = "" ∨ deviceId = "undefined" →
deleteDevice setItemFails load deviceId st = (false, st).
Proof. intros [-> | ->]; reflexivity. Qed.

(** The store after the deletion of a device that is there. *)
Lemma deleteDevice_found (deviceId : string) (st : State) (found : Device) :
deviceId ≠ "" → deviceId ≠ "undefined" →
let st0 := initialize load st in
let s0 := store st0 in
let remaining := filter (λ d, dev_id d ≠ deviceId) (devices s0) in
found ∈ devices s0 → dev_id found = deviceId →
deleteDevice setItemFails load deviceId st
= (true,
   saveStore setItemFails
     (withStore st0
        {| devices := remaining;
           users := users s0;
           logs := delete deviceId (logs s0);
           globalSettings :=
             {| adminNumber := adminNumber (globalSettings s0);
                activeDeviceId :=
                  if bool_decide
                       (activeDeviceId (globalSettings s0) = Some deviceId)
                  then head (dev_id <$> remaining)
                  else activeDeviceId (globalSettings s0);
                completedSteps := completedSteps (globalSettings s0) |}
        |})).
Proof.
intros Hne1 Hne2 st0 s0 remaining Hin Hid.
assert (Hst0 : (if isInitialized st then st else initialize load st)
               = st0).
{ subst st0. destruct (isInitialized st) eqn:E; [|done].
  by rewrite initialize_initialized. }
unfold deleteDevice.
rewrite !bool_decide_eq_false_2 by done. cbn [orb].
rewrite Hst0. fold s0.
destruct (list_find_elem_of (λ d, dev_id d = deviceId) _ _ Hin Hid)
  as [[i d] ->].
fold remaining.
assert (Hlen : length remaining < length (devices s0)).
{ apply (length_filter_lt _ _ found); [done|]. by intros []. }
rewrite store_saveStore. f_equal.
- apply negb_true_iff, Nat.eqb_neq.
  destruct (logs (withDevices s0 remaining) !! deviceId);
    case_bool_decide; simpl; destruct remaining; simpl in *; lia.
- do 2 f_equal. destruct s0 as [ds us ls [adm act steps]]; simpl in *.
  destruct (ls !! deviceId) eqn:E; simpl;
    case_bool_decide; simpl; try destruct remaining; simpl;
    rewrite ?(delete_id ls) by done; reflexivity.
Qed.

Lemma deleteDevice_missing (deviceId : string) (st : State) :
deviceId ∉ dev_id <$> devices (store (initialize load st)) →
deleteDevice setItemFails load deviceId st
= (false, if bool_decide (deviceId = "")
             || bool_decide (deviceId = "undefined")
          then st else initialize load st).
Proof.
intros Hnotin. unfold deleteDevice.
destruct (bool_decide (deviceId = "") || bool_decide (deviceId = "undefined"));
  [done|].
assert (Hst0 : (if isInitialized st then st else initialize load st)
               = initialize load st).
{ destruct (isInitialized st) eqn:E; [|done].
  by rewrite initialize_initialized. }
rewrite Hst0.
destruct (list_find _ _) as [[i d]|] eqn:Efind; [|done].
apply list_find_Some in Efind as (Hi%list_elem_of_lookup_2 & Hid & _).
destruct Hnotin. apply list_elem_of_fmap. by exists d.
Qed.


End DeleteDevice.

(** *** Deleting a user *)

(** C8: for every store state and every user id [u], after
    [deleteUser u] no device's [authorizedUsers] contains [u]: every
    device keeps its place, its id and its other authorised ids, and
    loses [u].  (The user list loses the users of id [u]; the call
    returns true when there was one.) *)
Theorem deleteUser_scrubs_devices (userId : string) (st : State) :
  let r := deleteUser setItemFails userId st in
  let s := store st in
  let s' := store (snd r) in
  (∀ d, d ∈ devices s' → userId ∉ authorizedUsers d)
  ∧ devices s'
    = (λ d, withAuthorizedUsers d
              (filter (λ i, i ≠ userId) (authorizedUsers d)))
        <$> devices s
  ∧ (∀ i d, devices s !! i = Some d →
       ∃ d', devices s' !! i = Some d'
             ∧ dev_id d' = dev_id d
             ∧ ∀ other, other ∈ authorizedUsers d'
                        ↔ other ∈ authorizedUsers d ∧ other ≠ userId)
  ∧ users s' = filter (λ u, user_id u ≠ userId) (users s)
  ∧ ((fst r = true) ↔ (userId ∈ user_id <$> users s)).
Proof.
  intros r s s'.
  assert (Hdevs : devices s'
    = (λ d, withAuthorizedUsers d
              (filter (λ i, i ≠ userId) (authorizedUsers d)))
        <$> devices s).
  { subst s' r. unfold deleteUser. destruct (negb _); simpl;
      by rewrite ?store_saveStore. }
  assert (Husers : users s' = filter (λ u, user_id u ≠ userId) (users s)).
  { subst s' r. unfold deleteUser. destruct (negb _); simpl;
      by rewrite ?store_saveStore. }
  split_and!; [| done | | done |].
  - rewrite Hdevs. intros d (d0 & -> & _)%list_elem_of_fmap. simpl.
    rewrite list_elem_of_filter. intros [Hne _]. by apply Hne.
  - intros i d Hi. rewrite Hdevs, list_lookup_fmap, Hi. simpl.
    eexists; split_and!; [done..|]. intros other. simpl.
    rewrite list_elem_of_filter. split; intros [? ?]; done.
  - subst r. unfold deleteUser. fold s. simpl.
    destruct (decide (userId ∈ user_id <$> users s)) as [Hin|Hnotin].
    + apply list_elem_of_fmap in Hin as (u & -> & Hu).
      assert (length (filter (λ u0, user_id u0 ≠ user_id u) (users s))
              < length (users s))
        by (apply (length_filter_lt _ _ u); [done|by intros []]).
      destruct (negb _) eqn:E.
      * split; [intros _|done]. apply list_elem_of_fmap. by exists u.
      * apply negb_false_iff, Nat.eqb_eq in E. lia.
    + assert (filter (λ u, user_id u ≠ userId) (users s) = users s) as Hid.
      { apply filter_all, Forall_forall. intros u Hu Heq.
        apply Hnotin, list_elem_of_fmap. by exists u. }
      rewrite Hid, Nat.eqb_refl. simpl. split; [done|]. by intros ?.
Qed.

(** *** Authorising users *)

Lemma authorize_present (deviceId userId : string) (st : State)
    (device : Device) :
  getDeviceById deviceId st = Some device →
  userId ∈ authorizedUsers device →
  authorizeUserForDevice setItemFails deviceId userId st = (false, st).
Proof.
  intros [i Hfind]%getDeviceById_Some Hin.
  unfold authorizeUserForDevice. rewrite Hfind.
  by rewrite bool_decide_eq_true_2.
Qed.

Lemma deauthorize_absent (deviceId userId : string) (st : State)
    (device : Device) :
  getDeviceById deviceId st = Some device →
  userId ∉ authorizedUsers device →
  deauthorizeUserForDevice setItemFails deviceId userId st = (false, st).
Proof.
  intros [i Hfind]%getDeviceById_Some Hnotin.
  unfold deauthorizeUserForDevice. rewrite Hfind. cbn zeta.
  rewrite filter_without by done.
  rewrite withAuthorizedUsers_id, Nat.eqb_refl. cbn [negb].
  apply list_find_Some in Hfind as (Hi & _).
  by rewrite list_insert_id, withDevices_devices, withStore_store.
Qed.

(** The store after a change of one device's [authorizedUsers]. *)
Lemma update_authorizedUsers (deviceId : string) (st : State) (i : nat)
    (device : Device) (us : list string) :
  list_find (λ d, dev_id d = deviceId) (devices (store st))
  = Some (i, device) →
  let st' :=
    saveStore setItemFails
      (withStore st
         (withDevices (store st)
            (<[i := withAuthorizedUsers device us]> (devices (store st)))))
  in
  getDeviceById deviceId st' = Some (withAuthorizedUsers device us)
  ∧ (∀ other, other ≠ deviceId →
       getDeviceById other st' = getDeviceById other st)
  ∧ users (store st') = users (store st)
  ∧ logs (store st') = logs (store st)
  ∧ globalSettings (store st') = globalSettings (store st).
Proof.
  intros Hfind st'. subst st'. unfold getDeviceById.
  rewrite store_saveStore. cbn [store withStore devices withDevices
    users logs globalSettings].
  split_and!; try done.
  - rewrite (list_find_update_same _ _ _ device _ Hfind); [done|].
    simpl. by apply list_find_Some in Hfind as (_ & ? & _).
  - intros other Hother.
    apply list_find_Some in Hfind as (Hi & Hid & _).
    rewrite (list_find_update_other _ _ _ device); [done..| |];
      simpl; congruence.
Qed.

(** C9: [authorizeUserForDevice] and [deauthorizeUserForDevice] on an
    existing device.  Authorising a user id that is in the device's
    [authorizedUsers], or deauthorising one that is not, returns false
    and leaves the whole state as it is.  Authorising an id that is
    not there returns true and adds it behind the others;
    deauthorising one that is there returns true and removes it; in
    both cases the users, the logs, the settings and the other devices
    are left alone, and doing it again reports no change. *)
Theorem authorization_toggle (deviceId userId : string) (st : State)
    (device : Device) :
  getDeviceById deviceId st = Some device →
  let unchanged (st' : State) :=
    (∀ other, other ≠ deviceId →
       getDeviceById other st' = getDeviceById other st)
    ∧ users (store st') = users (store st)
    ∧ logs (store st') = logs (store st)
    ∧ globalSettings (store st') = globalSettings (store st) in
  (userId ∈ authorizedUsers device →
     authorizeUserForDevice setItemFails deviceId userId st = (false, st)
     ∧ ∃ st' device',
         deauthorizeUserForDevice setItemFails deviceId userId st
         = (true, st')
         ∧ getDeviceById deviceId st' = Some device'
         ∧ authorizedUsers device'
           = filter (λ i, i ≠ userId) (authorizedUsers device)
         ∧ (userId ∉ authorizedUsers device')
         ∧ unchanged st'
         ∧ deauthorizeUserForDevice setItemFails deviceId userId st'
           = (false, st'))
  ∧ (userId ∉ authorizedUsers device →
     deauthorizeUserForDevice setItemFails deviceId userId st = (false, st)
     ∧ ∃ st' device',
         authorizeUserForDevice setItemFails deviceId userId st
         = (true, st')
         ∧ getDeviceById deviceId st' = Some device'
         ∧ authorizedUsers device' = authorizedUsers device ++ [userId]
         ∧ userId ∈ authorizedUsers device'
         ∧ unchanged st'
         ∧ authorizeUserForDevice setItemFails deviceId userId st'
           = (false, st')).
Proof.
  intros Hget unchanged. split; intros Hmem.
  - split; [by eapply authorize_present|].
    pose proof Hget as [i Hfind]%getDeviceById_Some.
    set (us := filter (λ i, i ≠ userId) (authorizedUsers device)).
    assert (Hus : userId ∉ us)
      by (subst us; rewrite list_elem_of_filter; by intros [? _]).
    destruct (update_authorizedUsers deviceId st i device us Hfind)
      as (Hdev & Hothers & Hrest).
    eexists _, (withAuthorizedUsers device us).
    split_and!; [|exact Hdev|done|done|by split|].
    + unfold deauthorizeUserForDevice. rewrite Hfind. cbn zeta. fold us.
      assert (length us < length (authorizedUsers device))
        by (apply (length_filter_lt _ _ userId); [done|by intros []]).
      cbn [authorizedUsers withAuthorizedUsers].
      destruct (negb _) eqn:E; [done|].
      apply negb_false_iff, Nat.eqb_eq in E. lia.
    + by eapply deauthorize_absent.
  - split; [by eapply deauthorize_absent|].
    pose proof Hget as [i Hfind]%getDeviceById_Some.
    set (us := authorizedUsers device ++ [userId]).
    assert (Hus : userId ∈ us) by (subst us; set_solver).
    destruct (update_authorizedUsers deviceId st i device us Hfind)
      as (Hdev & Hothers & Hrest).
    eexists _, (withAuthorizedUsers device us).
    split_and!; [|exact Hdev|done|done|by split|].
    + unfold authorizeUserForDevice. rewrite Hfind.
      by rewrite bool_decide_eq_false_2.
    + by eapply authorize_present.
Qed.

(** *** The active device *)

(** C10, as amended: [setActiveDevice id] returns false and leaves
    the state as it is whenever [id] is a non-empty string that is the
    id of no device; it returns true after setting [activeDeviceId] to
    [id] (and nothing else) whenever [id] is null or the id of a
    device; consequently, after a call with an id other than the empty
    string, [activeDeviceId] is null or the id of a device in the
    store provided it was so before the call. *)
Theorem setActiveDevice_spec (deviceId : option string) (st : State) :
  let r := setActiveDevice setItemFails deviceId st in
  let known (s : AppData) (a : option string) :=
    ∃ d, d ∈ devices s ∧ a = Some (dev_id d) in
  (deviceId ≠ None → deviceId ≠ Some "" →
     ¬ known (store st) deviceId → r = (false, st))
  ∧ (deviceId = None ∨ known (store st) deviceId →
       fst r = true
       ∧ store (snd r) = withActiveDevice (store st) deviceId
       ∧ activeDeviceId (globalSettings (store (snd r))) = deviceId)
  ∧ (deviceId ≠ Some "" →
       let before := activeDeviceId (globalSettings (store st)) in
       let after := activeDeviceId (globalSettings (store (snd r))) in
       before = None ∨ known (store st) before →
       after = None ∨ known (store (snd r)) after).
Proof.
  intros r known.
  assert (Hexists :
    existsb (λ d, bool_decide (Some (dev_id d) = deviceId))
      (devices (store st)) = true ↔ known (store st) deviceId).
  { rewrite existsb_exists. unfold known.
    split; intros (d & Hd & Hid); exists d.
    - apply bool_decide_eq_true_1 in Hid. by rewrite list_elem_of_In.
    - rewrite <- list_elem_of_In. split; [done|].
      by apply bool_decide_eq_true_2. }
  assert (Haccept : deviceId = None ∨ deviceId = Some ""
                    ∨ known (store st) deviceId →
            r = (true, saveStore setItemFails
                         (withStore st
                            (withActiveDevice (store st) deviceId)))).
  { intros Hcase. subst r. unfold setActiveDevice.
    destruct Hcase as [-> | [-> | Hk]]; [done|done|].
    apply Hexists in Hk as ->. cbn [negb]. by rewrite andb_false_r. }
  assert (Hreject : deviceId ≠ None → deviceId ≠ Some "" →
            ¬ known (store st) deviceId → r = (false, st)).
  { intros Hnone Hempty Hk. subst r. unfold setActiveDevice.
    destruct deviceId as [d|]; [|done].
    rewrite bool_decide_eq_false_2 by congruence.
    assert (existsb (λ d0, bool_decide (Some (dev_id d0) = Some d))
              (devices (store st)) = false) as ->
      by (apply not_true_iff_false; by rewrite Hexists).
    done. }
  split; [done|]. split.
  - intros Hcase. rewrite Haccept by tauto. cbn [fst snd].
    by rewrite store_saveStore.
  - intros Hempty before after Hbefore.
    destruct (decide (deviceId = None)) as [->|Hnone].
    { left. subst after. rewrite Haccept by tauto. cbn [snd].
      by rewrite store_saveStore. }
    assert (known (store st) deviceId ∨ ¬ known (store st) deviceId)
      as [Hk|Hk]
      by (rewrite <- Hexists; destruct (existsb _ _); [by left|by right]).
    + right. subst after. rewrite Haccept by tauto. cbn [snd].
      rewrite store_saveStore. exact Hk.
    + subst after before. by rewrite Hreject.
Qed.

End DataStoreFacts.

(** ** The bounds of the log buffers *)

Section LogBufferFacts.
Local Open Scope nat_scope.
Local Open Scope list_scope.


End LogBufferFacts.

(** ** Backup restore *)

Section MergeFacts.
Import DataStore BackupRestore.
Local Open Scope nat_scope.
Local Open Scope list_scope.

Variable inherits : Prototype → string → bool.
Variable Object_entries :
  gmap string (list LogEntry) → list (string * list LogEntry).

Local Abbreviation lookupBucket := (lookupBucket inherits).
Local Abbreviation mergeBucket := (mergeBucket inherits).
Local Abbreviation mergeEntries := (mergeEntries inherits).
Local Abbreviation mergeLogs := (mergeLogs inherits Object_entries).

Implicit Types existing backup : list Device.

(** The merged device list holds a device exactly when the destination
    has it, or the backup has it under an id the destination has not. *)
Lemma elem_of_mergeDevices existing backup (d : Device) :
  d ∈ mergeDevices existing backup
  ↔ d ∈ existing
    ∨ (d ∈ backup ∧ dev_id d ∉ dev_id <$> existing).
Proof.
  unfold mergeDevices.
  rewrite elem_of_app, list_elem_of_filter, elem_of_list_to_set. tauto.
Qed.

(** Its ids are the ids of the two sides. *)
Lemma mergeDevices_ids existing backup (i : string) :
  i ∈ dev_id <$> mergeDevices existing backup
  ↔ i ∈ dev_id <$> existing ∨ i ∈ dev_id <$> backup.
Proof.
  rewrite !list_elem_of_fmap. split.
  - intros (d & -> & [Hd|[Hd _]]%elem_of_mergeDevices); eauto.
  - intros [(d & -> & Hd)|(d & -> & Hd)].
    + exists d. split; [done|]. apply elem_of_mergeDevices. by left.
    + destruct (decide (dev_id d ∈ dev_id <$> existing)) as [Hin|Hnotin].
      * apply list_elem_of_fmap in Hin as (d' & Hid & Hd').
        exists d'. split; [done|]. apply elem_of_mergeDevices. by left.
      * exists d. split; [done|]. apply elem_of_mergeDevices. by right.
Qed.

(** The destination's devices keep their places. *)
Lemma mergeDevices_lookup existing backup (i : nat) (d : Device) :
  existing !! i = Some d → mergeDevices existing backup !! i = Some d.
Proof. intros Hi. unfold mergeDevices. by apply lookup_app_l_Some. Qed.

(** Looking a device up by id, the way the store does, finds the
    destination's device when the destination has the id. *)
Lemma mergeDevices_find existing backup (ident : string) (i : nat)
    (d : Device) :
  list_find (λ x, dev_id x = ident) existing = Some (i, d) →
  list_find (λ x, dev_id x = ident) (mergeDevices existing backup)
  = Some (i, d).
Proof. intros H. unfold mergeDevices. by apply list_find_app_l. Qed.

(** No id is doubled by the merge. *)
Lemma mergeDevices_NoDup existing backup :
  NoDup (dev_id <$> existing) → NoDup (dev_id <$> backup) →
  NoDup (dev_id <$> mergeDevices existing backup).
Proof.
  intros He Hb. unfold mergeDevices. rewrite fmap_app.
  apply NoDup_app. split_and!; [done| |].
  - intros x Hx (d & -> & [Hd _]%list_elem_of_filter)%list_elem_of_fmap.
    by apply Hd, elem_of_list_to_set.
  - induction backup as [|b backup IH]; [constructor|].
    apply NoDup_cons in Hb as [Hb1 Hb2].
    rewrite filter_cons. case_decide; [|by apply IH].
    rewrite fmap_cons. apply NoDup_cons. split; [|by apply IH].
    intros (d & Hid & [_ Hd]%list_elem_of_filter)%list_elem_of_fmap.
    apply Hb1. rewrite Hid. by apply list_elem_of_fmap_2.
Qed.

(** The example of the specification. *)
Lemma mergeDevices_example (A A' B : Device) :
  dev_id A' = dev_id A → dev_id B ≠ dev_id A →
  mergeDevices [A] [A'; B] = [A; B].
Proof.
  intros HA' HB. unfold mergeDevices. f_equal.
  rewrite filter_cons_False, filter_cons_True; [done| |];
    rewrite elem_of_list_to_set; simpl; rewrite list_elem_of_singleton;
    [done|]. by intros [].
Qed.

Implicit Types existingLogs backupLogs : gmap string (list LogEntry).

Implicit Types entries : list (string * list LogEntry).

Lemma Member_or_not (found : Found) : found = Member ∨ found ≠ Member.
Proof. destruct found; auto. Qed.

Lemma lookupBucket_insert_ne backupLogs (deviceId other : string)
    (bucket : list LogEntry) :
  other ≠ deviceId →
  lookupBucket (<[deviceId := bucket]> backupLogs) other
  = lookupBucket backupLogs other.
Proof.
  intros Hne. unfold BackupRestore.lookupBucket.
  by rewrite lookup_insert_ne.
Qed.

(** A turn that does not throw leaves the union by id under the name. *)
Lemma mergeBucket_Some backupLogs (deviceId : string)
    (logEntries : list LogEntry) :
  lookupBucket backupLogs deviceId ≠ Member →
  ∃ merged,
    unionById (Some logEntries) (backupLogs !! deviceId) = Some merged
    ∧ mergeBucket deviceId logEntries backupLogs
      = Some (<[deviceId := merged]> backupLogs).
Proof.
  unfold BackupRestore.mergeBucket, BackupRestore.lookupBucket.
  destruct (backupLogs !! deviceId) as [bucket|]; cbn [unionById].
  - intros _. eexists. split; [done|]. do 3 f_equal.
    apply list_filter_iff. intros e. by rewrite elem_of_list_to_set.
  - destruct (_ || _); [done|]. intros _. by eexists.
Qed.

Lemma mergeBucket_None backupLogs (deviceId : string)
    (logEntries : list LogEntry) :
  lookupBucket backupLogs deviceId = Member →
  mergeBucket deviceId logEntries backupLogs = None.
Proof. unfold BackupRestore.mergeBucket. by intros ->. Qed.

(** The loop, thrown out of or not, leaves under every name the bucket
    of the backup or its union with the destination's bucket. *)
Lemma mergeEntries_shape entries backupLogs (deviceId : string) :
  NoDup entries.*1 →
  ∃ bucket,
    mergeEntries entries backupLogs !! deviceId
    = unionById bucket (backupLogs !! deviceId)
    ∧ (bucket = None
       ∨ ∃ logEntries,
           bucket = Some logEntries ∧ (deviceId, logEntries) ∈ entries).
Proof.
  revert backupLogs.
  induction entries as [|[name logEntries] rest IH];
    intros backupLogs Hnodup; cbn [BackupRestore.mergeEntries].
  { exists None. by split; [|left]. }
  cbn in Hnodup. apply NoDup_cons in Hnodup as [Hfresh Hnodup].
  destruct (Member_or_not (lookupBucket backupLogs name)) as [Hm|Hm].
  { rewrite mergeBucket_None by done. exists None. by split; [|left]. }
  destruct (mergeBucket_Some backupLogs name logEntries Hm)
    as (merged & Hunion & ->).
  destruct (IH (<[name := merged]> backupLogs) Hnodup)
    as (bucket & Hlookup & Hbucket).
  rewrite Hlookup. destruct (decide (deviceId = name)) as [->|Hne].
  - destruct Hbucket as [->|(other & -> & Hin)].
    + exists (Some logEntries). rewrite lookup_insert_eq, Hunion.
      split; [done|]. right. eexists. split; [done|].
      apply elem_of_cons. by left.
    + destruct Hfresh. by apply (list_elem_of_fmap_2 fst) in Hin.
  - exists bucket. rewrite lookup_insert_ne by done. split; [done|].
    destruct Hbucket as [->|(other & -> & Hin)]; [by left|].
    right. eexists. split; [done|]. by apply list_elem_of_further.
Qed.

(** The names of the merged object are names under which the backup
    finds a bucket or nothing. *)
Lemma mergeEntries_own entries backupLogs (deviceId : string) :
  is_Some (mergeEntries entries backupLogs !! deviceId) →
  lookupBucket backupLogs deviceId ≠ Member.
Proof.
  revert backupLogs.
  induction entries as [|[name logEntries] rest IH];
    intros backupLogs; cbn [BackupRestore.mergeEntries].
  { unfold BackupRestore.lookupBucket. by intros [bucket ->]. }
  destruct (Member_or_not (lookupBucket backupLogs name)) as [Hm|Hm].
  { rewrite mergeBucket_None by done.
    unfold BackupRestore.lookupBucket. by intros [bucket ->]. }
  destruct (mergeBucket_Some backupLogs name logEntries Hm)
    as (merged & Hunion & ->).
  intros Hown%IH. destruct (decide (deviceId = name)) as [->|Hne]; [done|].
  by rewrite lookupBucket_insert_ne in Hown.
Qed.

(** A loop that no turn throws out of leaves the union by id. *)
Lemma mergeEntries_lookup entries backupLogs (deviceId : string) :
  NoDup entries.*1 →
  (∀ name logEntries, (name, logEntries) ∈ entries →
     lookupBucket backupLogs name ≠ Member) →
  mergeEntries entries backupLogs !! deviceId
  = unionById ((list_to_map entries : gmap string (list LogEntry))
               !! deviceId)
      (backupLogs !! deviceId).
Proof.
  revert backupLogs.
  induction entries as [|[name logEntries] rest IH];
    intros backupLogs Hnodup Hfound; cbn [BackupRestore.mergeEntries].
  { cbn. by rewrite lookup_empty. }
  cbn in Hnodup. apply NoDup_cons in Hnodup as [Hfresh Hnodup].
  destruct (mergeBucket_Some backupLogs name logEntries)
    as (merged & Hunion & ->).
  { eapply Hfound. apply elem_of_cons. by left. }
  rewrite IH; [|done|].
  - cbn [list_to_map foldr]. destruct (decide (deviceId = name)) as [->|Hne].
    + rewrite !lookup_insert_eq. cbn [snd].
      by rewrite (not_elem_of_list_to_map_1 _ name), Hunion.
    + by rewrite !lookup_insert_ne.
  - intros other entries' Hin.
    assert (other ≠ name) as Hne.
    { intros ->. apply Hfresh. by apply (list_elem_of_fmap_2 fst) in Hin. }
    rewrite lookupBucket_insert_ne by done.
    eapply Hfound. by apply list_elem_of_further.
Qed.

Lemma enumerates_NoDup existingLogs :
  enumerates Object_entries → NoDup (Object_entries existingLogs).*1.
Proof.
  intros Henum. rewrite (Henum existingLogs). apply NoDup_fst_map_to_list.
Qed.

Lemma enumerates_elem_of existingLogs (deviceId : string)
    (logEntries : list LogEntry) :
  enumerates Object_entries →
  (deviceId, logEntries) ∈ Object_entries existingLogs
  ↔ existingLogs !! deviceId = Some logEntries.
Proof.
  intros Henum. rewrite (Henum existingLogs). apply elem_of_map_to_list.
Qed.

Lemma enumerates_lookup existingLogs (deviceId : string) :
  enumerates Object_entries →
  (list_to_map (Object_entries existingLogs)
     : gmap string (list LogEntry)) !! deviceId
  = existingLogs !! deviceId.
Proof.
  intros Henum.
  rewrite (list_to_map_proper _ (map_to_list existingLogs));
    [by rewrite list_to_map_to_list|by apply enumerates_NoDup|done].
Qed.

(** No bucket of the destination that the backup lacks is named like a
    member that the backup's [logs] object inherits. *)
Lemma lookupBucket_found existingLogs backupLogs :
  (∀ name, is_Some (existingLogs !! name) → backupLogs !! name = None →
     name ≠ "__proto__" ∧ inherits ObjectPrototype name = false) →
  ∀ name, is_Some (existingLogs !! name) →
    lookupBucket backupLogs name ≠ Member.
Proof.
  intros Hnames name Hname. unfold BackupRestore.lookupBucket.
  destruct (backupLogs !! name) eqn:E; [done|].
  destruct (Hnames name Hname E) as [Hproto ->].
  by rewrite bool_decide_eq_false_2.
Qed.

Lemma mergeLogs_lookup existingLogs backupLogs (deviceId : string) :
  enumerates Object_entries →
  (∀ name, is_Some (existingLogs !! name) →
     lookupBucket backupLogs name ≠ Member) →
  mergeLogs existingLogs backupLogs !! deviceId
  = unionById (existingLogs !! deviceId) (backupLogs !! deviceId).
Proof.
  intros Henum Hfound. unfold BackupRestore.mergeLogs.
  rewrite mergeEntries_lookup, enumerates_lookup;
    [done|done|by apply enumerates_NoDup|].
  intros name logEntries Hin. apply Hfound.
  apply enumerates_elem_of in Hin; [|done]. by eexists.
Qed.

(** A merged bucket holds the destination's entries and the backup's
    entries whose id the destination's bucket has not. *)
Lemma elem_of_unionById (existingBucket backupBucket : option (list LogEntry))
    (e : LogEntry) :
  e ∈ default [] (unionById existingBucket backupBucket)
  ↔ e ∈ default [] existingBucket
    ∨ (e ∈ default [] backupBucket
       ∧ log_id e ∉ log_id <$> default [] existingBucket).
Proof.
  destruct existingBucket as [logEntries|], backupBucket as [bucket|];
    simpl.
  - rewrite elem_of_app, list_elem_of_filter. tauto.
  - rewrite elem_of_nil. tauto.
  - split; [right; split; [done|apply not_elem_of_nil]|].
    by intros [[]%elem_of_nil|[? _]].
  - rewrite elem_of_nil. tauto.
Qed.

End MergeFacts.

Section RestoreFacts.
Import DataStore BackupRestore.
Local Open Scope nat_scope.
Local Open Scope list_scope.

Variable inherits : Prototype → string → bool.
Variable Object_entries :
  gmap string (list LogEntry) → list (string * list LogEntry).
Variable JSON_stringify : Value → string.
Variable JSON_parse : string → option Value.
Variable parseBackup : string → option (list (string * Value)).
Variable migratedDocument : Faults → Storage → option string.

Local Abbreviation mergeLogs := (mergeLogs inherits Object_entries).
Local Abbreviation mergeAppData := (mergeAppData inherits Object_entries).
Local Abbreviation resolveConflicts :=
  (resolveConflicts inherits Object_entries).
Local Abbreviation saveItem := (saveItem JSON_stringify).
Local Abbreviation restoreCached := (restoreCached JSON_stringify).
Local Abbreviation toText := (toText JSON_stringify).
Local Abbreviation forceReinitialization :=
  (forceReinitialization migratedDocument).
Local Abbreviation restoreFromBackup :=
  (restoreFromBackup inherits Object_entries JSON_stringify JSON_parse
     parseBackup migratedDocument).

Implicit Types (io : Faults) (st : Storage) (acc : Storage * nat).
Implicit Types dataToStore : list (string * Value).

(** *** The payload object *)

Lemma getProp_elem_of {A} (obj : list (string * A)) (key : string) (v : A) :
  getProp obj key = Some v → (key, v) ∈ obj.
Proof.
  induction obj as [|[k w] obj IH]; simpl; [done|].
  case_bool_decide as Hk.
  - intros [= ->]. subst. apply elem_of_cons. by left.
  - intros H. apply elem_of_cons. right. by apply IH.
Qed.

Lemma getProp_setProp {A} (obj : list (string * A)) (key : string) (v : A) :
  getProp (setProp obj key v) key = Some v.
Proof.
  induction obj as [|[k w] obj IH]; simpl.
  - by rewrite bool_decide_eq_true_2.
  - case_bool_decide as Hk; simpl.
    + by rewrite bool_decide_eq_true_2.
    + by rewrite bool_decide_eq_false_2.
Qed.

Lemma setProp_keys {A} (obj : list (string * A)) (key : string) (v w : A) :
  getProp obj key = Some w → (setProp obj key v).*1 = obj.*1.
Proof.
  induction obj as [|[k x] obj IH]; simpl; [done|].
  case_bool_decide as Hk; simpl; [done|].
  intros H. f_equal. by apply IH.
Qed.

(** *** Writes *)

Lemma setItem_Some io (key text : string) st st' :
  setItem io key text st = Some st' →
  cells st' = <[key := text]> (cells st)
  ∧ setLog st' = setLog st ++ [(key, text)].
Proof.
  unfold setItem. destruct (setItemFails io key text); [done|].
  by intros [= <-].
Qed.

Lemma clearExisting_setLog io (keep : bool) st :
  setLog (clearExisting io keep st) = setLog st.
Proof.
  unfold clearExisting.
  destruct (getAllKeysFails io); [done|].
  case_bool_decide; [done|]. by destruct (multiRemoveFails io).
Qed.

Lemma saveItem_counted io base acc (entry : string * Value) :
  counted base acc → counted base (saveItem io acc entry).
Proof.
  intros (writes & Hlog & Hlen). destruct acc as [st n], entry as [key value].
  unfold BackupRestore.saveItem.
  assert (Hwrite : counted base
            match setItem io key (toText value) st with
            | Some st' => (st', S n)
            | None => (st, n)
            end).
  { destruct (setItem io key (toText value) st) as [st'|] eqn:E.
    - apply setItem_Some in E as [_ E]. simpl in *.
      exists (writes ++ [(key, toText value)]). simpl.
      rewrite E, Hlog, length_app, (assoc_L (++)). simpl. split; [done|lia].
    - by exists writes. }
  destruct value; try exact Hwrite. by exists writes.
Qed.

Lemma foldl_saveItem_counted io base dataToStore acc :
  counted base acc → counted base (foldl (saveItem io) acc dataToStore).
Proof.
  revert acc. induction dataToStore as [|entry rest IH]; intros acc H;
    [done|].
  simpl. by apply IH, saveItem_counted.
Qed.

Lemma restoreCached_counted io base dataToStore
    (cachedLogs : list (string * Cached)) acc :
  counted base acc →
  counted base (restoreCached io dataToStore cachedLogs acc).
Proof.
  revert acc. induction cachedLogs as [|[logKey logValue] rest IH];
    intros acc H; [done|].
  simpl. destruct (truthyProp dataToStore logKey); [by apply IH|].
  destruct (setItem io logKey _ (fst acc)) as [st'|] eqn:E; [|done].
  apply IH. destruct H as (writes & Hlog & Hlen).
  apply setItem_Some in E as [_ E].
  exists (writes ++ [(logKey, toText (deref dataToStore logValue))]).
  simpl. rewrite E, Hlog, length_app, (assoc_L (++)). simpl.
  split; [done|lia].
Qed.

(** *** The cell of a key after the two save loops *)

Lemma saveItem_steps io acc (entry : string * Value) :
  saveItem io acc entry = acc
  ∨ ∃ st', setItem io (fst entry) (toText (snd entry)) (fst acc) = Some st'
           ∧ snd entry ≠ VNull
           ∧ saveItem io acc entry = (st', S (snd acc)).
Proof.
  destruct acc as [st n], entry as [key value]. simpl.
  destruct (setItem io key (toText value) st) as [st'|] eqn:E.
  - destruct value; first [by left | right; by exists st'].
  - left. by destruct value.
Qed.

Lemma foldl_saveItem_mono io dataToStore acc :
  snd acc ≤ snd (foldl (saveItem io) acc dataToStore).
Proof.
  revert acc. induction dataToStore as [|entry rest IH]; intros acc;
    [done|].
  simpl. etrans; [|apply IH].
  destruct (saveItem_steps io acc entry) as [->|(st' & _ & _ & ->)];
    simpl; lia.
Qed.

Lemma foldl_saveItem_other io dataToStore acc (key : string) :
  key ∉ dataToStore.*1 →
  cells (fst (foldl (saveItem io) acc dataToStore)) !! key
  = cells (fst acc) !! key.
Proof.
  revert acc. induction dataToStore as [|entry rest IH]; intros acc Hkey;
    [done|].
  rewrite fmap_cons, not_elem_of_cons in Hkey. destruct Hkey as [Hne Hrest].
  simpl. rewrite IH by done.
  destruct (saveItem_steps io acc entry) as [->|(st' & E & _ & ->)];
    [done|].
  apply setItem_Some in E as [E _]. simpl. rewrite E.
  by rewrite lookup_insert_ne.
Qed.

Lemma foldl_saveItem_cell io dataToStore acc (key : string) (value : Value) :
  NoDup dataToStore.*1 → (key, value) ∈ dataToStore → value ≠ VNull →
  (∀ text, setItemFails io key text = false) →
  cells (fst (foldl (saveItem io) acc dataToStore)) !! key
  = Some (toText value)
  ∧ snd acc < snd (foldl (saveItem io) acc dataToStore).
Proof.
  intros Hnodup Hin Hvalue Hok. revert acc Hnodup Hin.
  induction dataToStore as [|entry rest IH]; intros acc Hnodup Hin.
  { by apply elem_of_nil in Hin. }
  rewrite fmap_cons in Hnodup. apply NoDup_cons in Hnodup as [Hfresh Hnodup].
  apply elem_of_cons in Hin as [<-|Hin].
  - assert (Hstep : ∃ st', saveItem io acc (key, value) = (st', S (snd acc))
              ∧ cells st' !! key = Some (toText value)).
    { destruct (saveItem_steps io acc (key, value))
        as [Hsame|(st' & E & _ & ->)].
      - exfalso. destruct acc as [st n]. simpl in Hsame.
        unfold setItem in Hsame. rewrite Hok in Hsame.
        destruct value; try done; injection Hsame; lia.
      - exists st'. split; [done|].
        apply setItem_Some in E as [E _]. simpl in E. rewrite E.
        apply lookup_insert_eq. }
    destruct Hstep as (st' & Hstep & Hcell).
    cbn [foldl]. rewrite Hstep. split.
    + by rewrite foldl_saveItem_other.
    + pose proof (foldl_saveItem_mono io rest (st', S (snd acc))).
      simpl in *. lia.
  - cbn [foldl]. destruct (IH (saveItem io acc entry) Hnodup Hin)
      as [Hcell Hcount].
    split; [done|].
    destruct (saveItem_steps io acc entry) as [Hsame|(st' & _ & _ & Hs)];
      rewrite ?Hsame, ?Hs in Hcount |- *; simpl in *; lia.
Qed.

Lemma restoreCached_kept io dataToStore
    (cachedLogs : list (string * Cached)) acc (key : string) :
  truthyProp dataToStore key = true →
  cells (fst (restoreCached io dataToStore cachedLogs acc)) !! key
  = cells (fst acc) !! key
  ∧ snd acc ≤ snd (restoreCached io dataToStore cachedLogs acc).
Proof.
  intros Hkey. revert acc.
  induction cachedLogs as [|[logKey logValue] rest IH]; intros acc;
    [done|].
  simpl. destruct (truthyProp dataToStore logKey) eqn:Etruthy; [apply IH|].
  destruct (setItem io logKey _ (fst acc)) as [st'|] eqn:E; [|done].
  destruct (IH (st', S (snd acc))) as [Hcell Hcount].
  apply setItem_Some in E as [E _]. simpl in *.
  split; [|lia]. rewrite Hcell, E.
  apply lookup_insert_ne. intros ->. congruence.
Qed.

(** *** The reinitialisation of the store *)

Lemma forceReinitialization_setLog io st :
  ∃ extra, setLog (forceReinitialization io st) = setLog st ++ extra.
Proof.
  assert (Hsame : ∃ extra, setLog st = setLog st ++ extra)
    by (exists []; by rewrite (right_id_L [] (++))).
  unfold BackupRestore.forceReinitialization.
  repeat case_match; try done;
    unfold setItem; (case_match; [done|]); by eexists.
Qed.

Lemma forceReinitialization_other io st (key : string) :
  key ≠ "app_data" →
  cells (forceReinitialization io st) !! key = cells st !! key.
Proof.
  intros Hne. unfold BackupRestore.forceReinitialization.
  repeat case_match; try done;
    unfold setItem; (case_match; [done|]); cbn; by rewrite lookup_insert_ne.
Qed.

(** With a text under [app_data] nothing is migrated. *)
Lemma forceReinitialization_kept io st (text : string) :
  cells st !! "app_data" = Some text → text ≠ "" →
  forceReinitialization io st = st.
Proof.
  intros Hcell Htext. unfold BackupRestore.forceReinitialization.
  rewrite Hcell. destruct text; [done|]. by case_match.
Qed.

(** Without a unit number under the legacy keys nothing is migrated. *)
Lemma forceReinitialization_no_unit io st :
  cells st !! "unitNumber" = None → forceReinitialization io st = st.
Proof.
  intros Hcell. unfold BackupRestore.forceReinitialization.
  rewrite Hcell. by repeat case_match.
Qed.

(** C5: the restore throws on the empty input, leaving the storage as
    it is; and on every input it returns true if and only if at least
    one [setItem] went through during the restore: when none did, it
    throws, and it never returns false. *)
Theorem restore_reports_writes io (backupJson : string) st :
  restoreFromBackup io "" st = (Threw EmptyBackup, st)
  ∧ ∃ writes,
      let r := restoreFromBackup io backupJson st in
      setLog (snd r) = setLog st ++ writes
      ∧ ((fst r = Returned true) ↔ (writes ≠ []))
      ∧ ((∃ why, fst r = Threw why) ↔ (writes = []))
      ∧ fst r ≠ Returned false.
Proof.
  split; [reflexivity|].
  unfold BackupRestore.restoreFromBackup.
  assert (Hnone : ∀ why,
    let r := (Threw why, st) in
    setLog (snd r) = setLog st ++ []
    ∧ ((fst r = Returned true) ↔ ([] ≠ @nil (string * string)))
    ∧ ((∃ why, fst r = Threw why) ↔ (@nil (string * string) = []))
    ∧ fst r ≠ Returned false).
  { intros why. simpl. rewrite (right_id_L [] (++)).
    split_and!; [done| |split; [done|eauto]|done].
    split; [done|]. by intros []. }
  case_bool_decide; [by exists []; apply Hnone|].
  destruct (parseBackup backupJson) as [dataToStore|];
    [|by exists []; apply Hnone].
  set (existing := readExisting JSON_parse io st).
  set (resolved := resolveConflicts existing dataToStore).
  set (cleared := clearExisting io _ st).
  assert (Hcount : counted (setLog st)
            (restoreCached io resolved (cacheLogs dataToStore)
               (foldl (saveItem io) (cleared, 0) resolved))).
  { apply restoreCached_counted, foldl_saveItem_counted.
    exists []. simpl. split; [|done].
    subst cleared. by rewrite clearExisting_setLog, (right_id_L [] (++)). }
  destruct (restoreCached _ _ _ _) as [st' successCount].
  destruct Hcount as (writes & Hlog & Hlen). simpl in Hlog, Hlen.
  destruct successCount as [|n]; simpl.
  - exists writes. apply nil_length_inv in Hlen as ->.
    split_and!; [done| |split; [done|eauto]|done].
    split; [done|]. by intros [].
  - destruct (forceReinitialization_setLog io st') as [extra Hextra].
    exists (writes ++ extra).
    assert (writes ++ extra ≠ []) by (destruct writes; done).
    split_and!; [|done| |done].
    + by rewrite Hextra, Hlog, (assoc_L (++)).
    + split; [by intros [? ?]|done].
Qed.

(** C2, as amended: for every restore of a backup whose payload (an
    object, its keys distinct) has an [app_data] document onto a
    destination whose own [app_data] is a text that is not empty and
    parses as a document, both documents having a device list (the
    condition the merge block tests before it merges), with a storage
    that lets [app_data] be read and takes every write of [app_data],
    the text of a document never being empty: the restore succeeds, and
    the document it leaves under [app_data] has the destination's
    devices, in their places, followed by the backup's devices of ids
    the destination has not; so its ids are those of both sides, a
    backup device of an id the destination has is skipped, and a
    look-up by such an id finds the destination's device, name
    included.  When the backup document has a logs object, and no
    bucket of the destination that the backup lacks has a name under
    which the backup's logs object inherits a member ([__proto__],
    [constructor], ...), every bucket is the union by log-entry id of
    the two sides' buckets.  With [A] at the destination and [A'] (the
    id of [A]) and [B] (another id) in the backup, the devices are [A]
    and [B]. *)
Theorem restore_merges_app_data io (backupJson : string) st
    dataToStore (backup existing : AppDataJson) (text : string)
    (existingDevices backupDevices : list Device) :
  backupJson ≠ "" →
  parseBackup backupJson = Some dataToStore →
  NoDup dataToStore.*1 →
  getProp dataToStore "app_data" = Some (VAppData backup) →
  getItemFails io "app_data" = false →
  cells st !! "app_data" = Some text → text ≠ "" →
  JSON_parse text = Some (VAppData existing) →
  (∀ written, setItemFails io "app_data" written = false) →
  (∀ doc, JSON_stringify (VAppData doc) ≠ "") →
  doc_devices existing = Some existingDevices →
  doc_devices backup = Some backupDevices →
  ∃ merged mergedDevices,
    let r := restoreFromBackup io backupJson st in
    fst r = Returned true
    ∧ cells (snd r) !! "app_data" = Some (JSON_stringify (VAppData merged))
    ∧ doc_devices merged = Some mergedDevices
    ∧ mergedDevices
      = existingDevices
        ++ filter (λ d, dev_id d ∉ dev_id <$> existingDevices)
             backupDevices
    ∧ (∀ i, i ∈ dev_id <$> mergedDevices
            ↔ i ∈ dev_id <$> existingDevices ∨ i ∈ dev_id <$> backupDevices)
    ∧ (∀ d, d ∈ mergedDevices
            ↔ d ∈ existingDevices
              ∨ (d ∈ backupDevices
                 ∧ dev_id d ∉ dev_id <$> existingDevices))
    ∧ (∀ ident i d,
         list_find (λ x, dev_id x = ident) existingDevices = Some (i, d) →
         list_find (λ x, dev_id x = ident) mergedDevices = Some (i, d))
    ∧ (∀ A A' B,
         existingDevices = [A] → backupDevices = [A'; B] →
         dev_id A' = dev_id A → dev_id B ≠ dev_id A →
         mergedDevices = [A; B])
    ∧ (∀ backupLogs,
         doc_logs backup = Some backupLogs →
         enumerates Object_entries →
         (∀ name,
            is_Some (default ∅ (doc_logs existing) !! name) →
            backupLogs !! name = None →
            name ≠ "__proto__" ∧ inherits ObjectPrototype name = false) →
         ∃ mergedLogs,
           doc_logs merged = Some mergedLogs
           ∧ ∀ deviceId,
               let existingBucket :=
                 default ∅ (doc_logs existing) !! deviceId in
               let backupBucket := backupLogs !! deviceId in
               mergedLogs !! deviceId
               = unionById existingBucket backupBucket
               ∧ ∀ e, e ∈ default [] (mergedLogs !! deviceId)
                      ↔ e ∈ default [] existingBucket
                        ∨ (e ∈ default [] backupBucket
                           ∧ log_id e
                             ∉ log_id <$> default [] existingBucket)).
Proof.
  intros Hinput Hparse Hkeys Hprop Hget Hcell Htext Hread Hset Hshown
    Hexisting Hbackup.
  exists (mergeAppData existing backup),
         (mergeDevices existingDevices backupDevices).
  cbn zeta.
  assert (Hdevices : doc_devices (mergeAppData existing backup)
                     = Some (mergeDevices existingDevices backupDevices)).
  { unfold BackupRestore.mergeAppData. rewrite Hbackup, Hexisting. simpl.
    by destruct (doc_logs existing), (doc_logs backup). }
  split_and!.
  - (* the restore succeeds *)
    unfold BackupRestore.restoreFromBackup, readExisting.
    rewrite bool_decide_eq_false_2, Hparse, Hget, Hcell by done.
    rewrite bool_decide_eq_false_2, Hread by done.
    unfold BackupRestore.resolveConflicts. rewrite Hprop.
    cbn [truthy andb].
    set (resolved := setProp dataToStore "app_data" _).
    set (cleared := clearExisting io _ st).
    destruct (foldl_saveItem_cell io resolved (cleared, 0) "app_data"
                (VAppData (mergeAppData existing backup)))
      as [_ Hcount]; [| |done|done|].
    { subst resolved. by erewrite setProp_keys. }
    { subst resolved. apply getProp_elem_of, getProp_setProp. }
    destruct (restoreCached_kept io resolved (cacheLogs dataToStore)
                (foldl (saveItem io) (cleared, 0) resolved) "app_data")
      as [_ Hmono].
    { unfold truthyProp. subst resolved. by rewrite getProp_setProp. }
    destruct (restoreCached _ _ _ _) as [st' successCount].
    simpl in *. destruct successCount; [lia|done].
  - (* what it leaves under app_data *)
    unfold BackupRestore.restoreFromBackup, readExisting.
    rewrite bool_decide_eq_false_2, Hparse, Hget, Hcell by done.
    rewrite bool_decide_eq_false_2, Hread by done.
    unfold BackupRestore.resolveConflicts. rewrite Hprop.
    cbn [truthy andb].
    set (resolved := setProp dataToStore "app_data" _).
    set (cleared := clearExisting io _ st).
    destruct (foldl_saveItem_cell io resolved (cleared, 0) "app_data"
                (VAppData (mergeAppData existing backup)))
      as [Hwritten _]; [| |done|done|].
    { subst resolved. by erewrite setProp_keys. }
    { subst resolved. apply getProp_elem_of, getProp_setProp. }
    destruct (restoreCached_kept io resolved (cacheLogs dataToStore)
                (foldl (saveItem io) (cleared, 0) resolved) "app_data")
      as [Hkept _].
    { unfold truthyProp. subst resolved. by rewrite getProp_setProp. }
    destruct (restoreCached _ _ _ _) as [st' successCount] eqn:E.
    cbn [fst] in Hkept.
    assert (Hcell' : cells st' !! "app_data"
                     = Some (JSON_stringify
                               (VAppData (mergeAppData existing backup))))
      by by rewrite Hkept, Hwritten.
    destruct successCount; cbn [snd]; [done|].
    by rewrite (forceReinitialization_kept io st' _ Hcell').
  - done.
  - unfold mergeDevices. f_equal. apply list_filter_iff. intros d.
    by rewrite elem_of_list_to_set.
  - apply mergeDevices_ids.
  - apply elem_of_mergeDevices.
  - intros ident i d. apply mergeDevices_find.
  - intros A A' B -> ->. apply mergeDevices_example.
  - intros backupLogs Hlogs Henum Hnames.
    unfold BackupRestore.mergeAppData. rewrite Hbackup, Hexisting. simpl.
    rewrite Hlogs.
    destruct (doc_logs existing) as [existingLogs|]; simpl.
    + pose proof (lookupBucket_found inherits existingLogs backupLogs
                    Hnames) as Hfound.
      eexists; split; [done|]. intros deviceId.
      rewrite (mergeLogs_lookup inherits Object_entries) by done.
      split; [done|]. intros e. apply elem_of_unionById.
    + eexists; split; [done|]. intros deviceId.
      rewrite lookup_empty. split; [done|]. intros e.
      apply (elem_of_unionById None).
Qed.

End RestoreFacts.

(** ** The properties on the sample data *)

Section Runs.
Import DataStore Samples.
Local Open Scope nat_scope.
Local Open Scope list_scope.




(** Deleting the user whom the device of [gateState] authorises. *)
Lemma deleteUser_scrubs_devices_witness :
  authorizedUsers
    <$> devices (store (snd (deleteUser noStoreFaults "alice" gateState)))
  = [[]]
  ∧ ∀ d, d ∈ devices (store (snd (deleteUser noStoreFaults "alice"
                                    gateState))) →
         "alice" ∉ authorizedUsers d.
Proof.
  destruct (deleteUser_scrubs_devices noStoreFaults "alice" gateState)
    as (Hnone & Hdevices & _).
  split; [by rewrite Hdevices|exact Hnone].
Defined.


(** Authorising and deauthorising ["alice"], whom the device of
    [gateState] authorises. *)
Lemma authorization_toggle_witness :
  getDeviceById "gate" gateState
  = Some (withAuthorizedUsers (device "gate" "Front gate") ["alice"])
  ∧ authorizeUserForDevice noStoreFaults "gate" "alice" gateState
    = (false, gateState)
  ∧ fst (deauthorizeUserForDevice noStoreFaults "gate" "alice" gateState)
    = true.
Proof.
  assert (H : getDeviceById "gate" gateState
              = Some (withAuthorizedUsers (device "gate" "Front gate")
                        ["alice"])) by reflexivity.
  split; [done|].
  destruct (authorization_toggle noStoreFaults "gate" "alice" gateState
              _ H) as [Hpresent _].
  destruct Hpresent as (Hauth & st' & device' & Hdeauth & _).
  { apply elem_of_cons. by left. }
  split; [exact Hauth|]. by rewrite Hdeauth.
Defined.

(** Making the device of [gateState] the active one. *)
Lemma setActiveDevice_spec_witness :
  (Some "gate" = None
   ∨ ∃ d, d ∈ devices (store gateState) ∧ Some "gate" = Some (dev_id d))
  ∧ fst (setActiveDevice noStoreFaults (Some "gate") gateState) = true
  ∧ activeDeviceId
      (globalSettings
         (store (snd (setActiveDevice noStoreFaults (Some "gate")
                        gateState)))) = Some "gate".
Proof.
  assert (H : Some "gate" = None
              ∨ ∃ d, d ∈ devices (store gateState)
                     ∧ Some "gate" = Some (dev_id d)).
  { right. eexists. split; [apply elem_of_cons; by left|done]. }
  split; [done|].
  destruct (setActiveDevice_spec noStoreFaults (Some "gate") gateState)
    as (_ & Haccept & _).
  destruct (Haccept H) as (Htrue & _ & Hactive). by split.
Defined.

(** [setActiveDevice] accepts the empty string though no device has
    it as id, and a rejected call leaves a dangling [activeDeviceId]
    dangling: the claim fails on both counts. *)
Lemma setActiveDevice_counterexample :
  ¬ (∀ (setItemFails : AppData → bool) (deviceId : option string)
       (st : State),
       deviceId ≠ None →
       (∀ d, d ∈ devices (store st) → Some (dev_id d) ≠ deviceId) →
       fst (setActiveDevice setItemFails deviceId st) = false)
  ∧ ¬ (∀ (setItemFails : AppData → bool) (deviceId : option string)
         (st : State),
         let after :=
           store (snd (setActiveDevice setItemFails deviceId st)) in
         activeDeviceId (globalSettings after) = None
         ∨ ∃ d, d ∈ devices after
                ∧ activeDeviceId (globalSettings after)
                  = Some (dev_id d)).
Proof.
  split; intros Hclaim.
  - specialize (Hclaim noStoreFaults (Some "") emptyState).
    discriminate Hclaim; [done|]. by intros d Hd%elem_of_nil.
  - destruct (Hclaim noStoreFaults (Some "nope") danglingState)
      as [Hnone|(d & Hd%elem_of_nil & _)]; done.
Qed.

(** The restore example of the specification: [A] at the destination,
    [A'] and [B] in the backup. *)
Lemma restore_merges_app_data_witness :
  "backup" ≠ ""
  ∧ payloadOf backupDoc "backup"
    = Some [("app_data", BackupRestore.VAppData backupDoc)]
  ∧ NoDup [("app_data", BackupRestore.VAppData backupDoc)].*1
  ∧ BackupRestore.getProp
      [("app_data", BackupRestore.VAppData backupDoc)] "app_data"
    = Some (BackupRestore.VAppData backupDoc)
  ∧ BackupRestore.getItemFails noFaults "app_data" = false
  ∧ BackupRestore.cells destinationStorage !! "app_data"
    = Some "destination"
  ∧ "destination" ≠ ""
  ∧ readValue "destination" = Some (BackupRestore.VAppData destinationDoc)
  ∧ (∀ written,
       BackupRestore.setItemFails noFaults "app_data" written = false)
  ∧ (∀ doc, showValue (BackupRestore.VAppData doc) ≠ "")
  ∧ BackupRestore.doc_devices destinationDoc = Some [deviceA]
  ∧ BackupRestore.doc_devices backupDoc = Some [deviceA'; deviceB]
  ∧ ∃ merged,
      let r :=
        BackupRestore.restoreFromBackup objectPrototype entriesOf
          showValue readValue (payloadOf backupDoc) noMigration noFaults
          "backup" destinationStorage in
      fst r = BackupRestore.Returned true
      ∧ BackupRestore.cells (snd r) !! "app_data"
        = Some (showValue (BackupRestore.VAppData merged))
      ∧ BackupRestore.doc_devices merged = Some [deviceA; deviceB]
      ∧ dev_name <$> [deviceA; deviceB] = ["Front gate"; "Side gate"]
      ∧ ∃ mergedLogs,
          BackupRestore.doc_logs merged = Some mergedLogs
          ∧ mergedLogs !! "dev-A" = Some [logEntry "e2"; logEntry "e1"]
          ∧ mergedLogs !! "dev-B" = Some [logEntry "e3"].
Proof.
  assert (H3 : NoDup [("app_data", BackupRestore.VAppData backupDoc)].*1)
    by apply NoDup_singleton.
  assert (H9 : ∀ written,
            BackupRestore.setItemFails noFaults "app_data" written = false)
    by done.
  assert (H10 : ∀ doc, showValue (BackupRestore.VAppData doc) ≠ "").
  { intros doc. unfold showValue.
    destruct (BackupRestore.doc_devices doc); [|done].
    by rewrite append_cons. }
  split_and!; [done..|].
  destruct (restore_merges_app_data objectPrototype entriesOf showValue
              readValue (payloadOf backupDoc) noMigration noFaults "backup"
              destinationStorage
              [("app_data", BackupRestore.VAppData backupDoc)]
              backupDoc destinationDoc "destination"
              [deviceA] [deviceA'; deviceB])
    as (merged & mergedDevices & Hok & Hcell & Hdevices & _ & _ & _ & _
        & Hexample & Hlogs); [done..|].
  exists merged. cbn zeta. split_and!; [done|done| |done|].
  - rewrite Hdevices. f_equal.
    by apply (Hexample deviceA deviceA' deviceB).
  - destruct (Hlogs {[ "dev-A" := [logEntry "e1"; logEntry "e2"];
                       "dev-B" := [logEntry "e3"] ]})
      as (mergedLogs & Hmerged & Hbuckets); [done|by intros l| |].
    + intros name [bucket Hname]. cbn in Hname.
      apply lookup_singleton_Some in Hname as [<- _]. done.
    + exists mergedLogs. split; [done|].
      split; [by destruct (Hbuckets "dev-A") as [-> _]|].
      by destruct (Hbuckets "dev-B") as [-> _].
Defined.

(** Restoring the sample backup writes one key; restoring the empty
    input throws. *)
Lemma restore_reports_writes_witness :
  BackupRestore.restoreFromBackup objectPrototype entriesOf showValue
    readValue (payloadOf backupDoc) noMigration noFaults ""
    destinationStorage
  = (BackupRestore.Threw BackupRestore.EmptyBackup, destinationStorage)
  ∧ ∃ writes,
      BackupRestore.setLog
        (snd (BackupRestore.restoreFromBackup objectPrototype entriesOf
                showValue readValue (payloadOf backupDoc) noMigration
                noFaults "backup" destinationStorage)) = writes
      ∧ writes ≠ [].
Proof.
  destruct (restore_reports_writes objectPrototype entriesOf showValue
              readValue (payloadOf backupDoc) noMigration noFaults
              "backup" destinationStorage)
    as (Hempty & writes & Hlog & Hok & _).
  split; [exact Hempty|]. exists writes. split; [exact Hlog|].
  apply Hok. reflexivity.
Defined.

(** A backup whose [app_data] has no device list is not merged: it is
    written over the destination's document, whose devices are lost.
    The claim, which keeps the destination's devices on every restore
    of a payload that has an [app_data] document, fails there. *)
Lemma restore_without_devices_counterexample :
  ¬ (∀ (inherits : Prototype → string → bool)
       (Object_entries : gmap string (list LogEntry)
                         → list (string * list LogEntry))
       (JSON_stringify : BackupRestore.Value → string)
       (JSON_parse : string → option BackupRestore.Value)
       (parseBackup : string → option (list (string * BackupRestore.Value)))
       (migratedDocument : BackupRestore.Faults → BackupRestore.Storage
                           → option string)
       (io : BackupRestore.Faults) (backupJson : string)
       (st : BackupRestore.Storage)
       (dataToStore : list (string * BackupRestore.Value))
       (backup existing : BackupRestore.AppDataJson) (text : string),
       backupJson ≠ "" →
       parseBackup backupJson = Some dataToStore →
       NoDup dataToStore.*1 →
       BackupRestore.getProp dataToStore "app_data"
       = Some (BackupRestore.VAppData backup) →
       BackupRestore.getItemFails io "app_data" = false →
       BackupRestore.cells st !! "app_data" = Some text → text ≠ "" →
       JSON_parse text = Some (BackupRestore.VAppData existing) →
       (∀ written,
          BackupRestore.setItemFails io "app_data" written = false) →
       (∀ doc, JSON_stringify (BackupRestore.VAppData doc) ≠ "") →
       ∃ merged,
         BackupRestore.cells
           (snd (BackupRestore.restoreFromBackup inherits Object_entries
                   JSON_stringify JSON_parse parseBackup migratedDocument
                   io backupJson st))
         !! "app_data"
         = Some (JSON_stringify (BackupRestore.VAppData merged))
         ∧ ∀ d, d ∈ default [] (BackupRestore.doc_devices existing) →
                d ∈ default [] (BackupRestore.doc_devices merged)).
Proof.
  intros Hclaim.
  destruct (Hclaim objectPrototype entriesOf showValue readValue
              (payloadOf backupWithoutDevices) noMigration
              noFaults "backup" destinationStorage
              [("app_data", BackupRestore.VAppData backupWithoutDevices)]
              backupWithoutDevices destinationDoc "destination")
    as (merged & Hcell & Hkept);
    [done|done|apply NoDup_singleton|done..| |].
  { intros doc. unfold showValue.
    destruct (BackupRestore.doc_devices doc); [|done].
    by rewrite append_cons. }
  assert (Hno : BackupRestore.doc_devices merged = None).
  { assert (Hwritten :
      BackupRestore.cells
        (snd (BackupRestore.restoreFromBackup objectPrototype entriesOf
                showValue readValue (payloadOf backupWithoutDevices)
                noMigration noFaults "backup" destinationStorage))
      !! "app_data" = Some "no devices")
      by (vm_compute; reflexivity).
    rewrite Hwritten in Hcell. injection Hcell as Hcell.
    unfold showValue in Hcell.
    destruct (BackupRestore.doc_devices merged); [|done].
    rewrite append_cons in Hcell. discriminate Hcell. }
  specialize (Hkept deviceA). rewrite Hno in Hkept.
  apply (not_elem_of_nil deviceA), Hkept. apply elem_of_cons. by left.
Qed.

End Runs.

(** ** The commands of the screens and their descriptions *)

Section CommandFacts.
Import JSString AdminNumber LogManager Screens.
Local Open Scope nat_scope.

Lemma includes_cons (c : ascii) (s n : string) :
  includes (String c s) n = String.prefix n (String c s) || includes s n.
Proof. reflexivity. Qed.

(** A needle does not start inside a stretch that lacks its first
    character. *)
Lemma prefix_absent (x : ascii) (n stretch rest : string) :
  occurs x stretch = false → stretch ≠ "" →
  String.prefix (String x n) (stretch ++ rest) = false.
Proof.
  intros Hx Hne. destruct stretch as [|c stretch]; [done|].
  rewrite append_cons, prefix_cons. simpl in Hx.
  apply orb_false_elim in Hx as [-> _]. done.
Qed.

Lemma includes_skip_absent (x : ascii) (n stretch rest : string) :
  occurs x stretch = false →
  includes (stretch ++ rest) (String x n) = includes rest (String x n).
Proof.
  intros Hx. induction stretch as [|c stretch IH]; [done|].
  simpl in Hx. apply orb_false_elim in Hx as [Hc Hx].
  rewrite append_cons, includes_cons, prefix_cons, Hc, IH by done. done.
Qed.

Lemma occurs_phoneChars (c : ascii) (s : string) :
  phoneChars s = true → is_digit c = false → Ascii.eqb c "+" = false →
  occurs c s = false.
Proof.
  intros Hs Hc Hplus. induction s as [|x s IH]; simpl in *; [done|].
  apply andb_prop in Hs as [Hx Hs]. rewrite (IH Hs), orb_false_r.
  destruct (Ascii.eqb_spec c x) as [->|]; [|done].
  by rewrite Hc, Hplus in Hx.
Qed.

(** Settle [includes command needle = false] by a character of the
    needle that the command does not have. *)
Ltac absent c :=
  apply (excludes _ _ c);
  [reflexivity
  |rewrite ?occurs_app;
   repeat match goal with
          | H : allDigits ?s = true |- context [occurs ?x ?s] =>
              rewrite (occurs_allDigits x s H) by reflexivity
          | H : phoneChars ?s = true |- context [occurs ?x ?s] =>
              rewrite (occurs_phoneChars x s H) by reflexivity
          end;
   reflexivity].

(** X1: under any password made of digits, the three commands of the
    home screen are described as what they do: [CC] as the opening of
    the gate, [DD] as its closing, both in the category [relay], and
    [EE] as a status check, in the category [system]. *)
Theorem relay_commands_described (password : string) :
  allDigits password = true →
  describeSMS (turnRelayOn password)
  = ("Gate Open", "Opened gate/activated relay (ON)", relay)
  ∧ describeSMS (turnRelayOff password)
    = ("Gate Close", "Closed gate/deactivated relay (OFF)", relay)
  ∧ describeSMS (checkStatus password)
    = ("Status Check", "Requested device status", system).
Proof.
  intros HP. unfold describeSMS, turnRelayOn, turnRelayOff, checkStatus.
  split_and!.
  - by rewrite includes_skip by reflexivity.
  - assert (includes (password ++ "DD") "CC" = false) as -> by absent "C"%char.
    by rewrite includes_skip by reflexivity.
  - assert (includes (password ++ "EE") "CC" = false) as -> by absent "C"%char.
    assert (includes (password ++ "EE") "DD" = false) as -> by absent "D"%char.
    assert (includes (password ++ "EE") "P" = false) as -> by absent "P"%char.
    by rewrite includes_skip by reflexivity.
Qed.

(** Digits are one byte and one code unit each. *)
Lemma jsLength_allDigits (s : string) :
  allDigits s = true → jsLength s = String.length s.
Proof.
  induction s as [|c s IH]; [done|]. cbn [allDigits jsLength String.length].
  intros [Hc Hs]%andb_prop. rewrite (IH Hs).
  unfold is_digit in Hc. apply andb_prop in Hc as [H1%Nat.leb_le H2%Nat.leb_le].
  destruct (_ && _) eqn:E.
  - apply andb_prop in E as [E%Nat.leb_le _]. lia.
  - destruct (240 <=? _) eqn:E'; [apply Nat.leb_le in E'; lia|done].
Qed.

Lemma validatePasswords_true (newPassword confirmPassword : string) :
  validatePasswords newPassword confirmPassword = true
  ↔ isPassword newPassword = true ∧ newPassword = confirmPassword.
Proof.
  unfold validatePasswords, isPassword. split.
  - repeat case_bool_decide; try done.
    cbn [negb andb]. destruct (jsLength _ =? 4) eqn:E; [|done].
    cbn [negb orb andb].
    destruct (allDigits newPassword) eqn:Hd; [|done].
    by rewrite <- (jsLength_allDigits _ Hd), E.
  - intros [[Hlen Hd]%andb_prop <-].
    rewrite (jsLength_allDigits _ Hd), Hlen, Hd.
    rewrite (bool_decide_eq_true_2 (newPassword = newPassword)) by done.
    rewrite bool_decide_eq_false_2; [done|].
    intros ->. done.
Qed.

(** X2: [validatePasswords] lets through exactly the new passwords of four
    digits that are typed twice alike; the command that changes the
    password to one of them is described as a password change. *)
Theorem password_change_described
    (currentPassword newPassword confirmPassword : string) :
  (validatePasswords newPassword confirmPassword = true
   ↔ isPassword newPassword = true ∧ newPassword = confirmPassword)
  ∧ (allDigits currentPassword = true →
     validatePasswords newPassword confirmPassword = true →
     describeSMS (passwordChangeCommand currentPassword newPassword)
     = ("Password Change", "Changed device password", settings)).
Proof.
  split; [apply validatePasswords_true|].
  intros HP [[_ HN]%isPassword_inv _]%validatePasswords_true.
  unfold describeSMS, passwordChangeCommand.
  set (command := currentPassword ++ "P" ++ newPassword ++ newPassword ++ "#").
  assert (includes command "CC" = false) as ->
    by (subst command; absent "C"%char).
  assert (includes command "DD" = false) as ->
    by (subst command; absent "D"%char).
  subst command. by rewrite includes_skip by apply includes_here.
Qed.

(** X3: under any password made of digits, the two access-control
    commands are described as access control: [AUT] as the setting for
    authorised users only, [ALL] as the one for all callers. *)
Theorem access_control_described (password : string)
    (type : DataStore.AccessControl) :
  allDigits password = true →
  describeSMS (accessControlCommand password type)
  = ("Access Control",
     match type with
     | DataStore.AUT => "Set to authorized users only"
     | DataStore.ALL => "Set to allow all callers"
     end, settings).
Proof.
  intros HP. unfold describeSMS.
  destruct type; unfold accessControlCommand.
  - set (command := password ++ "AUT#").
    assert (includes command "CC" = false) as ->
      by (subst command; absent "C"%char).
    assert (includes command "DD" = false) as ->
      by (subst command; absent "D"%char).
    assert (includes command "P" = false) as ->
      by (subst command; absent "P"%char).
    assert (includes command "EE" = false) as ->
      by (subst command; absent "E"%char).
    assert (includes command "TEL" = false) as ->
      by (subst command; absent "E"%char).
    assert (includes command "AUT" = true) as ->
      by (subst command; apply includes_skip; reflexivity).
    by rewrite andb_false_r.
  - set (command := password ++ "ALL#").
    assert (includes command "CC" = false) as ->
      by (subst command; absent "C"%char).
    assert (includes command "DD" = false) as ->
      by (subst command; absent "D"%char).
    assert (includes command "P" = false) as ->
      by (subst command; absent "P"%char).
    assert (includes command "EE" = false) as ->
      by (subst command; absent "E"%char).
    assert (includes command "TEL" = false) as ->
      by (subst command; absent "E"%char).
    assert (includes command "AUT" = false) as ->
      by (subst command; absent "U"%char).
    assert (includes command "ALL" = true) as ->
      by (subst command; apply includes_skip; reflexivity).
    by rewrite andb_false_r.
Qed.

Lemma allDigits_stripNonDigits (s : string) :
  allDigits (stripNonDigits s) = true.
Proof.
  induction s as [|c s IH]; simpl; [done|].
  destruct (is_digit c) eqn:E; simpl; by rewrite ?E.
Qed.

Lemma stripNonDigits_allDigits (s : string) :
  allDigits s = true → stripNonDigits s = s.
Proof.
  induction s as [|c s IH]; simpl; [done|].
  intros [-> Hs]%andb_prop. by rewrite IH.
Qed.

Lemma allDigits_sliceTo (n : nat) (s : string) :
  allDigits s = true → allDigits (sliceTo n s) = true.
Proof.
  revert s; induction n as [|n IH]; intros [|c s]; simpl; try done.
  intros [-> Hs]%andb_prop. by apply IH.
Qed.

Lemma length_sliceTo (n : nat) (s : string) :
  String.length (sliceTo n s) ≤ n.
Proof.
  revert s; induction n as [|n IH]; intros [|c s]; simpl; try lia.
  specialize (IH s). lia.
Qed.

Lemma sliceTo_all (n : nat) (s : string) :
  String.length s ≤ n → sliceTo n s = s.
Proof.
  revert s; induction n as [|n IH]; intros [|c s]; simpl; try done; try lia.
  intros Hlen. rewrite IH; [done|lia].
Qed.

Lemma length_fill (k : nat) (c : ascii) (s : string) :
  String.length (fill k c s) = k + String.length s.
Proof. induction k as [|k IH]; simpl; [done|]. by rewrite IH. Qed.

Lemma allDigits_fill (k : nat) (s : string) :
  allDigits (fill k "0" s) = allDigits s.
Proof. induction k as [|k IH]; simpl; done. Qed.

Lemma isSerial_padStart (s : string) :
  String.length s ≤ 3 → allDigits s = true →
  isSerial (padStart 3 "0" s) = true.
Proof.
  intros Hlen Hs. unfold isSerial, padStart.
  rewrite (jsLength_allDigits _ Hs).
  rewrite length_fill, allDigits_fill, Hs, andb_true_r.
  apply Nat.eqb_eq. lia.
Qed.

Lemma padStart_full (n : nat) (c : ascii) (s : string) :
  n ≤ jsLength s → padStart n c s = s.
Proof.
  intros Hlen. unfold padStart.
  by replace (n - jsLength s) with 0 by lia.
Qed.

Lemma isSerial_latchTime (text : string) :
  isSerial (padStart 3 "0" (handleLatchTimeChange text)) = true.
Proof.
  unfold handleLatchTimeChange.
  apply isSerial_padStart; [apply length_sliceTo|].
  apply allDigits_sliceTo, allDigits_stripNonDigits.
Qed.

(** X4: the latch time that [setLatchTime] places in its command has three
    digits whatever was typed into the field, and is the text typed
    when that is three digits. *)
Theorem latch_time_three_digits (text : string) :
  isSerial (padStart 3 "0" (handleLatchTimeChange text)) = true
  ∧ (isSerial text = true →
     padStart 3 "0" (handleLatchTimeChange text) = text).
Proof.
  split; [apply isSerial_latchTime|].
  unfold handleLatchTimeChange.
  - intros [Hlen Hd]%isSerial_inv.
    rewrite stripNonDigits_allDigits by done.
    rewrite sliceTo_all, padStart_full; [done| |lia].
    rewrite jsLength_allDigits by done. lia.
Qed.

Lemma latchTimeAt_command (P L : string) :
  isPassword P = true → isSerial L = true →
  search latchTimeAt (P ++ "GOT" ++ L ++ "#") = Some L.
Proof.
  intros [HP1 HP2]%isPassword_inv [HS1 HS2]%isSerial_inv.
  apply search_here. unfold latchTimeAt.
  rewrite digits_app by done. cbn -[digits].
  rewrite !append_cons, append_nil. cbn -[digits].
  rewrite digits_app by done. reflexivity.
Qed.

(** X5: the latch-time command of a 4-digit password is described by the
    seconds it carries: [000] as the momentary mode, [999] as the toggle
    mode, any other as that number of seconds, without its leading
    zeros. *)
Theorem latch_time_described (password text : string) :
  isPassword password = true →
  let seconds := padStart 3 "0" (handleLatchTimeChange text) in
  describeSMS (latchTimeCommand password (handleLatchTimeChange text))
  = ("Relay Timing",
     if bool_decide (seconds = "000") then
       "Set relay to momentary mode (pulse)"
     else if bool_decide (seconds = "999") then
       "Set relay to toggle mode (stays ON until next call)"
     else "Set relay to close for " ++ parseIntText seconds ++ " seconds",
     settings).
Proof.
  intros HP seconds.
  pose proof (isPassword_inv _ HP) as [_ HPd].
  pose proof (isSerial_latchTime text) as HL. fold seconds in HL.
  pose proof (isSerial_inv _ HL) as [_ HLd].
  unfold describeSMS, latchTimeCommand. fold seconds.
  set (command := password ++ "GOT" ++ seconds ++ "#").
  assert (includes command "CC" = false) as ->
    by (subst command; absent "C"%char).
  assert (includes command "DD" = false) as ->
    by (subst command; absent "D"%char).
  assert (includes command "P" = false) as ->
    by (subst command; absent "P"%char).
  assert (includes command "EE" = false) as ->
    by (subst command; absent "E"%char).
  assert (includes command "TEL" = false) as ->
    by (subst command; absent "E"%char).
  assert (includes command "A" = false) as ->
    by (subst command; absent "A"%char).
  assert (includes command "AUT" = false) as ->
    by (subst command; absent "A"%char).
  assert (includes command "ALL" = false) as ->
    by (subst command; absent "A"%char).
  assert (includes command "GOT" = true) as ->
    by (subst command; apply includes_skip, includes_here).
  cbn [andb]. subst command.
  rewrite (latchTimeAt_command password seconds) by done.
  f_equal. f_equal.
  rewrite (bool_decide_ext (Some seconds = Some "000") (seconds = "000")),
    (bool_decide_ext (Some seconds = Some "999") (seconds = "999"))
    by (split; congruence).
  done.
Qed.

Lemma allDigits_substring1 (s : string) :
  allDigits s = true → allDigits (substring1 s) = true.
Proof. destruct s as [|c s]; simpl; [done|]. by intros [_ ?]%andb_prop. Qed.

Lemma allDigits_formatAdminNumber (adminNumber : string) :
  allDigits (formatAdminNumber adminNumber) = true.
Proof.
  unfold formatAdminNumber.
  pose proof (allDigits_stripNonDigits adminNumber) as Hd.
  pose proof (allDigits_substring1 _ Hd) as Hd'.
  repeat case_match; rewrite ?append_cons, ?append_nil; simpl; done.
Qed.

Lemma describe_TEL (password number : string) :
  allDigits password = true → allDigits number = true →
  describeSMS (password ++ "TEL" ++ number ++ "#")
  = ("Admin Registration", "Registered admin phone number", settings).
Proof.
  intros HP HN. unfold describeSMS.
  set (command := password ++ "TEL" ++ number ++ "#").
  assert (includes command "CC" = false) as ->
    by (subst command; absent "C"%char).
  assert (includes command "DD" = false) as ->
    by (subst command; absent "D"%char).
  assert (includes command "P" = false) as ->
    by (subst command; absent "P"%char).
  assert (includes command "EE" = false) as ->.
  { subst command.
    rewrite includes_skip_absent by by apply occurs_allDigits.
    rewrite !append_cons, append_nil, !includes_cons, !prefix_cons.
    rewrite includes_skip_absent by by apply occurs_allDigits.
    destruct number; reflexivity. }
  assert (includes command "TEL" = true) as ->
    by (subst command; apply includes_skip, includes_here).
  done.
Qed.

(** X6: the command that registers an admin number is described as an admin
    registration for every text typed as the number. *)
Theorem admin_registration_described (password adminNumber : string) :
  allDigits password = true →
  describeSMS (registerAdminCommand password adminNumber)
  = ("Admin Registration", "Registered admin phone number", settings).
Proof.
  intros HP. apply describe_TEL; [done|apply allDigits_formatAdminNumber].
Qed.

Lemma append_assoc (a b c : string) : (a ++ b) ++ c = a ++ b ++ c.
Proof.
  induction a as [|x a IH]; [done|]. by rewrite !append_cons, IH.
Qed.

Lemma notHashes_app (run rest : string) :
  occurs "#" run = false →
  notHashes (run ++ String "#" rest) = (run, String "#" rest).
Proof.
  intros Hrun. induction run as [|c run IH]; [done|].
  cbn [occurs] in Hrun. apply orb_false_elim in Hrun as [Hc Hrun].
  rewrite append_cons. cbn [notHashes].
  rewrite Ascii.eqb_sym, Hc, IH by done. done.
Qed.

Lemma isPhoneNumber_inv (phone : string) :
  isPhoneNumber phone = true → phone ≠ "" ∧ phoneChars phone = true.
Proof.
  unfold isPhoneNumber. intros [Hne ?]%andb_prop. split; [|done].
  apply negb_true_iff in Hne. by apply bool_decide_eq_false in Hne.
Qed.

Lemma addUserAt_command (P S phone tail : string) :
  isPassword P = true → isSerial S = true → isPhoneNumber phone = true →
  search addUserAt (P ++ "A" ++ S ++ "#" ++ phone ++ "#" ++ tail)
  = Some (S, phone).
Proof.
  intros [HP1 HP2]%isPassword_inv [HS1 HS2]%isSerial_inv
    [Hne Hphone]%isPhoneNumber_inv.
  apply search_here. unfold addUserAt.
  rewrite digits_app by done. cbn -[digits].
  rewrite append_cons, append_nil. cbn -[digits].
  rewrite digits_app by done. cbn -[notHashes1].
  rewrite !append_cons, append_nil. cbn -[notHashes1].
  unfold notHashes1. rewrite notHashes_app by by apply occurs_phoneChars.
  destruct phone; [done|]. reflexivity.
Qed.

(** A stretch of digits behind a [#] is not followed by a second [#]
    at once. *)
Lemma no_double_hash_times (T1 T2 : string) :
  allDigits T1 = true → allDigits T2 = true → T1 ≠ "" → T2 ≠ "" →
  includes ("#" ++ T1 ++ "#" ++ T2 ++ "#") "##" = false.
Proof.
  intros H1 H2 Hne1 Hne2.
  rewrite ?append_cons, ?append_nil, includes_cons, prefix_cons.
  cbn [Ascii.eqb Bool.eqb andb].
  rewrite prefix_absent, includes_skip_absent
    by (done || by apply occurs_allDigits).
  rewrite ?append_cons, ?append_nil, includes_cons, prefix_cons.
  cbn [Ascii.eqb Bool.eqb andb orb].
  rewrite prefix_absent, includes_skip_absent
    by (done || by apply occurs_allDigits).
  reflexivity.
Qed.

(** X7: every add-user command of a 4-digit password, a 3-digit serial, a
    phone number of digits and [+], with or without the two times, is
    described by the phone number and the serial, not by the password. *)
Theorem add_user_described (P S phone T1 T2 : string) :
  isPassword P = true → isSerial S = true → isPhoneNumber phone = true →
  allDigits T1 = true → allDigits T2 = true →
  describeSMS (addUserCommand P S phone T1 T2)
  = ("User Management", "Added user " ++ phone ++ " at position " ++ S, user).
Proof.
  intros HP HS Hphone H1 H2.
  pose proof (isPassword_inv _ HP) as [_ HPd].
  pose proof (isSerial_inv _ HS) as [_ HSd].
  pose proof (isPhoneNumber_inv _ Hphone) as [Hne Hchars].
  assert (∃ times,
    addUserCommand P S phone T1 T2
    = P ++ "A" ++ S ++ "#" ++ phone ++ "#" ++ times
    ∧ (∀ x, is_digit x = false → Ascii.eqb x "#" = false →
            occurs x times = false)
    ∧ includes ("#" ++ times) "##" = false)
    as (times & -> & Htimes & Hhash).
  { unfold addUserCommand. case_match eqn:E.
    - apply andb_prop in E as [E1 E2].
      apply negb_true_iff, bool_decide_eq_false in E1, E2.
      exists (T1 ++ "#" ++ T2 ++ "#"). rewrite !append_assoc.
      split; [done|]. split.
      + intros x Hx Hh.
        rewrite !occurs_app, (occurs_allDigits x T1),
          (occurs_allDigits x T2) by done.
        cbn [occurs]. by rewrite Hh.
      + by apply no_double_hash_times.
    - exists "". change ("#" ++ "") with "#". done. }
  unfold describeSMS.
  set (command := P ++ "A" ++ S ++ "#" ++ phone ++ "#" ++ times).
  assert (Hex : ∀ n x, occurs x n = true → is_digit x = false →
                  Ascii.eqb x "A" = false → Ascii.eqb x "#" = false →
                  Ascii.eqb x "+" = false →
                  includes command n = false).
  { intros n x Hn Hx HA Hh Hplus. apply (excludes _ _ x Hn).
    subst command.
    rewrite !occurs_app, (occurs_allDigits x P), (occurs_allDigits x S),
      (occurs_phoneChars x phone), (Htimes x) by done.
    simpl. by rewrite HA, Hh. }
  rewrite (Hex "CC" "C"%char), (Hex "DD" "D"%char), (Hex "P" "P"%char),
    (Hex "EE" "E"%char), (Hex "TEL" "T"%char), (Hex "ALL" "L"%char),
    (Hex "AUT" "U"%char) by reflexivity.
  assert (includes command "A" = true) as ->
    by (subst command; apply includes_skip, includes_here).
  assert (includes command "##" = false) as ->.
  { subst command.
    rewrite includes_skip_absent by by apply occurs_allDigits.
    rewrite ?append_cons, ?append_nil, includes_cons, prefix_cons.
    cbn [Ascii.eqb Bool.eqb andb orb].
    rewrite includes_skip_absent by by apply occurs_allDigits.
    rewrite ?append_cons, ?append_nil, includes_cons, prefix_cons.
    cbn [Ascii.eqb Bool.eqb andb orb].
    rewrite prefix_absent, includes_skip_absent
      by (done || by apply occurs_phoneChars).
    done. }
  cbn [andb negb]. subst command.
  by rewrite addUserAt_command.
Qed.

End CommandFacts.

(** ** Masked passwords *)

Section SanitizeFacts.
Import JSString LogManager.
Local Open Scope nat_scope.

Lemma sanitizeLogDetails_cons (a : ascii) (s1 : string) :
  sanitizeLogDetails (String a s1)
  = if passwordAt (String a s1)
    then match s1 with
         | String _ (String _ (String _ (String e rest))) =>
             "****" ++ String e (sanitizeLogDetails rest)
         | _ => String a (sanitizeLogDetails s1)
         end
    else String a (sanitizeLogDetails s1).
Proof.
  destruct s1 as [|b [|c [|d [|e rest]]]]; reflexivity.
Qed.

Lemma showsPassword_cons (c : ascii) (s : string) :
  showsPassword (String c s) = passwordAt (String c s) || showsPassword s.
Proof. reflexivity. Qed.

Lemma passwordAt_inv (s : string) :
  passwordAt s = true →
  ∃ a b c d e rest,
    s = String a (String b (String c (String d (String e rest))))
    ∧ is_digit a = true ∧ is_digit b = true ∧ is_digit c = true
    ∧ is_digit d = true ∧ is_upper e = true.
Proof.
  destruct s as [|a [|b [|c [|d [|e rest]]]]]; try done.
  cbn [passwordAt]. intros H.
  apply andb_prop in H as [H He]. apply andb_prop in H as [H Hd].
  apply andb_prop in H as [H Hc]. apply andb_prop in H as [Ha Hb].
  by exists a, b, c, d, e, rest.
Qed.

Lemma passwordAt_no_digit (a : ascii) (s : string) :
  is_digit a = false → passwordAt (String a s) = false.
Proof.
  intros Ha. destruct (passwordAt (String a s)) eqn:E; [|done].
  apply passwordAt_inv in E as (? & ? & ? & ? & ? & ? & [= <- _] & ? & _).
  congruence.
Qed.

Lemma is_upper_not_digit (c : ascii) : is_upper c = true → is_digit c = false.
Proof.
  unfold is_upper, is_digit. intros [H1 H2]%andb_prop.
  apply Nat.leb_le in H1, H2.
  apply andb_false_iff. right. apply Nat.leb_gt. lia.
Qed.

(** The output starts with a digit or a capital only where the input
    does, and goes on as the output of the rest. *)
Lemma sanitizeLogDetails_head (t u : string) (x : ascii) :
  sanitizeLogDetails t = String x u →
  is_digit x = true ∨ is_upper x = true →
  ∃ t', t = String x t' ∧ u = sanitizeLogDetails t'.
Proof.
  destruct t as [|a t]; [done|]. rewrite sanitizeLogDetails_cons.
  destruct (passwordAt (String a t)) eqn:E.
  - apply passwordAt_inv in E
      as (? & b & c & d & e & rest & [= <- ->] & _).
    intros [= <- _] [?|?]; done.
  - intros [= <- <-] _. by exists t.
Qed.

Lemma sanitizeLogDetails_masks (n : nat) (s : string) :
  String.length s ≤ n → showsPassword (sanitizeLogDetails s) = false.
Proof.
  revert s. induction (lt_wf n) as [n _ IH]. intros [|a s1] Hlen; [done|].
  rewrite sanitizeLogDetails_cons.
  destruct (passwordAt (String a s1)) eqn:E.
  - apply passwordAt_inv in E
      as (? & b & c & d & e & rest & [= <- ->] & _ & _ & _ & _ & He).
    rewrite !append_cons, append_nil, !showsPassword_cons.
    rewrite !passwordAt_no_digit by (done || by apply is_upper_not_digit).
    cbn [orb]. apply (IH (String.length rest)); simpl in *; lia.
  - rewrite showsPassword_cons.
    rewrite (IH (String.length s1)) by (simpl in *; lia).
    rewrite orb_false_r.
    destruct (passwordAt (String a (sanitizeLogDetails s1))) eqn:E'; [|done].
    apply passwordAt_inv in E'
      as (? & b & c & d & e & rest & [= <- H1] & Ha & Hb & Hc & Hd & He).
    apply sanitizeLogDetails_head in H1 as (t1 & -> & H2); [|by left].
    symmetry in H2.
    apply sanitizeLogDetails_head in H2 as (t2 & -> & H3); [|by left].
    symmetry in H3.
    apply sanitizeLogDetails_head in H3 as (t3 & -> & H4); [|by left].
    symmetry in H4.
    apply sanitizeLogDetails_head in H4 as (t4 & -> & _); [|by right].
    cbn [passwordAt] in E. by rewrite Ha, Hb, Hc, Hd, He in E.
Qed.

(** X8: what [sanitizeLogDetails] returns never shows four digits in front
    of a capital letter, whatever the command. *)
Theorem sanitizeLogDetails_hides_passwords (command : string) :
  showsPassword (sanitizeLogDetails command) = false.
Proof. by apply (sanitizeLogDetails_masks (String.length command)). Qed.

End SanitizeFacts.

(** ** The admin number that is sent *)

Section AdminFormatFacts.
Import JSString AdminNumber.
Local Open Scope nat_scope.

Ltac starts :=
  repeat (rewrite ?prefix_cons, ?prefix_nil, ?append_cons, ?append_nil;
          cbn [negb andb orb substring1];
          try match goal with
              | |- context [Ascii.eqb ?a ?b] =>
                  destruct (Ascii.eqb_spec a b); subst
              end;
          try done).

Lemma startsWith_formatAdminNumber (adminNumber : string) :
  startsWith (formatAdminNumber adminNumber) "00" = true.
Proof.
  unfold formatAdminNumber.
  destruct (negb (startsWith _ "00")) eqn:E.
  - apply prefix_app.
  - by apply negb_false_iff in E.
Qed.

Lemma startsWith_formatAdminNumber_setup (adminNumber : string) :
  startsWith (formatAdminNumber_setup adminNumber) "00" = true.
Proof.
  unfold formatAdminNumber_setup.
  destruct (startsWith _ "0" && negb (startsWith _ "00")) eqn:E1;
    [apply prefix_app|].
  destruct (negb (startsWith _ "00")) eqn:E; [apply prefix_app|].
  by apply negb_false_iff in E.
Qed.

Lemma allDigits_formatAdminNumber_setup (adminNumber : string) :
  allDigits (formatAdminNumber_setup adminNumber) = true.
Proof.
  unfold formatAdminNumber_setup.
  pose proof (allDigits_stripNonDigits adminNumber) as Hd.
  pose proof (allDigits_substring1 _ Hd) as Hd'.
  repeat case_match; rewrite ?append_cons, ?append_nil; simpl; done.
Qed.

(** X9: both screens send an admin number made of digits that starts with
    [00]; what the setup screen sends is left as it is when it is typed
    in again. *)
Theorem admin_number_sent (adminNumber : string) :
  allDigits (formatAdminNumber adminNumber) = true
  ∧ startsWith (formatAdminNumber adminNumber) "00" = true
  ∧ allDigits (formatAdminNumber_setup adminNumber) = true
  ∧ startsWith (formatAdminNumber_setup adminNumber) "00" = true
  ∧ formatAdminNumber_setup (formatAdminNumber_setup adminNumber)
    = formatAdminNumber_setup adminNumber.
Proof.
  split_and!.
  - apply allDigits_formatAdminNumber.
  - apply startsWith_formatAdminNumber.
  - apply allDigits_formatAdminNumber_setup.
  - apply startsWith_formatAdminNumber_setup.
  - pose proof (allDigits_formatAdminNumber_setup adminNumber) as Hd.
    pose proof (startsWith_formatAdminNumber_setup adminNumber) as H00.
    unfold formatAdminNumber_setup at 1.
    rewrite (stripNonDigits_allDigits _ Hd), H00.
    by rewrite andb_false_r.
Qed.

(** X10: the command preview under the input field shows the number that is
    sent exactly when the digits typed do not start with [0] (first
    setup step), or do not start with a single [0] (setup screen). *)
Theorem preview_shows_number_sent (adminNumber : string) :
  (previewAdminNumber adminNumber = formatAdminNumber adminNumber
   ↔ startsWith (stripNonDigits adminNumber) "0" = false)
  ∧ (previewAdminNumber adminNumber = formatAdminNumber_setup adminNumber
     ↔ startsWith (stripNonDigits adminNumber) "0"
       && negb (startsWith (stripNonDigits adminNumber) "00") = false).
Proof.
  unfold previewAdminNumber, formatAdminNumber, formatAdminNumber_setup,
    startsWith.
  destruct (stripNonDigits adminNumber) as [|x [|y [|z rest]]]; starts;
    (split; split; try done;
     intros H; apply (f_equal String.length) in H; simpl in H; lia).
Qed.

End AdminFormatFacts.

(** ** The next free serial position *)

Section SerialFacts.
Import JSString Screens.
Local Open Scope nat_scope.

Lemma nextFreeSerial_spec (turns : nat) (used : list Z) (k : nat) :
  let n := nextFreeSerial turns used k in
  k ≤ n ≤ k + turns
  ∧ (∀ m, k ≤ m < n → Z.of_nat m ∈ used ∧ m ≤ 200)
  ∧ (n < k + turns → ¬ (Z.of_nat n ∈ used ∧ n ≤ 200)).
Proof.
  revert k. induction turns as [|turns IH]; intros k; cbn [nextFreeSerial].
  - split; [lia|]. split; intros; lia.
  - destruct (bool_decide (Z.of_nat k ∈ used) && (k <=? 200)) eqn:E.
    + apply andb_prop in E as [Hin Hle].
      apply bool_decide_eq_true in Hin. apply Nat.leb_le in Hle.
      destruct (IH (S k)) as (Hrange & Hbelow & Hat).
      split; [lia|]. split.
      * intros m Hm. destruct (decide (m = k)) as [->|]; [done|].
        apply Hbelow. lia.
      * intros Hn. apply Hat. lia.
    + split; [lia|]. split; [intros; lia|].
      intros _ [Hin Hle].
      apply andb_false_iff in E as [E|E].
      * by apply bool_decide_eq_false in E.
      * apply Nat.leb_gt in E. lia.
Qed.

(** A position from 1 to 200 is written with three digits that read
    back as the position. *)
Lemma serial_text (n : nat) :
  1 ≤ n ≤ 200 →
  isSerial (padStart 3 "0" (numberToString n)) = true
  ∧ parseInt (padStart 3 "0" (numberToString n)) = Some (Z.of_nat n).
Proof.
  intros Hn.
  assert (Hall : forallb
            (λ n, isSerial (padStart 3 "0" (numberToString n))
                  && bool_decide
                       (parseInt (padStart 3 "0" (numberToString n))
                        = Some (Z.of_nat n)))
            (seq 1 200) = true) by (vm_compute; reflexivity).
  rewrite forallb_forall in Hall.
  specialize (Hall n). rewrite in_seq in Hall.
  destruct (andb_prop _ _ (Hall ltac:(lia))) as [H1 H2].
  by apply bool_decide_eq_true in H2.
Qed.

(** X11: with the serial field empty, [generateNextSerial] fills in the
    least position from 1 to 200 that no user has, written with three
    digits; it leaves the field empty only when all 200 are taken. *)
Theorem generateNextSerial_least_free (users : list DataStore.User) :
  match generateNextSerial "" users with
  | Some text =>
      ∃ n, 1 ≤ n ≤ 200
           ∧ text = padStart 3 "0" (numberToString n)
           ∧ isSerial text = true
           ∧ parseInt text = Some (Z.of_nat n)
           ∧ (Z.of_nat n ∉ usedSerials users)
           ∧ ∀ m, 1 ≤ m < n → Z.of_nat m ∈ usedSerials users
  | None => ∀ m, 1 ≤ m ≤ 200 → Z.of_nat m ∈ usedSerials users
  end.
Proof.
  unfold generateNextSerial. cbn [bool_decide negb].
  rewrite bool_decide_eq_true_2 by done. cbn [negb].
  destruct users as [|user users].
  - exists 1. split; [lia|]. split; [done|]. split; [done|]. split; [done|].
    split; [apply not_elem_of_nil|]. intros; lia.
  - set (used := usedSerials (user :: users)).
    destruct (nextFreeSerial_spec 200 used 1) as (Hrange & Hbelow & Hat).
    destruct (nextFreeSerial 200 used 1 <=? 200) eqn:E.
    + apply Nat.leb_le in E.
      set (n := nextFreeSerial 200 used 1) in *.
      destruct (serial_text n) as [Hserial Hread]; [lia|].
      exists n. split; [lia|]. split; [done|]. split; [done|].
      split; [done|]. split.
      * intros Hin. apply Hat; [lia|done].
      * intros m Hm. by apply Hbelow.
    + apply Nat.leb_gt in E. intros m Hm. apply Hbelow. lia.
Qed.

(** A serial that was typed is never replaced. *)
Lemma generateNextSerial_keeps (newUserSerial : string)
    (users : list DataStore.User) :
  newUserSerial ≠ "" → generateNextSerial newUserSerial users = None.
Proof.
  intros Hne. unfold generateNextSerial.
  by rewrite bool_decide_eq_false_2.
Qed.

End SerialFacts.

(** ** Reading and clearing the log manager's buffers *)

Section LogViewFacts.
Import JSString LogManager.
Local Open Scope nat_scope.
Local Open Scope list_scope.








End LogViewFacts.

(** ** Users of a device *)

Section DeviceUserFacts.
Import JSString DataStore.
Local Open Scope nat_scope.
Local Open Scope list_scope.

Variable setItemFails : AppData → bool.

Local Abbreviation findUser s :=
  (λ userId, snd <$> list_find (λ u, user_id u = userId) (users s)).

Lemma getDeviceUsers_found (deviceId : string) (st : State) (i : nat)
    (device : Device) :
  list_find (λ d, dev_id d = deviceId) (devices (store st))
  = Some (i, device) →
  getDeviceUsers deviceId st
  = omap (findUser (store st)) (authorizedUsers device).
Proof. intros H. unfold getDeviceUsers. by rewrite H. Qed.

Lemma omap_ext_elem_of {A B} (f g : A → option B) (l : list A) :
  (∀ x, x ∈ l → f x = g x) → omap f l = omap g l.
Proof.
  induction l as [|x l IH]; intros H; [done|]. cbn [omap list_omap].
  rewrite (H x) by apply list_elem_of_here.
  rewrite IH; [done|]. intros y Hy. apply H. by apply list_elem_of_further.
Qed.

(** The lookup of a user id among the users and one more user, of a
    fresh id. *)
Lemma findUser_app (us : list User) (u : User) (userId : string) :
  user_id u ∉ user_id <$> us →
  snd <$> list_find (λ x, user_id x = userId) (us ++ [u])
  = if bool_decide (userId = user_id u) then Some u
    else snd <$> list_find (λ x, user_id x = userId) us.
Proof.
  intros Hfresh.
  destruct (list_find (λ x, user_id x = userId) us) as [[k x]|] eqn:E.
  - rewrite (list_find_app_l _ _ _ _ _ E).
    apply list_find_Some in E as (Hk & Hx & _).
    rewrite bool_decide_eq_false_2; [done|].
    intros ->. apply Hfresh. rewrite <- Hx.
    apply list_elem_of_fmap_2. by eapply list_elem_of_lookup_2.
  - rewrite list_find_app_r by done. cbn [list_find].
    case_bool_decide as Hu; case_decide as Hd; try done; congruence.
Qed.

(** X14: a user that is added and authorised for a device is listed last
    among the users of the device and among all users; once the
    authorisation is taken back the device lists its users as before
    and the user stays among all users. *)
Theorem added_user_round_trip (newId deviceId : string) (user : User)
    (st : State) (device : Device) :
  getDeviceById deviceId st = Some device →
  newId ∉ user_id <$> users (store st) →
  newId ∉ authorizedUsers device →
  let added := addUser setItemFails newId user st in
  let authorized :=
    authorizeUserForDevice setItemFails deviceId newId (snd added) in
  let taken :=
    deauthorizeUserForDevice setItemFails deviceId newId (snd authorized) in
  user_id (fst added) = newId
  ∧ fst authorized = true
  ∧ getDeviceUsers deviceId (snd authorized)
    = getDeviceUsers deviceId st ++ [fst added]
  ∧ getUsers (snd authorized) = getUsers st ++ [fst added]
  ∧ fst taken = true
  ∧ getDeviceUsers deviceId (snd taken) = getDeviceUsers deviceId st
  ∧ getUsers (snd taken) = getUsers st ++ [fst added].
Proof.
  intros [i Hfind]%getDeviceById_Some Hfresh Hnew added authorized taken.
  set (u := fst added).
  assert (Hadded : store (snd added)
                   = withUsers (store st) (users (store st) ++ [u]))
    by apply store_saveStore.
  assert (Hfind1 : list_find (λ d, dev_id d = deviceId)
                     (devices (store (snd added))) = Some (i, device))
    by by rewrite Hadded.
  set (device1 :=
         withAuthorizedUsers device (authorizedUsers device ++ [newId])).
  assert (Hauth : authorized
            = (true, saveStore setItemFails
                       (withStore (snd added)
                          (withDevices (store (snd added))
                             (<[i := device1]>
                                (devices (store (snd added)))))))).
  { subst authorized. unfold authorizeUserForDevice.
    rewrite Hfind1. by rewrite bool_decide_eq_false_2. }
  assert (Hfind2 : list_find (λ d, dev_id d = deviceId)
                     (devices (store (snd authorized)))
                   = Some (i, device1)).
  { rewrite Hauth. cbn [snd]. rewrite store_saveStore. cbn.
    apply (list_find_update_same _ _ _ device); [done|].
    by apply list_find_Some in Hfind1 as (_ & ? & _). }
  assert (Husers2 : users (store (snd authorized))
                    = users (store st) ++ [u]).
  { rewrite Hauth. cbn [snd]. rewrite store_saveStore. cbn.
    by rewrite store_saveStore. }
  assert (Hlook : ∀ s x, users s = users (store st) ++ [u] →
            findUser s x
            = if bool_decide (x = newId) then Some u
              else findUser (store st) x).
  { intros s x ->. by apply (findUser_app _ u). }
  assert (Hold : ∀ s, users s = users (store st) ++ [u] →
            omap (findUser s) (authorizedUsers device)
            = getDeviceUsers deviceId st).
  { intros s Hs. rewrite (getDeviceUsers_found _ _ _ _ Hfind).
    apply omap_ext_elem_of. intros x Hx. rewrite (Hlook s x Hs).
    rewrite bool_decide_eq_false_2; [done|]. by intros ->. }
  assert (Hfilter : filter (λ x, x ≠ newId) (authorizedUsers device1)
                    = authorizedUsers device).
  { cbn. rewrite filter_app, filter_without by done.
    rewrite filter_cons_False, filter_nil by by intros ?.
    apply app_nil_r. }
  assert (Htaken : taken
            = (true, saveStore setItemFails
                       (withStore (snd authorized)
                          (withDevices (store (snd authorized))
                             (<[i := withAuthorizedUsers device1
                                       (authorizedUsers device)]>
                                (devices (store (snd authorized)))))))).
  { subst taken. unfold deauthorizeUserForDevice.
    rewrite Hfind2, Hfilter. cbn [authorizedUsers withAuthorizedUsers].
    destruct (_ =? _) eqn:E; [|done].
    apply Nat.eqb_eq in E. subst device1. cbn in E.
    rewrite length_app in E. cbn in E. lia. }
  split_and!.
  - done.
  - by rewrite Hauth.
  - rewrite (getDeviceUsers_found _ _ _ _ Hfind2).
    cbn [authorizedUsers device1 withAuthorizedUsers].
    rewrite omap_app, (Hold _ Husers2). f_equal.
    cbn [omap list_omap]. rewrite (Hlook _ _ Husers2).
    by rewrite bool_decide_eq_true_2.
  - done.
  - by rewrite Htaken.
  - rewrite Htaken. cbn [snd].
    erewrite getDeviceUsers_found.
    2:{ rewrite store_saveStore. cbn.
        apply (list_find_update_same _ _ _ device1); [done|].
        by apply list_find_Some in Hfind as (_ & ? & _). }
    cbn [authorizedUsers withAuthorizedUsers].
    apply Hold. by rewrite store_saveStore.
  - rewrite Htaken. cbn [snd]. unfold getUsers.
    by rewrite store_saveStore.
Qed.

End DeviceUserFacts.

(** ** What the store keeps across its operations *)

Section StoreFacts.
Import JSString DataStore.
Local Open Scope nat_scope.
Local Open Scope list_scope.

Variable setItemFails : AppData → bool.
Variable inherits : Prototype → string → bool.

Lemma persisted_saveStore (st : State) :
  setItemFails (store st) = false →
  persisted (saveStore setItemFails st) = Some (store st).
Proof. unfold saveStore. by intros ->. Qed.

Lemma persisted_saveStore_rejected (st : State) :
  setItemFails (store st) = true →
  saveStore setItemFails st = st.
Proof. unfold saveStore. by intros ->. Qed.

Lemma fmap_insert_same {A B} (f : A → B) (l : list A) (i : nat) (x y : A) :
  l !! i = Some x → f y = f x → f <$> <[i := y]> l = f <$> l.
Proof.
  intros Hi Hf. rewrite list_fmap_insert, Hf.
  apply list_insert_id. by rewrite list_lookup_fmap, Hi.
Qed.

Lemma dev_id_scrubbed (userId : string) (ds : list Device) :
  dev_id <$> ((λ d, withAuthorizedUsers d
                      (filter (λ i, i ≠ userId) (authorizedUsers d)))
                <$> ds)
  = dev_id <$> ds.
Proof. rewrite <- list_fmap_compose. by apply list_fmap_ext. Qed.

Lemma length_omap_le {A B} (f : A → option B) (l : list A) :
  length (omap f l) ≤ length l.
Proof.
  induction l as [|x l IH]; [done|]. cbn [omap list_omap].
  destruct (f x); simpl; lia.
Qed.

(** X15: [getDeviceUsers] lists stored users only, each of them authorised
    by the device, at most one for each authorised id; it passes over
    the ids that no stored user has, and lists nothing for an id that
    no device has. *)
Theorem getDeviceUsers_sound (deviceId : string) (st : State) :
  (∀ u, u ∈ getDeviceUsers deviceId st →
     u ∈ getUsers st
     ∧ ∃ device, getDeviceById deviceId st = Some device
                 ∧ user_id u ∈ authorizedUsers device)
  ∧ (∀ device, getDeviceById deviceId st = Some device →
       length (getDeviceUsers deviceId st) ≤ length (authorizedUsers device)
       ∧ (Forall (λ userId, userId ∉ user_id <$> getUsers st)
            (authorizedUsers device) →
          getDeviceUsers deviceId st = []))
  ∧ (getDeviceById deviceId st = None → getDeviceUsers deviceId st = []).
Proof.
  unfold getDeviceUsers, getDeviceById, getUsers.
  destruct (list_find _ (devices _)) as [[i device]|] eqn:Efind;
    cbn [fmap option_fmap option_map snd]; split_and!.
  - intros u (userId & Hin & Hu)%list_elem_of_omap.
    destruct (list_find _ (users _)) as [[k u']|] eqn:E; [|done].
    injection Hu as <-. apply list_find_Some in E as (Hk & Hid & _).
    split; [by eapply list_elem_of_lookup_2|].
    exists device. split; [done|]. by rewrite Hid.
  - intros ? [= <-]. split; [apply length_omap_le|].
    intros Hnone. induction Hnone as [|userId l Hx _ IH]; [done|].
    cbn [omap list_omap]. rewrite IH.
    destruct (list_find _ (users _)) as [[k u']|] eqn:E; [|done].
    apply list_find_Some in E as (Hk & Hid & _).
    destruct Hx. rewrite <- Hid. apply list_elem_of_fmap_2.
    by eapply list_elem_of_lookup_2.
  - done.
  - intros u Hu. by apply elem_of_nil in Hu.
  - done.
  - done.
Qed.

Section ActiveDevice.

Variable load : State → State.

(** The active device id points at a device of the store. *)
Local Abbreviation valid s :=
  (∀ a, activeDeviceId (globalSettings s) = Some a →
        a ∈ dev_id <$> devices s).

Lemma valid_kept (s s' : AppData) :
  activeDeviceId (globalSettings s') = activeDeviceId (globalSettings s) →
  (∀ a, a ∈ dev_id <$> devices s → a ∈ dev_id <$> devices s') →
  valid s → valid s'.
Proof. intros Hactive Hids Hvalid a Ha. apply Hids, Hvalid. congruence. Qed.

(** X16: once the active device id is the id of a device, or none, it stays
    so across the operations that add and delete devices and users,
    authorise and deauthorise, log and clear logs, and update a device
    without giving it another id. *)
Theorem active_device_stays_valid (st : State) :
  isInitialized st = true →
  valid (store st) →
  (∀ newId created updated device,
     valid (store (snd (addDevice setItemFails newId created updated
                          device st))))
  ∧ (∀ deviceId,
       valid (store (snd (deleteDevice setItemFails load deviceId st))))
  ∧ (∀ now deviceId updates, up_id updates = None →
       valid (store (snd (updateDevice setItemFails now deviceId updates
                            st))))
  ∧ (∀ newId user, valid (store (snd (addUser setItemFails newId user st))))
  ∧ (∀ userId, valid (store (snd (deleteUser setItemFails userId st))))
  ∧ (∀ deviceId userId,
       valid (store (snd (authorizeUserForDevice setItemFails deviceId
                            userId st)))
       ∧ valid (store (snd (deauthorizeUserForDevice setItemFails deviceId
                              userId st))))
  ∧ (∀ newId now deviceId act det ok cat,
       valid (store (snd (addDeviceLog setItemFails inherits newId now
                            deviceId act det ok cat st))))
  ∧ (∀ deviceId,
       valid (store (snd (clearDeviceLogs setItemFails inherits deviceId
                            st)))).
Proof.
  intros Hinit Hvalid. split_and!.
  - intros newId created updated device. unfold addDevice. cbn [snd].
    rewrite store_saveStore. apply (valid_kept (store st)); [done| |done].
    intros a Ha. cbn. rewrite fmap_app. apply elem_of_app. by left.
  - intros deviceId.
    destruct (decide (deviceId = "" ∨ deviceId = "undefined")) as [Hrej|Hok].
    { by rewrite deleteDevice_rejected. }
    destruct (decide (deviceId ∈ dev_id <$> devices (store st)))
      as [Hin|Hnotin].
    + apply list_elem_of_fmap in Hin as (found & Hid & Hin).
      rewrite (deleteDevice_found setItemFails load deviceId st found)
        by (rewrite ?initialize_initialized by done; naive_solver).
      cbn [snd]. rewrite store_saveStore, initialize_initialized by done.
      cbn. intros a. case_bool_decide as Hactive.
      * destruct (filter _ (devices (store st))) as [|first rest];
          [done|]. cbn. intros [= <-]. apply elem_of_cons. by left.
      * intros Ha. specialize (Hvalid a Ha).
        apply list_elem_of_fmap in Hvalid as (d & -> & Hd).
        apply list_elem_of_fmap_2, list_elem_of_filter. split; [|done].
        intros Heq. apply Hactive. by rewrite Ha, Heq.
    + rewrite deleteDevice_missing
        by by rewrite initialize_initialized.
      cbn [snd]. rewrite initialize_initialized by done.
      by destruct (_ || _).
  - intros now deviceId updates Hid. unfold updateDevice.
    destruct (list_find _ _) as [[i device]|] eqn:Efind; [|done].
    cbn [snd]. rewrite store_saveStore.
    apply (valid_kept (store st)); [done| |done].
    intros a Ha. cbn.
    apply list_find_Some in Efind as (Hi & _).
    rewrite (fmap_insert_same _ _ _ device); [done..|].
    cbn. by rewrite Hid.
  - intros newId user. unfold addUser. cbn [snd].
    rewrite store_saveStore. by apply (valid_kept (store st)).
  - intros userId. unfold deleteUser.
    destruct (negb _); cbn [snd]; rewrite ?store_saveStore;
      (apply (valid_kept (store st)); [done| |done]);
      intros a Ha; cbn; by rewrite dev_id_scrubbed.
  - intros deviceId userId. split.
    + unfold authorizeUserForDevice.
      destruct (list_find _ _) as [[i device]|] eqn:Efind; [|done].
      destruct (negb _); [|done]. cbn [snd]. rewrite store_saveStore.
      apply (valid_kept (store st)); [done| |done].
      intros a Ha. cbn. apply list_find_Some in Efind as (Hi & _).
      by rewrite (fmap_insert_same _ _ _ device).
    + unfold deauthorizeUserForDevice.
      destruct (list_find _ _) as [[i device]|] eqn:Efind; [|done].
      apply list_find_Some in Efind as (Hi & _).
      destruct (negb _); cbn [snd]; rewrite ?store_saveStore;
        (apply (valid_kept (store st)); [done| |done]);
        intros a Ha; cbn; by rewrite (fmap_insert_same _ _ _ device).
  - intros newId now deviceId act det ok cat.
    destruct (addDeviceLog_rest setItemFails inherits newId now deviceId
                act det ok cat st) as (Hd & _ & Hg).
    apply (valid_kept (store st)); [by rewrite Hg|by rewrite Hd|done].
  - intros deviceId.
    destruct (clearDeviceLogs_rest setItemFails inherits deviceId st)
      as (Hd & _ & Hg).
    apply (valid_kept (store st)); [by rewrite Hg|by rewrite Hd|done].
Qed.

End ActiveDevice.

Section Persistence.

Variable load : State → State.

(** X17: with a storage that takes every write, each operation that reports
    a change, or returns what it added, leaves under [app_data] the
    document it has in memory, and an operation that reports no change
    writes nothing: [addDevice], [addUser] and [updateGlobalSettings]
    always write; [addDeviceLog] writes when it returns its entry, and
    leaves the state as it was when it throws; [updateDevice],
    [setActiveDevice], [deleteUser], the two authorisations and
    [clearDeviceLogs] write when they report a change and leave what is
    stored otherwise; [deleteDevice] writes when it reports true, and
    otherwise leaves the state as it found it or, where the store was
    not initialised, as [initialize] made it. *)
Theorem changes_are_written (st : State) :
  (∀ s, setItemFails s = false) →
  let written (st' : State) := persisted st' = Some (store st') in
  let untouched (st' : State) := persisted st' = persisted st in
  (∀ newId created updated device,
     written (snd (addDevice setItemFails newId created updated device st)))
  ∧ (∀ newId user, written (snd (addUser setItemFails newId user st)))
  ∧ (∀ newId now deviceId act det ok cat,
       let r := addDeviceLog setItemFails inherits newId now deviceId act
                  det ok cat st in
       match fst r with
       | Some _ => written (snd r)
       | None => snd r = st
       end)
  ∧ (∀ updates, written (snd (updateGlobalSettings setItemFails updates st)))
  ∧ (∀ now deviceId updates,
       let r := updateDevice setItemFails now deviceId updates st in
       match fst r with
       | Some _ => written (snd r)
       | None => untouched (snd r)
       end)
  ∧ (∀ deviceId,
       let r := deleteDevice setItemFails load deviceId st in
       if fst r then written (snd r)
       else snd r = st ∨ snd r = initialize load st)
  ∧ (∀ deviceId,
       let r := setActiveDevice setItemFails deviceId st in
       if fst r then written (snd r) else untouched (snd r))
  ∧ (∀ userId,
       let r := deleteUser setItemFails userId st in
       if fst r then written (snd r) else untouched (snd r))
  ∧ (∀ deviceId userId,
       let r := authorizeUserForDevice setItemFails deviceId userId st in
       if fst r then written (snd r) else untouched (snd r))
  ∧ (∀ deviceId userId,
       let r := deauthorizeUserForDevice setItemFails deviceId userId st in
       if fst r then written (snd r) else untouched (snd r))
  ∧ (∀ deviceId,
       let r := clearDeviceLogs setItemFails inherits deviceId st in
       if fst r then written (snd r) else untouched (snd r)).
Proof.
  intros Haccepts written untouched.
  assert (Hsave : ∀ st', written (saveStore setItemFails st')).
  { intros st'. unfold written.
    by rewrite store_saveStore, persisted_saveStore. }
  subst written untouched. split_and!.
  - intros. apply Hsave.
  - intros. apply Hsave.
  - intros newId now deviceId act det ok cat. unfold addDeviceLog.
    cbn zeta. destruct (lookupLogs _ _ _); cbn [fst snd];
      [apply Hsave|done|apply Hsave].
  - intros. apply Hsave.
  - intros now deviceId updates. unfold updateDevice.
    destruct (list_find _ _) as [[i device]|]; [apply Hsave|done].
  - intros deviceId. cbn zeta.
    destruct (decide (deviceId = "" ∨ deviceId = "undefined")) as [Hrej|Hok].
    { rewrite deleteDevice_rejected by done. by left. }
    destruct (decide (deviceId
                      ∈ dev_id <$> devices (store (initialize load st))))
      as [Hin|Hnotin].
    + apply list_elem_of_fmap in Hin as (found & Hid & Hin).
      rewrite (deleteDevice_found setItemFails load deviceId st found)
        by naive_solver.
      cbn [fst snd]. apply Hsave.
    + rewrite deleteDevice_missing by done. cbn [fst snd].
      destruct (_ || _); [by left|by right].
  - intros deviceId. unfold setActiveDevice.
    destruct (_ && _); [done|apply Hsave].
  - intros userId. unfold deleteUser.
    destruct (negb _); [apply Hsave|done].
  - intros deviceId userId. unfold authorizeUserForDevice.
    destruct (list_find _ _) as [[i device]|]; [|done].
    destruct (negb _); [apply Hsave|done].
  - intros deviceId userId. unfold deauthorizeUserForDevice.
    destruct (list_find _ _) as [[i device]|]; [|done].
    destruct (negb _); [apply Hsave|done].
  - intros deviceId. unfold clearDeviceLogs. cbn zeta.
    destruct (lookupLogs _ _ _); cbn [fst snd];
      [apply Hsave|apply Hsave|done].
Qed.

End Persistence.

End StoreFacts.

Section SwallowedWrites.
Import JSString DataStore.
Local Open Scope nat_scope.
Local Open Scope list_scope.

(** X18: what an operation returns and the document it leaves in memory do
    not depend on whether the storage took the write: a rejected write
    is reported by no operation. *)
Theorem rejected_writes_go_unreported
    (fails fails' : AppData → bool) (load : State → State)
    (inherits : Prototype → string → bool) (st : State) :
  let same {A} (r r' : A * State) :=
    fst r = fst r' ∧ store (snd r) = store (snd r') in
  (∀ newId created updated device,
     same (addDevice fails newId created updated device st)
          (addDevice fails' newId created updated device st))
  ∧ (∀ now deviceId updates,
       same (updateDevice fails now deviceId updates st)
            (updateDevice fails' now deviceId updates st))
  ∧ (∀ deviceId,
       same (deleteDevice fails load deviceId st)
            (deleteDevice fails' load deviceId st))
  ∧ (∀ deviceId,
       same (setActiveDevice fails deviceId st)
            (setActiveDevice fails' deviceId st))
  ∧ (∀ newId user,
       same (addUser fails newId user st) (addUser fails' newId user st))
  ∧ (∀ userId,
       same (deleteUser fails userId st) (deleteUser fails' userId st))
  ∧ (∀ deviceId userId,
       same (authorizeUserForDevice fails deviceId userId st)
            (authorizeUserForDevice fails' deviceId userId st))
  ∧ (∀ deviceId userId,
       same (deauthorizeUserForDevice fails deviceId userId st)
            (deauthorizeUserForDevice fails' deviceId userId st))
  ∧ (∀ newId now deviceId act det ok cat,
       same (addDeviceLog fails inherits newId now deviceId act det ok cat
               st)
            (addDeviceLog fails' inherits newId now deviceId act det ok cat
               st))
  ∧ (∀ deviceId,
       same (clearDeviceLogs fails inherits deviceId st)
            (clearDeviceLogs fails' inherits deviceId st))
  ∧ (∀ updates,
       same (updateGlobalSettings fails updates st)
            (updateGlobalSettings fails' updates st)).
Proof.
  intros same. subst same. cbn beta. split_and!.
  - intros. unfold addDevice. cbn [fst snd]. by rewrite !store_saveStore.
  - intros. unfold updateDevice. destruct (list_find _ _) as [[??]|];
      cbn [fst snd]; by rewrite ?store_saveStore.
  - intros deviceId. unfold deleteDevice.
    destruct (_ || _); [done|].
    destruct (list_find _ _) as [[i device]|]; [|done].
    cbn [fst snd]. by rewrite !store_saveStore.
  - intros. unfold setActiveDevice. destruct (_ && _); [done|].
    cbn [fst snd]. by rewrite !store_saveStore.
  - intros. unfold addUser. cbn [fst snd]. by rewrite !store_saveStore.
  - intros. unfold deleteUser. destruct (negb _); [|done].
    cbn [fst snd]. by rewrite !store_saveStore.
  - intros. unfold authorizeUserForDevice.
    destruct (list_find _ _) as [[??]|]; [|done].
    destruct (negb _); [|done]. cbn [fst snd]. by rewrite !store_saveStore.
  - intros. unfold deauthorizeUserForDevice.
    destruct (list_find _ _) as [[??]|]; [|done].
    destruct (negb _); [|done]. cbn [fst snd]. by rewrite !store_saveStore.
  - intros. unfold addDeviceLog. cbn zeta.
    destruct (lookupLogs _ _ _); cbn [fst snd];
      by rewrite ?store_saveStore.
  - intros. unfold clearDeviceLogs. cbn zeta.
    destruct (lookupLogs _ _ _); cbn [fst snd];
      by rewrite ?store_saveStore.
  - intros. unfold updateGlobalSettings. cbn [fst snd].
    by rewrite !store_saveStore.
Qed.

End SwallowedWrites.

(** ** Log buckets of the store *)

Section BucketFacts.
Import JSString DataStore.
Local Open Scope nat_scope.
Local Open Scope list_scope.

Variable setItemFails : AppData → bool.
Variable inherits : Prototype → string → bool.

(** X19: an append touches the bucket its id names (the [system] bucket for
    an id that is empty or white space) and no other.  An append under a
    blank id puts its entry in front of the first 199 entries of the
    [system] bucket, when that bucket can be read.  The buckets that
    [logs] has under the other names stay; so does what [getDeviceLogs]
    returns for the other ids, unless the id is [__proto__], which names
    the prototype of [logs].  Devices, users and settings stay as they
    are, and an append that throws leaves the whole state. *)
Theorem addDeviceLog_frame (newId now deviceId act det : string)
    (ok : bool) (cat : Category) (st : State) :
  let r := addDeviceLog setItemFails inherits newId now deviceId act det ok
             cat st in
  let bucketOf (deviceId : string) :=
    if isBlank deviceId then "system" else deviceId in
  (isBlank deviceId = true →
     ∀ bucket, getDeviceLogs inherits "system" st = Some bucket →
       ∃ entry,
         fst r = Some entry
         ∧ getDeviceLogs inherits "system" (snd r)
           = Some (entry :: take 199 bucket))
  ∧ (∀ other, other ≠ bucketOf deviceId →
       logs (store (snd r)) !! other = logs (store st) !! other)
  ∧ (bucketOf deviceId ≠ "__proto__" →
     ∀ other, bucketOf other ≠ bucketOf deviceId →
       getDeviceLogs inherits other (snd r)
       = getDeviceLogs inherits other st)
  ∧ devices (store (snd r)) = devices (store st)
  ∧ users (store (snd r)) = users (store st)
  ∧ globalSettings (store (snd r)) = globalSettings (store st)
  ∧ (fst r = None → snd r = st).
Proof.
  intros r bucketOf.
  destruct (addDeviceLog_rest setItemFails inherits newId now deviceId act
              det ok cat st) as (Hd & Hu & Hg).
  fold r in Hd, Hu, Hg.
  split_and!; [| | |done..|].
  - intros Hblank bucket Hread. subst r.
    assert (Hsame : ∀ st',
      getDeviceLogs inherits "system" st'
      = getDeviceLogs inherits deviceId st').
    { intros st'. unfold getDeviceLogs. cbn zeta. by rewrite Hblank. }
    rewrite Hsame in Hread.
    destruct (addDeviceLog_bucket setItemFails inherits newId now deviceId
                act det ok cat st bucket Hread) as [Hfst Hsnd].
    eexists. split; [exact Hfst|]. by rewrite Hsame.
  - intros other Hother. subst r bucketOf. cbn beta in Hother.
    unfold addDeviceLog. cbn zeta.
    destruct (lookupLogs _ _ _); cbn [snd]; [|done|];
      by rewrite store_saveStore, !logs_assignLogs_ne.
  - intros Hproto other Hother. subst r bucketOf. cbn beta in *.
    unfold getDeviceLogs, addDeviceLog. cbn zeta.
    destruct (lookupLogs inherits st (if isBlank deviceId then _ else _));
      cbn [snd]; [|done|];
      by rewrite lookupLogs_saveStore, !lookupLogs_assignLogs_ne.
  - subst r. unfold addDeviceLog. cbn zeta.
    by destruct (lookupLogs _ _ _).
Qed.

(** X20: [clearDeviceLogs] reports true exactly when [logs] finds
    something under the id (the [system] bucket for an id that is empty
    or white space): a bucket of its own, or what it inherits under that
    name.  The bucket is empty afterwards and the buckets that [logs]
    has under the other names are as they were; so is what
    [getDeviceLogs] returns for the other ids, unless the id is
    [__proto__].  When it reports false the state is as before.  After
    an append under the id, clearing reports true and leaves the bucket
    empty. *)
Theorem store_clearDeviceLogs_spec (deviceId : string) (st : State) :
  let r := clearDeviceLogs setItemFails inherits deviceId st in
  let bucketOf (deviceId : string) :=
    if isBlank deviceId then "system" else deviceId in
  (fst r = true ↔ lookupLogs inherits st (bucketOf deviceId) ≠ Nothing)
  ∧ (fst r = true ↔
     is_Some (logs (store st) !! bucketOf deviceId)
     ∨ bucketOf deviceId = "__proto__"
     ∨ inherits (logsPrototype st) (bucketOf deviceId) = true)
  ∧ getDeviceLogs inherits deviceId (snd r) = Some []
  ∧ (∀ other, other ≠ bucketOf deviceId →
       logs (store (snd r)) !! other = logs (store st) !! other)
  ∧ (bucketOf deviceId ≠ "__proto__" →
     ∀ other, bucketOf other ≠ bucketOf deviceId →
       getDeviceLogs inherits other (snd r)
       = getDeviceLogs inherits other st)
  ∧ (fst r = false → snd r = st)
  ∧ ∀ newId now act det ok cat,
      let logged :=
        snd (addDeviceLog setItemFails inherits newId now deviceId act det
               ok cat st)
      in
      fst (clearDeviceLogs setItemFails inherits deviceId logged) = true
      ∧ getDeviceLogs inherits deviceId
          (snd (clearDeviceLogs setItemFails inherits deviceId logged))
        = Some [].
Proof.
  intros r bucketOf. subst r bucketOf. cbn beta.
  assert (Hclear : ∀ st',
    (fst (clearDeviceLogs setItemFails inherits deviceId st') = true
     ↔ lookupLogs inherits st'
         (if isBlank deviceId then "system" else deviceId) ≠ Nothing)
    ∧ getDeviceLogs inherits deviceId
        (snd (clearDeviceLogs setItemFails inherits deviceId st'))
      = Some []).
  { intros st'. unfold clearDeviceLogs, getDeviceLogs. cbn zeta.
    destruct (lookupLogs inherits st' _) eqn:E; cbn [fst snd];
      rewrite ?lookupLogs_saveStore, ?lookupLogs_assignLogs, ?E;
      (split; [|done]); split; done. }
  destruct (Hclear st) as [Hiff Hempty].
  split_and!; [done| |done| | | |].
  - rewrite Hiff. unfold lookupLogs.
    destruct (logs (store st) !! _) as [bucket|].
    { split; [intros _; left; by eexists|done]. }
    case_bool_decide as Hproto.
    + destruct (logsPrototype st);
        (split; [intros _; right; by left|done]).
    + destruct (inherits _ _) eqn:E.
      * split; [intros _; right; by right|done].
      * split; [done|]. intros [[? [=]]|[?|[=]]]. done.
  - intros other Hother. unfold clearDeviceLogs. cbn zeta.
    destruct (lookupLogs _ _ _); cbn [snd]; [| |done];
      by rewrite store_saveStore, logs_assignLogs_ne.
  - intros Hproto other Hother. unfold getDeviceLogs, clearDeviceLogs.
    cbn zeta.
    destruct (lookupLogs inherits st (if isBlank deviceId then _ else _));
      cbn [snd]; [| |done];
      by rewrite lookupLogs_saveStore, lookupLogs_assignLogs_ne.
  - unfold clearDeviceLogs. cbn zeta.
    by destruct (lookupLogs _ _ _).
  - intros newId now act det ok cat logged.
    destruct (Hclear logged) as [Hiff' Hempty']. split; [|done].
    apply Hiff'. subst logged. unfold addDeviceLog. cbn zeta.
    destruct (lookupLogs inherits st _) eqn:E; cbn [snd];
      rewrite ?lookupLogs_saveStore, ?lookupLogs_assignLogs, ?E; done.
Qed.

End BucketFacts.

(** ** Adding and updating devices *)

Section DeviceFacts.
Import JSString DataStore.
Local Open Scope nat_scope.
Local Open Scope list_scope.

Variable setItemFails : AppData → bool.

Lemma list_find_snoc {A} (P : A → Prop) `{!∀ x, Decision (P x)}
    (l : list A) (x : A) :
  snd <$> list_find P (l ++ [x])
  = match list_find P l with
    | Some (_, y) => Some y
    | None => if decide (P x) then Some x else None
    end.
Proof.
  destruct (list_find P l) as [[i y]|] eqn:E.
  - by rewrite (list_find_app_l _ _ _ _ _ E).
  - rewrite list_find_app_r by done. cbn [list_find].
    by destruct (decide (P x)).
Qed.

(** X21: the device that [addDevice] returns carries the id and the times
    drawn for it and is the last of the devices; it is the one found
    under its id when no device had that id, and the device found under
    any other id is the one that was found before. *)
Theorem addDevice_spec (newId created updated : string) (device : Device)
    (st : State) :
  let r := addDevice setItemFails newId created updated device st in
  dev_id (fst r) = newId
  ∧ createdAt (fst r) = created ∧ updatedAt (fst r) = updated
  ∧ dev_name (fst r) = dev_name device
  ∧ authorizedUsers (fst r) = authorizedUsers device
  ∧ getDevices (snd r) = getDevices st ++ [fst r]
  ∧ (getDeviceById newId st = None →
       getDeviceById newId (snd r) = Some (fst r))
  ∧ (∀ other, other ≠ newId ∨ is_Some (getDeviceById other st) →
       getDeviceById other (snd r) = getDeviceById other st).
Proof.
  intros r. subst r. unfold addDevice, getDevices, getDeviceById.
  cbn [fst snd]. rewrite store_saveStore.
  cbn [store withStore devices withDevices].
  split_and!; try done.
  - intros Hnone. rewrite list_find_snoc.
    destruct (list_find _ (devices (store st))) as [[??]|]; [done|].
    by rewrite decide_True.
  - intros other Hother. rewrite list_find_snoc.
    destruct (list_find _ (devices (store st))) as [[??]|]; [done|].
    destruct Hother as [Hne|[? ?]]; [|done].
    by rewrite decide_False.
Qed.

(** X22: [updateDevice] returns [null] and changes nothing for an id that no
    device has.  Otherwise it returns the device with the updates laid
    over it and the time of the update, puts it in the place of the
    device, and, when the updates leave the id alone, it is the device
    found under the id afterwards, the devices found under the other ids
    being the ones found before. *)
Theorem updateDevice_spec (now deviceId : string) (updates : DeviceUpdates)
    (st : State) :
  let r := updateDevice setItemFails now deviceId updates st in
  (getDeviceById deviceId st = None → r = (None, st))
  ∧ ∀ device, getDeviceById deviceId st = Some device →
      fst r = Some (applyDeviceUpdates device updates now)
      ∧ (∃ i, devices (store st) !! i = Some device
              ∧ devices (store (snd r))
                = <[i := applyDeviceUpdates device updates now]>
                    (devices (store st)))
      ∧ length (getDevices (snd r)) = length (getDevices st)
      ∧ users (store (snd r)) = users (store st)
      ∧ logs (store (snd r)) = logs (store st)
      ∧ (up_id updates = None →
           getDeviceById deviceId (snd r) = fst r
           ∧ ∀ other, other ≠ deviceId →
               getDeviceById other (snd r) = getDeviceById other st).
Proof.
  intros r. subst r. unfold updateDevice, getDevices. split.
  - unfold getDeviceById.
    by destruct (list_find _ _) as [[??]|].
  - intros device [i Hfind]%getDeviceById_Some. rewrite Hfind.
    cbn [fst snd]. rewrite store_saveStore.
    cbn [store withStore devices withDevices users logs].
    pose proof Hfind as (Hi & Hid & _)%list_find_Some.
    split_and!; try done.
    + by exists i.
    + apply length_insert.
    + intros Hsame.
      assert (Hid' : dev_id (applyDeviceUpdates device updates now)
                     = deviceId) by (cbn; by rewrite Hsame).
      split.
      * unfold getDeviceById. rewrite store_saveStore. cbn.
        by rewrite (list_find_update_same _ _ _ device).
      * intros other Hother. unfold getDeviceById.
        rewrite store_saveStore. cbn.
        rewrite (list_find_update_other _ _ _ device); [done..| |];
          congruence.
Qed.

End DeviceFacts.

(** ** The legacy migration *)

Section MigrationFacts.
Import JSString DataStore.
Local Open Scope nat_scope.
Local Open Scope list_scope.

Variable setItemFails : AppData → bool.

Lemma migrateUsers_users (userIds : nat → string)
    (legacyUsers : list LegacyUser) :
  Forall (λ u, phoneNumber u ≠ ""
               ∧ user_name u = ("User " ++ serialNumber u)%string
               ∧ ∃ k legacyUser,
                   legacyUsers !! k = Some legacyUser
                   ∧ user_id u = userIds k
                   ∧ phoneNumber u = phone legacyUser
                   ∧ serialNumber u = serial legacyUser)
         (migrateUsers userIds legacyUsers)
  ∧ length (migrateUsers userIds legacyUsers)
    = length (filter (λ l, phone l ≠ "") legacyUsers).
Proof.
  unfold migrateUsers. split.
  - apply Forall_forall. intros u ([k l] & Hin & Hu)%list_elem_of_omap.
    apply list_elem_of_lookup in Hin as [j Hj].
    rewrite list_lookup_imap in Hj.
    destruct (legacyUsers !! j) as [l'|] eqn:E; [|done].
    injection Hj as <- <-. case_bool_decide as Hphone; [done|].
    injection Hu as <-. cbn. split; [done|]. split; [done|].
    by exists j, l'.
  - change (imap pair legacyUsers)
      with (imap (λ i, pair (id i)) legacyUsers).
    generalize (@id nat). intros place. revert place.
    induction legacyUsers as [|l ls IH]; intros place; [done|].
    cbn [imap omap list_omap]. rewrite filter_cons.
    case_bool_decide as Hphone.
    + rewrite decide_False by (by intros ?). apply (IH (place ∘ S)).
    + rewrite decide_True by done. cbn [length]. f_equal.
      apply (IH (place ∘ S)).
Qed.

Lemma migrateLegacyKeys_finished (deviceId : string)
    (userIds : nat → string) (device : list string → Device)
    (legacy : LegacyKeys) (s0 : AppData) :
  legacy_authorizedUsers legacy ≠ Fails →
  legacy_app_logs legacy ≠ Fails →
  legacy_adminNumber legacy ≠ Fails →
  legacy_completedSteps legacy ≠ Fails →
  let s1 :=
    withActiveDevice (withDevices s0 (devices s0 ++ [device []]))
      (Some deviceId) in
  let migrated :=
    match legacy_authorizedUsers legacy with
    | Value legacyUsers => migrateUsers userIds legacyUsers
    | _ => []
    end in
  ∃ s5,
    migrateLegacyKeys deviceId userIds device legacy s1 = (s5, true)
    ∧ devices s5 = devices s0 ++ [device (user_id <$> migrated)]
    ∧ users s5 = users s0 ++ migrated
    ∧ activeDeviceId (globalSettings s5) = Some deviceId
    ∧ logs s5 = match legacy_app_logs legacy with
                | Value legacyLogs => <[deviceId := legacyLogs]> (logs s0)
                | _ => logs s0
                end.
Proof.
  intros Husers Hlogs Hadmin Hsteps s1 migrated. unfold migrateLegacyKeys.
  assert (∃ s2,
    migrateLegacyUsers userIds device (legacy_authorizedUsers legacy) s1
    = Some s2
    ∧ devices s2 = devices s0 ++ [device (user_id <$> migrated)]
    ∧ users s2 = users s0 ++ migrated
    ∧ activeDeviceId (globalSettings s2) = Some deviceId
    ∧ logs s2 = logs s0) as (s2 & -> & Hd2 & Hu2 & Ha2 & Hl2).
  { subst migrated.
    destruct (legacy_authorizedUsers legacy) as [|legacyUsers|];
      [| |done]; eexists; (split; [reflexivity|]).
    - subst s1. cbn. by rewrite app_nil_r.
    - subst s1. cbn. rewrite length_app, Nat.add_sub, take_app_length.
      done. }
  assert (∃ s3,
    migrateLegacyLogs deviceId (legacy_app_logs legacy) s2 = Some s3
    ∧ devices s3 = devices s2 ∧ users s3 = users s2
    ∧ activeDeviceId (globalSettings s3) = Some deviceId
    ∧ logs s3 = match legacy_app_logs legacy with
                | Value legacyLogs => <[deviceId := legacyLogs]> (logs s0)
                | _ => logs s0
                end) as (s3 & -> & Hd3 & Hu3 & Ha3 & Hl3).
  { destruct (legacy_app_logs legacy) as [|legacyLogs|]; [| |done];
      eexists; (split; [reflexivity|]); cbn; by rewrite ?Hl2. }
  assert (∃ s4,
    migrateAdminNumber (legacy_adminNumber legacy) s3 = Some s4
    ∧ devices s4 = devices s3 ∧ users s4 = users s3
    ∧ activeDeviceId (globalSettings s4) = Some deviceId
    ∧ logs s4 = logs s3) as (s4 & -> & Hd4 & Hu4 & Ha4 & Hl4).
  { destruct (legacy_adminNumber legacy) as [|a|]; [| |done];
      cbn [migrateAdminNumber]; try case_bool_decide;
      eexists; (split; [reflexivity|]); by cbn. }
  assert (∃ s5,
    migrateCompletedSteps (legacy_completedSteps legacy) s4 = Some s5
    ∧ devices s5 = devices s4 ∧ users s5 = users s4
    ∧ activeDeviceId (globalSettings s5) = Some deviceId
    ∧ logs s5 = logs s4) as (s5 & -> & Hd5 & Hu5 & Ha5 & Hl5).
  { destruct (legacy_completedSteps legacy) as [|steps|]; [| |done];
      eexists; (split; [reflexivity|]); by cbn. }
  exists s5. split; [done|]. split_and!; congruence.
Qed.

(** X23: without a unit number under the legacy keys nothing is migrated.
    With one, and all legacy keys readable, the store gains one device,
    [My Gate Opener], with the legacy unit number, the legacy password
    ([1234] when there is none), and made the active device; the legacy
    users that have a phone number become users, [User] and their
    serial for a name, in their order, all authorised for the device;
    the legacy logs become its bucket as they are; and the document is
    written.  When the legacy users cannot be read the device stays in
    memory without users and nothing is written. *)
Theorem migrateLegacyData_spec (deviceId created updated : string)
    (userIds : nat → string) (legacy : LegacyKeys) (st : State) :
  let st' :=
    migrateLegacyData setItemFails deviceId created updated userIds
      legacy st in
  (legacy_unitNumber legacy = Absent ∨ legacy_unitNumber legacy = Value "" →
   st' = st)
  ∧ (∀ unit, legacy_unitNumber legacy = Value unit → unit ≠ "" →
       legacy_password legacy ≠ Fails →
       legacy_authorizedUsers legacy = Fails →
       persisted st' = persisted st
       ∧ users (store st') = users (store st)
       ∧ ∃ device,
           devices (store st') = devices (store st) ++ [device]
           ∧ dev_id device = deviceId ∧ authorizedUsers device = [])
  ∧ (∀ unit, legacy_unitNumber legacy = Value unit → unit ≠ "" →
       legacy_password legacy ≠ Fails →
       legacy_authorizedUsers legacy ≠ Fails →
       legacy_app_logs legacy ≠ Fails →
       legacy_adminNumber legacy ≠ Fails →
       legacy_completedSteps legacy ≠ Fails →
       let migrated :=
         match legacy_authorizedUsers legacy with
         | Value legacyUsers => migrateUsers userIds legacyUsers
         | _ => []
         end in
       devices (store st')
       = devices (store st)
         ++ [{| dev_id := deviceId; dev_name := "My Gate Opener";
                unitNumber := unit;
                password :=
                  match legacy_password legacy with
                  | Value p => if bool_decide (p = "") then "1234" else p
                  | _ => "1234"
                  end;
                authorizedUsers := user_id <$> migrated;
                createdAt := created; updatedAt := updated;
                relaySettings := None |}]
       ∧ users (store st') = users (store st) ++ migrated
       ∧ activeDeviceId (globalSettings (store st')) = Some deviceId
       ∧ logs (store st')
         = match legacy_app_logs legacy with
           | Value legacyLogs => <[deviceId := legacyLogs]> (logs (store st))
           | _ => logs (store st)
           end
       ∧ (setItemFails (store st') = false →
          persisted st' = Some (store st'))).
Proof.
  intros st'. subst st'. unfold migrateLegacyData. split_and!.
  - intros [-> | ->]; by destruct (legacy_password legacy).
  - intros unit -> Hunit Hpwd Husers.
    rewrite bool_decide_eq_false_2 by done.
    unfold migrateLegacyKeys. rewrite Husers. cbn [migrateLegacyUsers].
    destruct (legacy_password legacy) as [|p|] eqn:Epwd; try done;
      (split; [done|]; split; [done|]; eexists; by split).
  - intros unit -> Hunit Hpwd Husers Hlogs Hadmin Hsteps.
    rewrite bool_decide_eq_false_2 by done.
    destruct (legacy_password legacy) as [|p|] eqn:Epwd; [| |done].
    all: destruct (migrateLegacyKeys_finished deviceId userIds
                     (defaultDevice deviceId created updated unit
                        (legacy_password legacy))
                     legacy (store st) Husers Hlogs Hadmin Hsteps)
           as (s5 & Hrun & Hd & Hu & Ha & Hl).
    all: rewrite Epwd in Hrun, Hd; rewrite Hrun.
    all: rewrite store_saveStore; cbn [store withStore].
    all: split_and!; [done..|].
    all: intros Haccept; by apply persisted_saveStore.
Qed.

End MigrationFacts.

(** ** Restoring a backup more than once *)

Section MergeAgainFacts.
Import DataStore BackupRestore.
Local Open Scope nat_scope.
Local Open Scope list_scope.

Variable inherits : Prototype → string → bool.
Variable Object_entries :
  gmap string (list LogEntry) → list (string * list LogEntry).

Local Abbreviation lookupBucket := (lookupBucket inherits).
Local Abbreviation mergeEntries := (mergeEntries inherits).
Local Abbreviation mergeLogs := (mergeLogs inherits Object_entries).
Local Abbreviation mergeAppData := (mergeAppData inherits Object_entries).

Lemma filter_none {A} (P : A → Prop) `{!∀ x, Decision (P x)} (l : list A) :
  Forall (λ x, ¬ P x) l → filter P l = [].
Proof.
  induction 1 as [|x l Hx _ IH]; [done|].
  by rewrite filter_cons_False.
Qed.

(** A backup that brings no new id leaves the devices as they are. *)
Lemma mergeDevices_absorb (existing backup : list Device) :
  (∀ i, i ∈ dev_id <$> backup → i ∈ dev_id <$> existing) →
  mergeDevices existing backup = existing.
Proof.
  intros Hids. unfold mergeDevices.
  rewrite filter_none; [apply app_nil_r|].
  apply Forall_forall. intros d Hd Hnew. apply Hnew.
  apply elem_of_list_to_set, Hids. by apply list_elem_of_fmap_2.
Qed.

Lemma unionById_absorb (bucket backupBucket : option (list LogEntry)) :
  unionById (unionById bucket backupBucket) backupBucket
  = unionById bucket backupBucket.
Proof.
  destruct bucket as [logEntries|], backupBucket as [entries|];
    cbn [unionById]; try done.
  - rewrite (filter_none _ entries); [done|].
    apply Forall_forall. intros e He Hnew. apply Hnew.
    rewrite fmap_app. apply elem_of_app.
    destruct (decide (log_id e ∈ log_id <$> logEntries)); [by right|].
    left. by apply list_elem_of_fmap_2, list_elem_of_filter.
  - rewrite filter_none; [done|].
    apply Forall_forall. intros e He Hnew. apply Hnew.
    by apply list_elem_of_fmap_2.
Qed.

Lemma unionById_self (bucket : option (list LogEntry)) :
  unionById bucket bucket = bucket.
Proof. apply (unionById_absorb None bucket). Qed.

Lemma mergeLogs_absorb (existing backup : gmap string (list LogEntry)) :
  enumerates Object_entries →
  mergeLogs (mergeLogs existing backup) backup = mergeLogs existing backup.
Proof.
  intros Henum. apply map_eq. intros deviceId.
  rewrite (mergeLogs_lookup inherits Object_entries); [|done|].
  - unfold BackupRestore.mergeLogs.
    destruct (mergeEntries_shape inherits (Object_entries existing) backup
                deviceId) as (bucket & -> & _);
      [by apply enumerates_NoDup|].
    apply unionById_absorb.
  - intros name. apply mergeEntries_own.
Qed.

Lemma mergeLogs_self (backup : gmap string (list LogEntry)) :
  enumerates Object_entries → mergeLogs backup backup = backup.
Proof.
  intros Henum. apply map_eq. intros deviceId.
  rewrite (mergeLogs_lookup inherits Object_entries);
    [apply unionById_self|done|].
  intros name [bucket Hname]. unfold lookupBucket. by rewrite Hname.
Qed.

Lemma mergeAppData_self (backup : AppDataJson) :
  enumerates Object_entries → mergeAppData backup backup = backup.
Proof.
  intros Henum. destruct backup as [[ds|] us [l|] g]; cbn; try done.
  - by rewrite mergeDevices_absorb, mergeLogs_self.
  - by rewrite mergeDevices_absorb.
Qed.

(** X24: merging a backup into a document that was merged with it already
    changes nothing, whether or not the first merge was thrown out of
    its log loop, and so does merging a document with itself. *)
Theorem mergeAppData_again (existing backup : AppDataJson) :
  enumerates Object_entries →
  mergeAppData (mergeAppData existing backup) backup
  = mergeAppData existing backup
  ∧ mergeAppData backup backup = backup.
Proof.
  intros Henum. split; [|by apply mergeAppData_self].
  destruct backup as [[bd|] bu [bl|] bg], existing as [[ed|] eu [el|] eg];
    cbn; try done;
    rewrite ?(mergeDevices_absorb (mergeDevices ed bd) bd)
      by (intros i Hi; apply mergeDevices_ids; by right);
    rewrite ?(mergeDevices_absorb bd bd) by auto;
    by rewrite ?mergeLogs_absorb, ?mergeLogs_self by done.
Qed.

(** The union of two buckets without doubled ids has no doubled id. *)
Lemma unionById_NoDup (logEntries bucket : list LogEntry) :
  NoDup (log_id <$> logEntries) → NoDup (log_id <$> bucket) →
  NoDup (log_id
           <$> filter (λ e, log_id e ∉ log_id <$> logEntries) bucket
               ++ logEntries).
Proof.
  intros Hl Hb. rewrite fmap_app. apply NoDup_app. split_and!; [| |done].
  - apply (NoDup_fmap_2_strong log_id).
    + intros x y [_ Hx]%list_elem_of_filter [_ Hy]%list_elem_of_filter Hxy.
      apply list_elem_of_lookup in Hx as [i Hi].
      apply list_elem_of_lookup in Hy as [j Hj].
      assert (i = j) as ->; [|congruence].
      apply (NoDup_lookup _ _ _ (log_id x) Hb);
        rewrite list_lookup_fmap; [by rewrite Hi|by rewrite Hj, Hxy].
    + apply NoDup_filter. eapply NoDup_fmap_1, Hb.
  - intros i (e & -> & [Hnew _]%list_elem_of_filter)%list_elem_of_fmap Hin.
    done.
Qed.

(** The log loop, thrown out of or not, keeps the ids of every bucket
    distinct. *)
Lemma mergeEntries_NoDup (entries : list (string * list LogEntry))
    (backupLogs : gmap string (list LogEntry)) :
  (∀ deviceId logEntries, (deviceId, logEntries) ∈ entries →
     NoDup (log_id <$> logEntries)) →
  (∀ deviceId bucket, backupLogs !! deviceId = Some bucket →
     NoDup (log_id <$> bucket)) →
  ∀ deviceId bucket,
    mergeEntries entries backupLogs !! deviceId = Some bucket →
    NoDup (log_id <$> bucket).
Proof.
  revert backupLogs.
  induction entries as [|[name logEntries] rest IH];
    intros backupLogs Hentries Hbackup; cbn [BackupRestore.mergeEntries];
    [done|].
  destruct (Member_or_not (lookupBucket backupLogs name)) as [Hm|Hm].
  { by rewrite (mergeBucket_None inherits). }
  destruct (mergeBucket_Some inherits backupLogs name logEntries Hm)
    as (merged & Hunion & ->).
  assert (Hl : NoDup (log_id <$> logEntries)).
  { eapply Hentries. apply elem_of_cons. by left. }
  apply IH.
  - intros deviceId entries' Hin. eapply Hentries.
    by apply list_elem_of_further.
  - intros deviceId bucket.
    destruct (decide (deviceId = name)) as [->|Hne].
    + rewrite lookup_insert_eq. intros [= <-].
      destruct (backupLogs !! name) as [bucket|] eqn:E;
        cbn [unionById] in Hunion; injection Hunion as <-; [|done].
      apply unionById_NoDup; [done|by eapply Hbackup].
    + rewrite lookup_insert_ne by done. apply Hbackup.
Qed.

(** X25: the merge doubles no id: devices with distinct ids on both sides
    give devices with distinct ids, and buckets whose entries have
    distinct ids give buckets whose entries have distinct ids, whether
    or not the log loop was thrown out of. *)
Theorem merge_keeps_ids_distinct (existing backup : list Device)
    (existingLogs backupLogs : gmap string (list LogEntry)) :
  enumerates Object_entries →
  NoDup (dev_id <$> existing) → NoDup (dev_id <$> backup) →
  (∀ deviceId bucket, existingLogs !! deviceId = Some bucket →
     NoDup (log_id <$> bucket)) →
  (∀ deviceId bucket, backupLogs !! deviceId = Some bucket →
     NoDup (log_id <$> bucket)) →
  NoDup (dev_id <$> mergeDevices existing backup)
  ∧ ∀ deviceId bucket,
      mergeLogs existingLogs backupLogs !! deviceId = Some bucket →
      NoDup (log_id <$> bucket).
Proof.
  intros Henum He Hb Hel Hbl. split; [by apply mergeDevices_NoDup|].
  unfold BackupRestore.mergeLogs. apply mergeEntries_NoDup; [|done].
  intros deviceId logEntries Hin. eapply Hel.
  by apply (enumerates_elem_of Object_entries).
Qed.

End MergeAgainFacts.

(** ** A restore whose writes fail, and a restore onto an empty place *)

Section RestoreMoreFacts.
Import DataStore BackupRestore.
Local Open Scope nat_scope.
Local Open Scope list_scope.

Variable inherits : Prototype → string → bool.
Variable Object_entries :
  gmap string (list LogEntry) → list (string * list LogEntry).
Variable JSON_stringify : Value → string.
Variable JSON_parse : string → option Value.
Variable parseBackup : string → option (list (string * Value)).
Variable migratedDocument : Faults → Storage → option string.

Local Abbreviation mergeLogs := (mergeLogs inherits Object_entries).
Local Abbreviation mergeAppData := (mergeAppData inherits Object_entries).
Local Abbreviation resolveConflicts :=
  (resolveConflicts inherits Object_entries).
Local Abbreviation saveItem := (saveItem JSON_stringify).
Local Abbreviation restoreCached := (restoreCached JSON_stringify).
Local Abbreviation toText := (toText JSON_stringify).
Local Abbreviation forceReinitialization :=
  (forceReinitialization migratedDocument).
Local Abbreviation restoreFromBackup :=
  (restoreFromBackup inherits Object_entries JSON_stringify JSON_parse
     parseBackup migratedDocument).

Implicit Types (io : Faults) (st : Storage) (acc : Storage * nat).
Implicit Types dataToStore : list (string * Value).

Lemma clearExisting_wipes io (keep : bool) st (key : string) :
  getAllKeysFails io = false → multiRemoveFails io = false →
  key ≠ "app_data" ∨ keep = false →
  cells (clearExisting io keep st) !! key = None.
Proof.
  intros Hkeys Hremove Hkey. unfold clearExisting.
  rewrite Hkeys, Hremove.
  assert (Hremoved : key ∈ dom (cells st) →
            key ∈ filter (λ key, ¬ (key = "app_data" ∧ keep = true))
                    (dom (cells st))).
  { intros Hdom. apply elem_of_filter. split; [|done].
    intros [-> ->]. by destruct Hkey. }
  case_bool_decide as Hempty.
  - apply not_elem_of_dom. intros Hdom%Hremoved.
    rewrite Hempty in Hdom. by apply not_elem_of_empty in Hdom.
  - cbn [cells]. apply map_lookup_filter_None. right.
    intros text Hlookup Hkept. apply Hkept. cbn [fst].
    apply Hremoved. apply elem_of_dom. by exists text.
Qed.

Lemma foldl_saveItem_rejected io dataToStore acc :
  (∀ key text, setItemFails io key text = true) →
  foldl (saveItem io) acc dataToStore = acc.
Proof.
  intros Hfails. revert acc.
  induction dataToStore as [|[key value] rest IH]; intros acc; [done|].
  cbn [foldl]. rewrite <- (IH acc) at 2. f_equal.
  destruct acc as [st n]. unfold BackupRestore.saveItem, setItem.
  rewrite Hfails. by destruct value.
Qed.

Lemma restoreCached_rejected io dataToStore
    (cachedLogs : list (string * Cached)) acc :
  (∀ key text, setItemFails io key text = true) →
  restoreCached io dataToStore cachedLogs acc = acc.
Proof.
  intros Hfails.
  induction cachedLogs as [|[logKey logValue] rest IH]; [done|].
  cbn [BackupRestore.restoreCached]. destruct (truthyProp _ _); [done|].
  unfold setItem. by rewrite Hfails.
Qed.

(** X26: a backup that does not parse leaves the storage as it is.  A backup
    that parses, met by a storage that rejects every write, makes the
    restore throw after the storage was cleared: every key but
    [app_data] is gone, and nothing was written. *)
Theorem failed_restore_has_cleared io (backupJson : string) st :
  backupJson ≠ "" →
  (parseBackup backupJson = None →
   restoreFromBackup io backupJson st = (Threw InvalidBackup, st))
  ∧ (is_Some (parseBackup backupJson) →
     (∀ key text, setItemFails io key text = true) →
     getAllKeysFails io = false → multiRemoveFails io = false →
     let r := restoreFromBackup io backupJson st in
     fst r = Threw NothingRestored
     ∧ (∀ key, key ≠ "app_data" → cells (snd r) !! key = None)
     ∧ setLog (snd r) = setLog st).
Proof.
  intros Hne. unfold BackupRestore.restoreFromBackup.
  rewrite bool_decide_eq_false_2 by done. split.
  - by intros ->.
  - intros [dataToStore ->] Hfails Hkeys Hremove.
    rewrite foldl_saveItem_rejected, restoreCached_rejected by done.
    cbn [fst snd Nat.eqb]. split; [done|]. split.
    + intros key Hkey. apply clearExisting_wipes; auto.
    + apply clearExisting_setLog.
Qed.

(** *** The log cache and the second save loop *)

Local Abbreviation cacheStep :=
  (λ (cachedLogs : list (string * Cached)) '(key, value),
     if JSString.includes key "logs" || bool_decide (key = "app_data") then
       if bool_decide (key = "app_data") && hasLogs value
       then setProp cachedLogs "app_logs" (LogsOf key)
       else setProp cachedLogs key (WholeValue key)
     else cachedLogs).

Lemma getProp_setProp_ne {A} (obj : list (string * A)) (key other : string)
    (v : A) :
  key ≠ other → getProp (setProp obj key v) other = getProp obj other.
Proof.
  intros Hne. induction obj as [|[k w] rest IH]; cbn [setProp getProp].
  - by rewrite bool_decide_eq_false_2.
  - case_bool_decide as Hk; cbn [getProp].
    + subst k. by rewrite !bool_decide_eq_false_2.
    + by rewrite IH.
Qed.

Lemma getProp_None {A} (obj : list (string * A)) (key : string) :
  key ∉ obj.*1 → getProp obj key = None.
Proof.
  induction obj as [|[k w] rest IH]; [done|]. cbn. intros Hnotin.
  apply not_elem_of_cons in Hnotin as [Hne Hrest].
  rewrite bool_decide_eq_false_2 by done. by apply IH.
Qed.

Lemma getProp_NoDup {A} (obj : list (string * A)) (key : string) (v : A) :
  NoDup obj.*1 → (key, v) ∈ obj → getProp obj key = Some v.
Proof.
  induction obj as [|[k w] rest IH]; intros Hnodup Hin.
  - by apply elem_of_nil in Hin.
  - cbn in Hnodup. apply NoDup_cons in Hnodup as [Hk Hnodup].
    cbn [getProp]. apply elem_of_cons in Hin as [[= <- <-]|Hin].
    + by rewrite bool_decide_eq_true_2.
    + rewrite bool_decide_eq_false_2; [by apply IH|].
      intros ->. apply Hk. by apply (list_elem_of_fmap_2 fst) in Hin.
Qed.

Lemma setProp_fst {A} (obj : list (string * A)) (key : string) (v : A) :
  (setProp obj key v).*1
  = if bool_decide (key ∈ obj.*1) then obj.*1 else obj.*1 ++ [key].
Proof.
  induction obj as [|[k w] rest IH]; [done|]. cbn [setProp].
  destruct (decide (k = key)) as [->|Hk].
  - rewrite (bool_decide_eq_true_2 (key = key)) by done.
    cbn. rewrite bool_decide_eq_true_2; [done|].
    apply elem_of_cons. by left.
  - rewrite (bool_decide_eq_false_2 (k = key)) by done.
    cbn. rewrite IH.
    destruct (decide (key ∈ rest.*1)) as [Hin|Hnotin].
    + rewrite !bool_decide_eq_true_2; [done|by apply list_elem_of_further|done].
    + rewrite !bool_decide_eq_false_2; [done| |done].
      intros [->|?]%elem_of_cons; done.
Qed.

Lemma setProp_NoDup {A} (obj : list (string * A)) (key : string) (v : A) :
  NoDup obj.*1 → NoDup (setProp obj key v).*1.
Proof.
  intros Hnodup. rewrite setProp_fst. case_bool_decide; [done|].
  apply NoDup_app. split_and!; [done| |apply NoDup_singleton].
  intros k Hk ->%list_elem_of_singleton. done.
Qed.

Lemma elem_of_setProp_fst {A} (obj : list (string * A)) (key k : string)
    (v : A) :
  k ∈ (setProp obj key v).*1 → k ∈ obj.*1 ∨ k = key.
Proof.
  rewrite setProp_fst. case_bool_decide; [by left|].
  intros [?|?%list_elem_of_singleton]%elem_of_app; auto.
Qed.

Lemma cacheStep_NoDup (cachedLogs : list (string * Cached))
    (entry : string * Value) :
  NoDup cachedLogs.*1 → NoDup (cacheStep cachedLogs entry).*1.
Proof.
  intros Hnodup. destruct entry as [key value].
  repeat case_match; try done; by apply setProp_NoDup.
Qed.

Lemma cacheLogs_NoDup dataToStore : NoDup (cacheLogs dataToStore).*1.
Proof.
  unfold cacheLogs.
  assert (H : ∀ c, NoDup c.*1 → NoDup (foldl cacheStep c dataToStore).*1).
  { induction dataToStore as [|entry rest IH]; intros c Hc; [done|].
    cbn [foldl]. by apply IH, cacheStep_NoDup. }
  apply H. cbn. apply NoDup_nil_2.
Qed.

Lemma cacheLogs_keys dataToStore (k : string) :
  k ∈ (cacheLogs dataToStore).*1 → k ∈ dataToStore.*1 ∨ k = "app_logs".
Proof.
  unfold cacheLogs.
  assert (H : ∀ c, k ∈ (foldl cacheStep c dataToStore).*1 →
                   k ∈ c.*1 ∨ k ∈ dataToStore.*1 ∨ k = "app_logs").
  { induction dataToStore as [|[key value] rest IH]; intros c Hk;
      [by left|].
    cbn [foldl] in Hk. apply IH in Hk as [Hk|[Hk|Hk]].
    - assert (k ∈ c.*1 ∨ k = key ∨ k = "app_logs") as [?|[->|?]].
      { repeat case_match; auto;
          apply elem_of_setProp_fst in Hk as [?|?]; auto. }
      + by left.
      + right; left. cbn. apply elem_of_cons. by left.
      + by right; right.
    - right; left. cbn. by apply list_elem_of_further.
    - by right; right. }
  intros Hk. apply H in Hk as [Hk|Hk]; [|done].
  by apply elem_of_nil in Hk.
Qed.

Lemma cacheStep_app_logs_kept (c : list (string * Cached))
    (entry : string * Value) :
  fst entry ≠ "app_logs" → fst entry ≠ "app_data" →
  getProp (cacheStep c entry) "app_logs" = getProp c "app_logs".
Proof.
  destruct entry as [key value]. cbn [fst]. intros H1 H2.
  rewrite (bool_decide_eq_false_2 (key = "app_data")) by done.
  cbn [andb]. case_match; [|done]. by apply getProp_setProp_ne.
Qed.

Lemma cacheLogs_app_logs dataToStore (doc : AppDataJson)
    (l : gmap string (list LogEntry)) :
  NoDup dataToStore.*1 →
  ("app_data", VAppData doc) ∈ dataToStore → doc_logs doc = Some l →
  "app_logs" ∉ dataToStore.*1 →
  getProp (cacheLogs dataToStore) "app_logs" = Some (LogsOf "app_data").
Proof.
  intros Hnodup Hin Hlogs Hnone. unfold cacheLogs.
  apply list_elem_of_split in Hin as (before & after & ->).
  rewrite foldl_app. cbn [foldl].
  rewrite fmap_app in Hnodup, Hnone. cbn in Hnodup, Hnone.
  apply NoDup_app in Hnodup as (_ & _ & [Happ _]%NoDup_cons).
  apply not_elem_of_app in Hnone as [_ [_ Hafter]%not_elem_of_cons].
  set (c := foldl cacheStep [] before).
  assert (Hstep : cacheStep c ("app_data", VAppData doc)
                  = setProp c "app_logs" (LogsOf "app_data")).
  { rewrite (bool_decide_eq_true_2 ("app_data" = "app_data")) by done.
    rewrite orb_true_r. cbn [andb hasLogs]. rewrite Hlogs.
    by rewrite bool_decide_eq_true_2. }
  rewrite Hstep. generalize (setProp c "app_logs" (LogsOf "app_data")),
    (getProp_setProp c "app_logs" (LogsOf "app_data")).
  clear Hstep c. intros c Hc.
  revert c Hc. induction after as [|entry rest IH]; intros c Hc; [done|].
  cbn [foldl]. cbn in Happ, Hafter.
  apply not_elem_of_cons in Happ as [? ?].
  apply not_elem_of_cons in Hafter as [? ?].
  apply IH; [done..|].
  rewrite cacheStep_app_logs_kept; done.
Qed.

Lemma restoreCached_other io dataToStore
    (cachedLogs : list (string * Cached)) acc (key : string) :
  key ∉ cachedLogs.*1 →
  cells (fst (restoreCached io dataToStore cachedLogs acc)) !! key
  = cells (fst acc) !! key.
Proof.
  revert acc.
  induction cachedLogs as [|[logKey logValue] rest IH]; intros acc Hkey;
    [done|].
  cbn in Hkey. apply not_elem_of_cons in Hkey as [Hne Hkey].
  cbn [BackupRestore.restoreCached].
  destruct (truthyProp _ _); [by apply IH|].
  destruct (setItem _ _ _ _) as [st'|] eqn:E; [|done].
  rewrite IH by done. cbn [fst].
  apply setItem_Some in E as [-> _]. by apply lookup_insert_ne.
Qed.

Lemma restoreCached_mono io dataToStore
    (cachedLogs : list (string * Cached)) acc :
  snd acc ≤ snd (restoreCached io dataToStore cachedLogs acc).
Proof.
  revert acc.
  induction cachedLogs as [|[logKey logValue] rest IH]; intros acc; [done|].
  cbn [BackupRestore.restoreCached].
  destruct (truthyProp _ _); [apply IH|].
  destruct (setItem _ _ _ _) as [st'|]; [|done].
  etrans; [|apply IH]. cbn. lia.
Qed.

Lemma restoreCached_written io dataToStore
    (cachedLogs : list (string * Cached)) acc (key : string) (c : Cached) :
  (∀ key text, setItemFails io key text = false) →
  NoDup cachedLogs.*1 → (key, c) ∈ cachedLogs →
  truthyProp dataToStore key = false →
  cells (fst (restoreCached io dataToStore cachedLogs acc)) !! key
  = Some (toText (deref dataToStore c)).
Proof.
  intros Haccepts. revert acc.
  induction cachedLogs as [|[logKey logValue] rest IH];
    intros acc Hnodup Hin Hfalsy.
  - by apply elem_of_nil in Hin.
  - cbn in Hnodup. apply NoDup_cons in Hnodup as [Hfresh Hnodup].
    cbn [BackupRestore.restoreCached].
    apply elem_of_cons in Hin as [[= <- <-]|Hin].
    + rewrite Hfalsy. unfold setItem. rewrite Haccepts.
      rewrite restoreCached_other by done. cbn.
      apply lookup_insert_eq.
    + destruct (truthyProp _ logKey); [by apply IH|].
      unfold setItem. rewrite Haccepts. by apply IH.
Qed.

(** X27: a restore onto a place that holds no [app_data], with a storage
    that answers: the restore succeeds as soon as the payload has a
    value that is not [null]; every truthy value of the payload is
    under its key afterwards, as text (for [app_data], when that text
    is not empty); the logs of the payload's [app_data] are also
    written under a key of their own, [app_logs], that the payload does
    not have; whatever else the place held is gone, [app_data] apart:
    a payload with neither [app_data] nor [unitNumber] leaves no
    [app_data], while one that brings a unit number and no [app_data]
    has the store migrate the legacy keys and save what it migrated
    under [app_data]. *)
Theorem restore_onto_empty io (backupJson : string) st dataToStore :
  backupJson ≠ "" →
  parseBackup backupJson = Some dataToStore →
  NoDup dataToStore.*1 →
  cells st !! "app_data" = None →
  (∀ key text, setItemFails io key text = false) →
  getAllKeysFails io = false → multiRemoveFails io = false →
  let r := restoreFromBackup io backupJson st in
  ((∃ key value, (key, value) ∈ dataToStore ∧ value ≠ VNull) →
   fst r = Returned true)
  ∧ (∀ key value, (key, value) ∈ dataToStore → truthy value = true →
       (key = "app_data" → toText value ≠ "") →
       cells (snd r) !! key = Some (toText value))
  ∧ (∀ doc l, (("app_data", VAppData doc) ∈ dataToStore) →
       doc_logs doc = Some l → "app_logs" ∉ dataToStore.*1 →
       cells (snd r) !! "app_logs" = Some (JSON_stringify (VLogs l)))
  ∧ (∀ key, key ∉ dataToStore.*1 → key ≠ "app_logs" → key ≠ "app_data" →
       cells (snd r) !! key = None)
  ∧ (("app_data" ∉ dataToStore.*1) → ("unitNumber" ∉ dataToStore.*1) →
     cells (snd r) !! "app_data" = None)
  ∧ (∀ unitNumber text,
       ("app_data" ∉ dataToStore.*1) →
       ("unitNumber", VString unitNumber) ∈ dataToStore →
       unitNumber ≠ "" →
       (∀ key, getItemFails io key = false) →
       (∀ before, migratedDocument io before = Some text) →
       cells (snd r) !! "app_data" = Some text).
Proof.
  intros Hne Hparse Hnodup Hfresh Haccepts Hkeys Hremove r. subst r.
  unfold BackupRestore.restoreFromBackup.
  rewrite bool_decide_eq_false_2, Hparse by done.
  assert (Hexisting : readExisting JSON_parse io st = None).
  { unfold readExisting. rewrite Hfresh. by destruct (getItemFails _ _). }
  rewrite Hexisting.
  assert (Hsame : resolveConflicts None dataToStore = dataToStore).
  { unfold BackupRestore.resolveConflicts. by destruct (getProp _ _). }
  rewrite Hsame. cbn [from_option]. rewrite andb_false_r.
  set (st1 := clearExisting io false st).
  set (acc1 := foldl (saveItem io) (st1, 0) dataToStore).
  destruct (restoreCached io dataToStore (cacheLogs dataToStore) acc1)
    as [st2 successCount] eqn:Efinal.
  assert (Hst2 : st2 = fst (restoreCached io dataToStore
                              (cacheLogs dataToStore) acc1))
    by by rewrite Efinal.
  assert (Hcount : successCount
                   = snd (restoreCached io dataToStore
                            (cacheLogs dataToStore) acc1))
    by by rewrite Efinal.
  assert (Hwiped : ∀ key, cells st1 !! key = None).
  { intros key. apply clearExisting_wipes; auto. }
  assert (Hwritten : ∀ key value,
            (key, value) ∈ dataToStore → truthy value = true →
            cells st2 !! key = Some (toText value)).
  { intros key value Hin Htruthy.
    assert (Hvalue : value ≠ VNull) by (by intros ->).
    destruct (foldl_saveItem_cell JSON_stringify io dataToStore (st1, 0)
                key value Hnodup Hin Hvalue (Haccepts key)) as [Hcell _].
    rewrite Hst2.
    destruct (restoreCached_kept JSON_stringify io dataToStore
                (cacheLogs dataToStore) acc1 key) as [-> _]; [|done].
    unfold truthyProp. by rewrite (getProp_NoDup _ _ _ Hnodup Hin). }
  assert (Hgone : ∀ key, key ∉ dataToStore.*1 → key ≠ "app_logs" →
            cells st2 !! key = None).
  { intros key Hkey Hlogs. rewrite Hst2, restoreCached_other.
    - subst acc1. by rewrite foldl_saveItem_other.
    - intros [?|?]%cacheLogs_keys; done. }
  split_and!.
  - intros (key & value & Hin & Hvalue).
    destruct (foldl_saveItem_cell JSON_stringify io dataToStore (st1, 0)
                key value Hnodup Hin Hvalue (Haccepts key)) as [_ Hlt].
    pose proof (restoreCached_mono io dataToStore (cacheLogs dataToStore)
                  acc1) as Hle.
    fold acc1 in Hlt. cbn [snd] in Hlt.
    destruct (successCount =? 0) eqn:E; [|done].
    apply Nat.eqb_eq in E. lia.
  - intros key value Hin Htruthy Htext.
    pose proof (Hwritten key value Hin Htruthy) as Hcell.
    destruct (successCount =? 0); cbn [snd]; [done|].
    destruct (decide (key = "app_data")) as [->|Hkey].
    + by rewrite (forceReinitialization_kept migratedDocument io st2 _
                    Hcell (Htext eq_refl)).
    + by rewrite forceReinitialization_other.
  - intros doc l Hin Hlogs Hnone.
    assert (cells st2 !! "app_logs" = Some (JSON_stringify (VLogs l)))
      as Hgoal.
    { rewrite Hst2.
      rewrite (restoreCached_written io dataToStore _ acc1 "app_logs"
                 (LogsOf "app_data") Haccepts).
      - cbn [deref]. rewrite (getProp_NoDup _ _ _ Hnodup Hin).
        by rewrite Hlogs.
      - apply cacheLogs_NoDup.
      - apply getProp_elem_of. by eapply cacheLogs_app_logs.
      - unfold truthyProp. by rewrite getProp_None. }
    destruct (successCount =? 0); cbn [snd]; [done|].
    by rewrite forceReinitialization_other.
  - intros key Hkey Hlogs Hdata.
    pose proof (Hgone key Hkey Hlogs) as Hgoal.
    destruct (successCount =? 0); cbn [snd]; [done|].
    by rewrite forceReinitialization_other.
  - intros Hdata Hunit.
    destruct (successCount =? 0); cbn [snd]; [by apply Hgone|].
    rewrite forceReinitialization_no_unit; by apply Hgone.
  - intros unitNumber text Hdata Hin Hunit Hreads Hmigrated.
    assert (Hcell : cells st2 !! "unitNumber" = Some unitNumber).
    { apply (Hwritten "unitNumber" (VString unitNumber) Hin). cbn.
      by rewrite bool_decide_eq_false_2. }
    assert (Hsuccess : (successCount =? 0) = false).
    { destruct (foldl_saveItem_cell JSON_stringify io dataToStore (st1, 0)
                  "unitNumber" (VString unitNumber) Hnodup Hin
                  ltac:(done) (Haccepts "unitNumber")) as [_ Hlt].
      pose proof (restoreCached_mono io dataToStore
                    (cacheLogs dataToStore) acc1) as Hle.
      fold acc1 in Hlt. cbn [snd] in Hlt.
      apply Nat.eqb_neq. lia. }
    rewrite Hsuccess. cbn [snd].
    unfold BackupRestore.forceReinitialization.
    rewrite !Hreads, (Hgone "app_data") by done. cbn [orb].
    rewrite Hcell. destruct unitNumber; [done|].
    rewrite Hmigrated. unfold setItem. rewrite Haccepts. cbn.
    apply lookup_insert_eq.
Qed.

End RestoreMoreFacts.

(** ** Runs of the further properties *)

Section MoreRuns.
Import JSString DataStore Samples Cases.
Local Open Scope nat_scope.
Local Open Scope list_scope.

Lemma relay_commands_described_witness :
  allDigits "1234" = true
  ∧ LogManager.describeSMS (Screens.turnRelayOn "1234")
    = ("Gate Open", "Opened gate/activated relay (ON)", LogManager.relay)
  ∧ LogManager.describeSMS (Screens.turnRelayOff "1234")
    = ("Gate Close", "Closed gate/deactivated relay (OFF)", LogManager.relay)
  ∧ LogManager.describeSMS (Screens.checkStatus "1234")
    = ("Status Check", "Requested device status", LogManager.system).
Proof.
  split; [reflexivity|]. apply (relay_commands_described "1234").
  reflexivity.
Defined.

Lemma password_change_described_witness :
  allDigits "1234" = true
  ∧ Screens.validatePasswords "4321" "4321" = true
  ∧ LogManager.describeSMS (Screens.passwordChangeCommand "1234" "4321")
    = ("Password Change", "Changed device password", LogManager.settings).
Proof.
  split; [reflexivity|]. split; [reflexivity|].
  destruct (password_change_described "1234" "4321" "4321") as [_ H].
  apply H; reflexivity.
Defined.

Lemma access_control_described_witness :
  allDigits "1234" = true
  ∧ LogManager.describeSMS (Screens.accessControlCommand "1234" AUT)
    = ("Access Control", "Set to authorized users only",
       LogManager.settings).
Proof.
  split; [reflexivity|].
  apply (access_control_described "1234" AUT). reflexivity.
Defined.

Lemma latch_time_three_digits_witness :
  isSerial "045" = true
  ∧ padStart 3 "0" (Screens.handleLatchTimeChange "045") = "045".
Proof.
  split; [reflexivity|].
  destruct (latch_time_three_digits "045") as [_ H]. apply H. reflexivity.
Defined.

Lemma latch_time_described_witness :
  isPassword "1234" = true
  ∧ LogManager.describeSMS
      (Screens.latchTimeCommand "1234" (Screens.handleLatchTimeChange "45s"))
    = ("Relay Timing", "Set relay to close for 45 seconds",
       LogManager.settings).
Proof.
  split; [reflexivity|].
  exact (latch_time_described "1234" "45s" eq_refl).
Defined.

Lemma admin_registration_described_witness :
  allDigits "1234" = true
  ∧ LogManager.describeSMS
      (AdminNumber.registerAdminCommand "1234" "0469 123 456")
    = ("Admin Registration", "Registered admin phone number",
       LogManager.settings).
Proof.
  split; [reflexivity|].
  apply (admin_registration_described "1234" "0469 123 456"). reflexivity.
Defined.

Lemma add_user_described_witness :
  isPassword "1234" = true ∧ isSerial "007" = true
  ∧ isPhoneNumber "+61412345678" = true
  ∧ allDigits "0800" = true ∧ allDigits "1700" = true
  ∧ LogManager.describeSMS
      (LogManager.addUserCommand "1234" "007" "+61412345678" "0800" "1700")
    = ("User Management", "Added user +61412345678 at position 007",
       LogManager.user).
Proof.
  split_and!; [reflexivity..|].
  apply (add_user_described "1234" "007" "+61412345678" "0800" "1700");
    reflexivity.
Defined.

Lemma preview_shows_number_sent_witness :
  startsWith (stripNonDigits "61469123456") "0" = false
  ∧ AdminNumber.previewAdminNumber "61469123456"
    = AdminNumber.formatAdminNumber "61469123456".
Proof.
  split; [reflexivity|].
  destruct (preview_shows_number_sent "61469123456") as [[_ H] _].
  apply H. reflexivity.
Defined.

(** Two residents at the positions 1 and 2: the next position is 3.  A
    serial with no-break spaces in front of [001] takes the position 1
    all the same. *)
Lemma generateNextSerial_least_free_witness :
  Screens.generateNextSerial "" residents = Some "003"
  ∧ Screens.generateNextSerial "" [padded] = Some "002"
  ∧ ∃ n, 1 ≤ n ≤ 200
         ∧ "003" = padStart 3 "0" (numberToString n)
         ∧ isSerial "003" = true
         ∧ parseInt "003" = Some (Z.of_nat n)
         ∧ (Z.of_nat n ∉ Screens.usedSerials residents)
         ∧ ∀ m, 1 ≤ m < n → Z.of_nat m ∈ Screens.usedSerials residents.
Proof.
  split; [reflexivity|]. split; [reflexivity|].
  exact (generateNextSerial_least_free residents).
Defined.



Lemma added_user_round_trip_witness :
  getDeviceById "gate" gateState
  = Some (withAuthorizedUsers (device "gate" "Front gate") ["alice"])
  ∧ ("u1" ∉ user_id <$> users (store gateState))
  ∧ ("u1" ∉ ["alice"])
  ∧ user_name
      <$> getDeviceUsers "gate"
            (snd (authorizeUserForDevice noStoreFaults "gate" "u1"
                    (snd (addUser noStoreFaults "u1" visitor gateState))))
    = ["Visitor"]
  ∧ getDeviceUsers "gate"
      (snd (deauthorizeUserForDevice noStoreFaults "gate" "u1"
              (snd (authorizeUserForDevice noStoreFaults "gate" "u1"
                      (snd (addUser noStoreFaults "u1" visitor gateState))))))
    = [].
Proof.
  assert (H1 : getDeviceById "gate" gateState
               = Some (withAuthorizedUsers (device "gate" "Front gate")
                         ["alice"])) by reflexivity.
  assert (H2 : "u1" ∉ user_id <$> users (store gateState))
    by apply not_elem_of_nil.
  assert (H3 : "u1" ∉ ["alice"]).
  { intros [=]%list_elem_of_singleton. }
  split_and!; [done..| |];
    destruct (added_user_round_trip noStoreFaults "u1" "gate" visitor
                gateState _ H1 H2 H3)
      as (_ & _ & Hlisted & _ & _ & Htaken & _).
  - by rewrite Hlisted.
  - by rewrite Htaken.
Defined.

Lemma active_device_stays_valid_witness :
  isInitialized gateState = true
  ∧ (∀ a, activeDeviceId (globalSettings (store gateState)) = Some a →
          a ∈ dev_id <$> devices (store gateState))
  ∧ ∀ a, activeDeviceId
           (globalSettings
              (store (snd (deleteDevice noStoreFaults noLoad "gate"
                             gateState)))) = Some a →
         a ∈ dev_id
               <$> devices
                     (store (snd (deleteDevice noStoreFaults noLoad "gate"
                                    gateState))).
Proof.
  assert (H1 : isInitialized gateState = true) by reflexivity.
  assert (H2 : ∀ a, activeDeviceId (globalSettings (store gateState))
                    = Some a →
                    a ∈ dev_id <$> devices (store gateState))
    by (intros a [=]).
  split_and!; [done..|].
  destruct (active_device_stays_valid noStoreFaults objectPrototype noLoad
              gateState H1 H2)
    as (_ & Hdelete & _).
  exact (Hdelete "gate").
Defined.

Lemma changes_are_written_witness :
  (∀ s, noStoreFaults s = false)
  ∧ persisted (snd (addUser noStoreFaults "u1" visitor gateState))
    = Some (store (snd (addUser noStoreFaults "u1" visitor gateState)))
  ∧ persisted (snd (deleteUser noStoreFaults "alice" gateState))
    = persisted gateState
  ∧ snd (addDeviceLog noStoreFaults objectPrototype "id" "now" "toString"
           "Gate Open" "" true relay gateState) = gateState.
Proof.
  assert (H : ∀ s, noStoreFaults s = false) by done.
  split; [done|].
  destruct (changes_are_written noStoreFaults objectPrototype noLoad
              gateState H)
    as (_ & Hadd & Hlog & _ & _ & _ & _ & Hdelete & _).
  split_and!; [exact (Hadd "u1" visitor)|exact (Hdelete "alice")|].
  exact (Hlog "id" "now" "toString" "Gate Open" "" true relay).
Defined.

(** The migration of [legacyKeys] into the empty store. *)
Lemma migrateLegacyData_spec_witness :
  let st' :=
    migrateLegacyData noStoreFaults "dev-1" "t0" "t1" legacyUserIds
      legacyKeys emptyState in
  (dev_name <$> devices (store st')) = ["My Gate Opener"]
  ∧ (password <$> devices (store st')) = ["1234"]
  ∧ (authorizedUsers <$> devices (store st')) = [["user-0"]]
  ∧ (user_name <$> users (store st')) = ["User 001"]
  ∧ activeDeviceId (globalSettings (store st')) = Some "dev-1"
  ∧ logs (store st') !! "dev-1" = Some [logEntry "old"]
  ∧ persisted st' = Some (store st').
Proof.
  destruct (migrateLegacyData_spec noStoreFaults "dev-1" "t0" "t1"
              legacyUserIds legacyKeys emptyState) as (_ & _ & H).
  destruct (H "0400000000") as (Hd & Hu & Ha & Hl & Hp);
    [done|done|done|done|done|done|done|].
  cbn zeta.
  split_and!;
    [by rewrite Hd|by rewrite Hd|by rewrite Hd|by rewrite Hu|exact Ha
    |by rewrite Hl|by apply Hp].
Defined.

Lemma mergeAppData_again_witness :
  BackupRestore.enumerates entriesOf
  ∧ BackupRestore.mergeAppData objectPrototype entriesOf
      (BackupRestore.mergeAppData objectPrototype entriesOf destinationDoc
         backupDoc) backupDoc
    = BackupRestore.mergeAppData objectPrototype entriesOf destinationDoc
        backupDoc
  ∧ BackupRestore.mergeAppData objectPrototype entriesOf backupDoc backupDoc
    = backupDoc.
Proof.
  assert (H : BackupRestore.enumerates entriesOf) by (by intros l).
  split; [done|].
  exact (mergeAppData_again objectPrototype entriesOf destinationDoc
           backupDoc H).
Defined.

(** The devices of the restore example, and buckets whose merge is
    thrown out of its loop at [hasOwnProperty], after the turn of
    [dev-A]. *)
Lemma merge_keeps_ids_distinct_witness :
  BackupRestore.enumerates entriesOf
  ∧ NoDup (dev_id <$> [deviceA]) ∧ NoDup (dev_id <$> [deviceA'; deviceB])
  ∧ NoDup (dev_id <$> BackupRestore.mergeDevices [deviceA]
                        [deviceA'; deviceB])
  ∧ BackupRestore.mergeLogs objectPrototype entriesOf destinationLogs
      backupLogs !! "dev-A" = Some [logEntry "e2"; logEntry "e1"]
  ∧ BackupRestore.mergeLogs objectPrototype entriesOf destinationLogs
      backupLogs !! "hasOwnProperty" = None
  ∧ NoDup (log_id <$> [logEntry "e2"; logEntry "e1"]).
Proof.
  assert (H0 : BackupRestore.enumerates entriesOf) by (by intros l).
  assert (H1 : NoDup (dev_id <$> [deviceA])) by apply NoDup_singleton.
  assert (H2 : NoDup (dev_id <$> [deviceA'; deviceB])).
  { apply NoDup_cons. split; [|apply NoDup_singleton].
    intros [=]%list_elem_of_singleton. }
  assert (H3 : ∀ deviceId bucket,
            destinationLogs !! deviceId = Some bucket →
            NoDup (log_id <$> bucket)).
  { intros deviceId bucket. unfold destinationLogs.
    intros [[_ <-]|[_ [_ <-]%lookup_singleton_Some]]%lookup_insert_Some;
      apply NoDup_singleton. }
  assert (H4 : ∀ deviceId bucket,
            backupLogs !! deviceId = Some bucket →
            NoDup (log_id <$> bucket)).
  { intros deviceId bucket. unfold backupLogs.
    intros [[_ <-]|[_ [_ <-]%lookup_singleton_Some]]%lookup_insert_Some;
      [|apply NoDup_singleton].
    apply NoDup_cons. split; [|apply NoDup_singleton].
    intros [=]%list_elem_of_singleton. }
  assert (H5 : BackupRestore.mergeLogs objectPrototype entriesOf
                 destinationLogs backupLogs !! "dev-A"
               = Some [logEntry "e2"; logEntry "e1"])
    by (vm_compute; reflexivity).
  destruct (merge_keeps_ids_distinct objectPrototype entriesOf
              [deviceA] [deviceA'; deviceB] destinationLogs backupLogs
              H0 H1 H2 H3 H4) as [Hdevices Hlogs].
  split_and!; [done|done|done|exact Hdevices|exact H5| |].
  - vm_compute. reflexivity.
  - exact (Hlogs "dev-A" _ H5).
Defined.

Lemma failed_restore_has_cleared_witness :
  "backup" ≠ ""
  ∧ is_Some (payloadOf backupDoc "backup")
  ∧ fst (BackupRestore.restoreFromBackup objectPrototype entriesOf
           showValue readValue (payloadOf backupDoc) noMigration
           rejectingWrites "backup" legacyStorage)
    = BackupRestore.Threw BackupRestore.NothingRestored
  ∧ BackupRestore.cells
      (snd (BackupRestore.restoreFromBackup objectPrototype entriesOf
              showValue readValue (payloadOf backupDoc) noMigration
              rejectingWrites "backup" legacyStorage))
      !! "unitNumber" = None.
Proof.
  assert (H1 : "backup" ≠ "") by done.
  assert (H2 : is_Some (payloadOf backupDoc "backup")) by by eexists.
  destruct (failed_restore_has_cleared objectPrototype entriesOf showValue
              readValue (payloadOf backupDoc) noMigration rejectingWrites
              "backup" legacyStorage H1) as [_ H].
  destruct H as (Hthrew & Hgone & _); [done|done|done|done|].
  split_and!; [done|done|exact Hthrew|by apply Hgone].
Defined.

(** The sample backup restored onto a place that holds a legacy key and
    no [app_data]; and a backup of the legacy keys restored there, after
    which the store migrates them. *)
Lemma restore_onto_empty_witness :
  "backup" ≠ ""
  ∧ payloadOf backupDoc "backup"
    = Some [("app_data", BackupRestore.VAppData backupDoc)]
  ∧ BackupRestore.cells legacyStorage !! "app_data" = None
  ∧ (let r :=
       BackupRestore.restoreFromBackup objectPrototype entriesOf showValue
         readValue (payloadOf backupDoc) migrates noFaults "backup"
         legacyStorage in
     fst r = BackupRestore.Returned true
     ∧ BackupRestore.cells (snd r) !! "app_data"
       = Some "devices:Renamed gate,Side gate"
     ∧ is_Some (BackupRestore.cells (snd r) !! "app_logs")
     ∧ BackupRestore.cells (snd r) !! "unitNumber" = None)
  ∧ (let r :=
       BackupRestore.restoreFromBackup objectPrototype entriesOf showValue
         readValue legacyPayload migrates noFaults "backup"
         legacyStorage in
     BackupRestore.cells (snd r) !! "unitNumber" = Some "0400000000"
     ∧ BackupRestore.cells (snd r) !! "app_data" = Some "migrated").
Proof.
  assert (H1 : "backup" ≠ "") by done.
  assert (H2 : payloadOf backupDoc "backup"
               = Some [("app_data", BackupRestore.VAppData backupDoc)])
    by reflexivity.
  assert (H3 : NoDup [("app_data", BackupRestore.VAppData backupDoc)].*1)
    by apply NoDup_singleton.
  assert (H4 : BackupRestore.cells legacyStorage !! "app_data" = None)
    by reflexivity.
  assert (Hin : ("app_data", BackupRestore.VAppData backupDoc)
                ∈ [("app_data", BackupRestore.VAppData backupDoc)])
    by apply list_elem_of_here.
  assert (H5 : legacyPayload "backup"
               = Some [("unitNumber",
                        BackupRestore.VString "0400000000")])
    by reflexivity.
  assert (H6 : NoDup [("unitNumber",
                       BackupRestore.VString "0400000000")].*1)
    by apply NoDup_singleton.
  assert (Hunit : ("unitNumber", BackupRestore.VString "0400000000")
                  ∈ [("unitNumber", BackupRestore.VString "0400000000")])
    by apply list_elem_of_here.
  destruct (restore_onto_empty objectPrototype entriesOf showValue
              readValue (payloadOf backupDoc) migrates noFaults "backup"
              legacyStorage _ H1 H2 H3 H4)
    as (Hok & Hcell & Hlogs & Hgone & _); [done|done|done|].
  destruct (restore_onto_empty objectPrototype entriesOf showValue
              readValue legacyPayload migrates noFaults "backup"
              legacyStorage _ H1 H5 H6 H4)
    as (_ & Hcell' & _ & _ & _ & Hmigrated); [done|done|done|].
  split_and!; [done|done|done| |].
  - cbn zeta. split_and!.
    + apply Hok. by eexists _, _.
    + rewrite (Hcell _ _ Hin); [done|done|done].
    + erewrite Hlogs; [done|exact Hin|reflexivity|].
      intros [=]%list_elem_of_singleton.
    + apply Hgone; [|done|done]. intros [=]%list_elem_of_singleton.
  - cbn zeta. split.
    + rewrite (Hcell' _ _ Hunit); [done|done|done].
    + apply (Hmigrated "0400000000"); [|done|done|done|done].
      intros [=]%list_elem_of_singleton.
Defined.

End MoreRuns.
